(** * Fish Eat Fish: growth engine, edibility and server authority

    A shallow embedding of the parts of the game that carry invariants:

    - [js/water-effect.js]   class [PlayerFish]: [eatFish], [grow],
      [shrink], [updateBoost], [updateGrowthAnimation], [canEat],
      [canBeEatenBy], [die], [respawn], the clamp of [update]; the enemy
      branch of [Game.checkCollisions];
    - class [MultiplayerManager]: [createRemotePlayer] and its
      [calculateRadiusFromSizeLevel], the handlers of the server's
      messages, [sendPlayerUpdate]; the utility [random];
    - [js/leaderboard.js]    class [EnemyFish]:
      [determineSizeRelativeToPlayer]; class [Leaderboard]: the tracked
      players and the stored high scores;
    - [js/ai-player.js]      class [AIPlayer]: constructor, [canEat],
      [canBeEatenBy]; classes [Food] and [FoodManager];
    - [js/object-pool.js]    class [ObjectPool];
    - [server.js]            the whole relay server: [generateFood],
      [startFoodSpawning] and the seven socket handlers.

    Conventions of the embedding.

    - A JavaScript number that is always an integer in the code (size
      levels, [fishNeededToGrow], counters, timer periods) is a [Z].
    - A JavaScript number that may be fractional (radii, scores, progress,
      coordinates) is a rational [Q]; arithmetic on it is exact.  IEEE-754
      rounding is not modelled: every statement below is either about
      integers small enough to be exact in a double, or about comparisons
      that are far from a rounding boundary.  Division by zero is total on
      [Q] (it yields 0) whereas JavaScript yields [NaN] or [Infinity]; the
      statements that read a quotient assume a positive divisor.
    - [Math.random()] and [Date.now()] are inputs of the functions that
      call them.
    - Rendering, DOM and input-device code is left out; a record keeps the
      fields that the modelled methods read or write. *)

From Stdlib Require Import ZArith QArith Qround Lia Lqa.
From stdpp Require Import gmap strings pretty list fin_maps sorting.

(* [set_solver] clears hypotheses by name and warns when one is absent. *)
#[local] Set Warnings "-clear-no-such-hyp".

(** ** JavaScript numeric helpers *)

Module JS.

Open Scope Q_scope.

(** [a < b] on numbers. *)
Definition ltb (a b : Q) : bool := negb (Qle_bool b a).

(** [a >= b] on numbers. *)
Definition geb (a b : Q) : bool := Qle_bool b a.

(** [Math.max(a, b)] and [Math.min(a, b)]. *)
Definition Math_max (a b : Q) : Q := if Qle_bool a b then b else a.
Definition Math_min (a b : Q) : Q := if Qle_bool a b then a else b.

(** [Math.floor(x)]. *)
Definition Math_floor (x : Q) : Z := Qfloor x.

(** Truthiness of a possibly absent number: [undefined] and [0] are falsy. *)
Definition truthy (x : option Q) : bool :=
  match x with
  | None => false
  | Some q => negb (Qeq_bool q 0)
  end.

Definition truthyZ (x : option Z) : bool :=
  match x with
  | None => false
  | Some z => negb (z =? 0)%Z
  end.

(** The loop shared by every constructor that rebuilds a radius from a
    size level:
    [for (let i = 1; i < sizeLevel; i++) radius += 5 + Math.floor(i / 2) * 2].
    [count] is the number of iterations left, [i] the loop variable. *)
Fixpoint growthLoop (count : nat) (i : Z) (radius : Q) : Q :=
  match count with
  | O => radius
  | S count' =>
      growthLoop count' (i + 1)%Z (radius + inject_Z (5 + (i / 2) * 2)%Z)
  end.

(** The loop entered with [i = 1] runs [sizeLevel - 1] times (not at all
    when [sizeLevel <= 1]). *)
Definition radiusLoop (base : Q) (sizeLevel : Z) : Q :=
  growthLoop (Z.to_nat (sizeLevel - 1)) 1%Z base.

End JS.

(** ** The growth curve as the specification words it

    Base radius 15 at level 1; for each level [i] from 2 to [sizeLevel],
    add [5 + floor(i/2)*2]. *)

Module Spec.

Open Scope Z_scope.

Definition delta (i : Z) : Z := 5 + (i / 2) * 2.

Fixpoint sumDelta (count : nat) (i : Z) : Z :=
  match count with
  | O => 0
  | S count' => delta i + sumDelta count' (i + 1)
  end.

(** Sum of [delta i] for [i] from 2 to [sizeLevel]. *)
Definition radiusForLevel (sizeLevel : Z) : Z :=
  15 + sumDelta (Z.to_nat (sizeLevel - 1)) 2.

End Spec.

(** ** [PlayerFish] (js/water-effect.js) *)

Module PlayerFish.

Import JS.
Open Scope Q_scope.

Record GrowthAnimation := mkAnim {
  active : bool;
  timer : Z;
  duration : Z;
  targetRadius : Q;
  startRadius : Q
}.

Record t := mk {
  isAlive : bool;
  sizeLevel : Z;
  radius : Q;
  baseSpeed : Q;
  speed : Q;
  boosting : bool;
  boostDrainRate : Q;
  score : Q;
  fishEaten : Q;
  fishNeededToGrow : Z;
  growthProgress : Q;
  growthAnimation : GrowthAnimation
}.

(** The constructor's initial values. *)
Definition new : t :=
  {| isAlive := true;
     sizeLevel := 1;
     radius := 15;
     baseSpeed := 2.0;
     speed := 2.0;
     boosting := false;
     boostDrainRate := 0.001;
     score := 0;
     fishEaten := 0;
     fishNeededToGrow := 5;
     growthProgress := 0;
     growthAnimation :=
       {| active := false; timer := 0; duration := 60;
          targetRadius := 15; startRadius := 15 |} |}.

Definition startBoost (p : t) : t :=
  if negb (isAlive p) then p
  else
    {| isAlive := isAlive p; sizeLevel := sizeLevel p; radius := radius p;
       baseSpeed := baseSpeed p; speed := speed p;
       boosting := true;
       boostDrainRate := boostDrainRate p; score := score p;
       fishEaten := fishEaten p; fishNeededToGrow := fishNeededToGrow p;
       growthProgress := growthProgress p;
       growthAnimation := growthAnimation p |}.

Definition stopBoost (p : t) : t :=
  {| isAlive := isAlive p; sizeLevel := sizeLevel p; radius := radius p;
     baseSpeed := baseSpeed p; speed := speed p;
     boosting := false;
     boostDrainRate := boostDrainRate p; score := score p;
     fishEaten := fishEaten p; fishNeededToGrow := fishNeededToGrow p;
     growthProgress := growthProgress p;
     growthAnimation := growthAnimation p |}.

(** [grow(amount = 1)].  The radius itself is not assigned here: the new
    radius is the animation's target, reached by
    [updateGrowthAnimation]. *)
Definition grow (amount : Z) (p : t) : t :=
  let sizeLevel' := (sizeLevel p + amount)%Z in
  let baseSpeed' := Math_max 1.5 (baseSpeed p * 0.95) in
  let growthAmount := (amount * (5 + (sizeLevel' / 2) * 2))%Z in
  {| isAlive := isAlive p;
     sizeLevel := sizeLevel';
     radius := radius p;
     baseSpeed := baseSpeed';
     speed := baseSpeed';
     boosting := boosting p;
     boostDrainRate := boostDrainRate p;
     score := score p;
     fishEaten := 0;
     fishNeededToGrow := Math_floor (inject_Z (fishNeededToGrow p) * 1.5);
     growthProgress := 0;
     growthAnimation :=
       {| active := true; timer := 0;
          duration := duration (growthAnimation p);
          targetRadius := radius p + inject_Z growthAmount;
          startRadius := radius p |} |}.

(** [shrink()]: the boolean is the method's return value. *)
Definition shrink (p : t) : bool * t :=
  if (sizeLevel p <=? 1)%Z then (false, p)
  else
    let shrinkAmount := (5 + ((sizeLevel p - 1) / 2) * 2)%Z in
    let radius' := radius p - inject_Z shrinkAmount in
    let baseSpeed' := Math_min 3.5 (baseSpeed p / 0.95) in
    (true,
     {| isAlive := isAlive p;
        sizeLevel := (sizeLevel p - 1)%Z;
        radius := radius';
        baseSpeed := baseSpeed';
        speed := baseSpeed';
        boosting := boosting p;
        boostDrainRate := boostDrainRate p;
        score := score p;
        fishEaten := fishEaten p;
        fishNeededToGrow := Math_floor (inject_Z (fishNeededToGrow p) / 1.5);
        growthProgress := growthProgress p;
        growthAnimation :=
          {| active := true; timer := 0;
             duration := duration (growthAnimation p);
             targetRadius := radius';
             startRadius := radius' + inject_Z shrinkAmount |} |}).

(** [updateBoost()]. *)
Definition updateBoost (p : t) : t :=
  if negb (boosting p) then p
  else
    let drainAmount := boostDrainRate p in
    if ltb 0 (fishEaten p) then
      let fishEaten' :=
        Math_max 0 (fishEaten p - drainAmount * inject_Z (fishNeededToGrow p)) in
      {| isAlive := isAlive p; sizeLevel := sizeLevel p; radius := radius p;
         baseSpeed := baseSpeed p; speed := speed p;
         boosting := boosting p;
         boostDrainRate := boostDrainRate p; score := score p;
         fishEaten := fishEaten';
         fishNeededToGrow := fishNeededToGrow p;
         growthProgress := fishEaten' / inject_Z (fishNeededToGrow p);
         growthAnimation := growthAnimation p |}
    else if (1 <? sizeLevel p)%Z then
      let q := snd (shrink p) in
      {| isAlive := isAlive q; sizeLevel := sizeLevel q; radius := radius q;
         baseSpeed := baseSpeed q; speed := speed q;
         boosting := boosting q;
         boostDrainRate := boostDrainRate q; score := score q;
         fishEaten := inject_Z (fishNeededToGrow q) * 0.9;
         fishNeededToGrow := fishNeededToGrow q;
         growthProgress := 0.9;
         growthAnimation := growthAnimation q |}
    else stopBoost p.

(** [eatFish(amount = 1)]. *)
Definition eatFish (amount : Q) (p : t) : t :=
  let fishEaten' := fishEaten p + amount in
  let p1 :=
    {| isAlive := isAlive p; sizeLevel := sizeLevel p; radius := radius p;
       baseSpeed := baseSpeed p; speed := speed p;
       boosting := boosting p;
       boostDrainRate := boostDrainRate p;
       score := score p + amount * 10 * inject_Z (sizeLevel p);
       fishEaten := fishEaten';
       fishNeededToGrow := fishNeededToGrow p;
       growthProgress := fishEaten' / inject_Z (fishNeededToGrow p);
       growthAnimation := growthAnimation p |} in
  if geb fishEaten' (inject_Z (fishNeededToGrow p)) then grow 1 p1 else p1.

(** [easeOutElastic(x)]: 0 at 0, 1 at 1; in between the value is
    [Math.pow(2, -10 * x) * Math.sin((x * 10 - 0.75) * c4) + 1], which is
    taken as the parameter [elastic]. *)
Definition easeOutElastic (elastic : Q -> Q) (x : Q) : Q :=
  if Qeq_bool x 0 then 0
  else if Qeq_bool x 1 then 1
  else elastic x.

(** [updateGrowthAnimation()]. *)
Definition updateGrowthAnimation (elastic : Q -> Q) (p : t) : t :=
  let a := growthAnimation p in
  let timer' := (timer a + 1)%Z in
  let progress := Math_min 1 (inject_Z timer' / inject_Z (duration a)) in
  let easedProgress := easeOutElastic elastic progress in
  let radius1 :=
    startRadius a + (targetRadius a - startRadius a) * easedProgress in
  let finished := geb progress 1 in
  {| isAlive := isAlive p; sizeLevel := sizeLevel p;
     radius := if finished then targetRadius a else radius1;
     baseSpeed := baseSpeed p; speed := speed p;
     boosting := boosting p;
     boostDrainRate := boostDrainRate p; score := score p;
     fishEaten := fishEaten p; fishNeededToGrow := fishNeededToGrow p;
     growthProgress := growthProgress p;
     growthAnimation :=
       {| active := if finished then false else active a;
          timer := timer';
          duration := duration a;
          targetRadius := targetRadius a;
          startRadius := startRadius a |} |}.

(** The part of [update()] that touches the growth state of a living
    player: [updateBoost()], then the animation when it is active. *)
Definition update (elastic : Q -> Q) (p : t) : t :=
  if negb (isAlive p) then p
  else
    let p1 := updateBoost p in
    if active (growthAnimation p1) then updateGrowthAnimation elastic p1
    else p1.

(** [canEat(otherFish)]: only the other fish's radius is read. *)
Definition canEat (p : t) (otherRadius : Q) : bool :=
  ltb (otherRadius * 0.99) (radius p).

(** What drives the boost: the mouse button going down ([startBoost]) or
    up ([stopBoost]), and the frame's [updateBoost]. *)
Inductive BoostInput := ButtonDown | ButtonUp | Frame.

Definition boostStep (p : t) (i : BoostInput) : t :=
  match i with
  | ButtonDown => startBoost p
  | ButtonUp => stopBoost p
  | Frame => updateBoost p
  end.

Definition runBoost (inputs : list BoostInput) (p : t) : t :=
  fold_left boostStep inputs p.

(** [frames] consecutive calls of [updateGrowthAnimation]. *)
Definition animate (elastic : Q -> Q) (frames : nat) (p : t) : t :=
  Nat.iter frames (updateGrowthAnimation elastic) p.

(** A level-up whose animation runs to its end before anything else
    happens to the player. *)
Definition levelUp (elastic : Q -> Q) (p : t) : t :=
  animate elastic 60 (grow 1 p).

(** The state the drain keeps whatever the inputs: the level is at least
    1, progress is not negative, and progress is positive only while the
    threshold is. *)
Definition drainInvariant (p : t) : Prop :=
  (1 <= sizeLevel p)%Z /\ 0 <= fishEaten p /\ 0 <= growthProgress p /\
  (0 <= fishNeededToGrow p)%Z /\
  (0 < fishEaten p -> (0 < fishNeededToGrow p)%Z).

(** The terminal floor: level 1 with no progress. *)
Definition atFloor (p : t) : Prop :=
  sizeLevel p = 1%Z /\ fishEaten p == 0 /\ growthProgress p == 0.

End PlayerFish.

(** ** Remote players ([MultiplayerManager.createRemotePlayer]) *)

Module RemotePlayer.

Import JS.
Open Scope Q_scope.

(** The fields of a server payload that the reconstruction reads; a field
    the payload lacks is [None]. *)
Record PlayerData := mkData {
  data_radius : option Q;
  data_sizeLevel : option Z
}.

Record t := mk {
  radius : option Q;
  sizeLevel : Z
}.

(** [calculateRadiusFromSizeLevel()]: acts only when the radius is falsy
    and the size level truthy. *)
Definition calculateRadiusFromSizeLevel (p : t) : t :=
  if negb (truthy (radius p)) && truthyZ (Some (sizeLevel p)) then
    {| radius := Some (radiusLoop 15 (sizeLevel p));
       sizeLevel := sizeLevel p |}
  else p.

(** [createRemotePlayer(playerData)]: [radius: playerData.radius],
    [sizeLevel: playerData.sizeLevel || 1], then the radius is computed
    when it was not provided. *)
Definition createRemotePlayer (d : PlayerData) : t :=
  let player :=
    {| radius := data_radius d;
       sizeLevel := if truthyZ (data_sizeLevel d)
                    then default 1%Z (data_sizeLevel d) else 1%Z |} in
  if negb (truthy (radius player)) && truthyZ (Some (sizeLevel player))
  then calculateRadiusFromSizeLevel player
  else player.

(** [canEat(otherFish)] of a remote player object. *)
Definition canEat (p : t) (otherRadius : Q) : bool :=
  match radius p with
  | Some r => ltb (otherRadius * 0.99) r
  | None => false
  end.

End RemotePlayer.

(** ** [EnemyFish] (js/leaderboard.js) *)

Module EnemyFish.

Import JS.
Open Scope Q_scope.

Record t := mk {
  sizeLevel : Z;
  radius : Q
}.

(** [determineSizeRelativeToPlayer(playerSizeLevel)].  [sizeRoll] is the
    value of [Math.random()], [draw] the value returned by the one call of
    [random(_, _)] that the taken branch makes. *)
Definition determineSizeRelativeToPlayer
    (sizeRoll : Q) (draw : Z) (playerSizeLevel : Z) : t :=
  let sizeLevel' :=
    if ltb sizeRoll 0.6 then Z.max 1 (playerSizeLevel - draw)
    else if ltb sizeRoll 0.9 then (playerSizeLevel + draw)%Z
    else (playerSizeLevel + draw)%Z in
  {| sizeLevel := sizeLevel'; radius := radiusLoop 10 sizeLevel' |}.

End EnemyFish.

(** ** [AIPlayer] (js/ai-player.js) *)

Module AIPlayer.

Import JS.
Open Scope Q_scope.

Record t := mk {
  sizeLevel : Z;
  radius : Q
}.

(** The constructor: [sizeLevel = startSize || random(1, 3)], radius from
    the loop with base 15. *)
Definition new (startSize : option Z) (draw : Z) : t :=
  let sizeLevel' :=
    if truthyZ startSize then default draw startSize else draw in
  {| sizeLevel := sizeLevel'; radius := radiusLoop 15 sizeLevel' |}.

(** [canEat(otherPlayer)]. *)
Definition canEat (p : t) (otherRadius : Q) : bool :=
  ltb (otherRadius * 1.05) (radius p).

End AIPlayer.

(** ** The relay server (server.js) *)

Module Server.

Import JS.
Open Scope Z_scope.

Record Food := mkFood {
  food_id : string;
  food_x : Q;
  food_y : Q;
  food_radius : Q;
  food_value : Q;
  food_color : option string
}.

Record Player := mkPlayer {
  id : string;
  name : string;
  x : Q;
  y : Q;
  radius : Q;
  color : string;
  eyeColor : string;
  pupilColor : string;
  angle : Q;
  score : Q;
  sizeLevel : Z;
  isAlive : bool
}.

(** [gameState].  The [enemies] array is never read or written by the
    server and is left out. *)
Record GameState := mkGameState {
  players : gmap string Player;
  foods : list Food;
  worldWidth : Q;
  worldHeight : Q;
  maxFoodItems : Z;
  connectedPlayers : Z
}.

(** Payloads of the client events. *)
Record JoinData := mkJoin {
  join_name : string;
  join_x : Q;
  join_y : Q;
  join_radius : Q;
  join_color : string;
  join_eyeColor : string;
  join_pupilColor : string;
  join_angle : Q;
  join_worldWidth : option Q;
  join_worldHeight : option Q
}.

Record UpdateData := mkUpdate {
  upd_x : Q;
  upd_y : Q;
  upd_radius : Q;
  upd_angle : Q;
  upd_score : Q;
  upd_sizeLevel : Z;
  upd_isAlive : bool
}.

Record RespawnData := mkRespawn {
  resp_x : Q;
  resp_y : Q;
  resp_radius : Q;
  resp_score : Q;
  resp_sizeLevel : Z
}.

(** What one call of [generateFood] draws from the clock and from
    [Math.random()]: [Date.now()], the nine base-36 digits of the id, the
    two coordinates' factors and the colour's factor. *)
Record FoodDraw := mkDraw {
  draw_now : Z;
  draw_suffix : string;
  draw_x : Q;
  draw_y : Q;
  draw_color : Q
}.

(** Messages the server sends, and to whom: [io.emit] reaches every
    socket, [socket.broadcast.emit] every socket but the sender,
    [socket.emit] the sender alone. *)
Inductive Message :=
  | MsgGameState (gs : GameState)
  | MsgPlayerJoined (p : Player)
  | MsgPlayerMoved (p : Player)
  | MsgFoodSpawned (f : Food)
  | MsgFoodRemoved (foodId : string)
  | MsgPlayerDied (playerId : string)
  | MsgPlayerRespawned (p : Player)
  | MsgPlayerLeft (playerId : string).

Inductive Target :=
  | ToAll
  | ToOthers (sender : string)
  | ToSocket (sender : string).

Record Emit := mkEmit { target : Target; message : Message }.

(** The server process: [gameState], the variable [foodSpawnInterval],
    and the two pieces of the runtime that the handlers act on: the table
    of running interval timers (handle to period in ms, with the next free
    handle) and the set of live socket ids. *)
Record t := mk {
  gameState : GameState;
  foodSpawnInterval : option nat;
  timers : gmap nat Z;
  nextTimer : nat;
  sockets : gset string
}.

Definition set_players (ps : gmap string Player) (gs : GameState) : GameState :=
  {| players := ps; foods := foods gs;
     worldWidth := worldWidth gs; worldHeight := worldHeight gs;
     maxFoodItems := maxFoodItems gs;
     connectedPlayers := connectedPlayers gs |}.

Definition set_foods (fs : list Food) (gs : GameState) : GameState :=
  {| players := players gs; foods := fs;
     worldWidth := worldWidth gs; worldHeight := worldHeight gs;
     maxFoodItems := maxFoodItems gs;
     connectedPlayers := connectedPlayers gs |}.

Definition set_world (w h : Q) (gs : GameState) : GameState :=
  {| players := players gs; foods := foods gs;
     worldWidth := w; worldHeight := h;
     maxFoodItems := maxFoodItems gs;
     connectedPlayers := connectedPlayers gs |}.

Definition set_connectedPlayers (n : Z) (gs : GameState) : GameState :=
  {| players := players gs; foods := foods gs;
     worldWidth := worldWidth gs; worldHeight := worldHeight gs;
     maxFoodItems := maxFoodItems gs;
     connectedPlayers := n |}.

Definition set_gameState (gs : GameState) (s : t) : t :=
  {| gameState := gs; foodSpawnInterval := foodSpawnInterval s;
     timers := timers s; nextTimer := nextTimer s; sockets := sockets s |}.

Definition set_sockets (ss : gset string) (s : t) : t :=
  {| gameState := gameState s; foodSpawnInterval := foodSpawnInterval s;
     timers := timers s; nextTimer := nextTimer s; sockets := ss |}.

(** [getRandomFoodColor()]. *)
Definition foodColors : list string :=
  ["#AAFFAA"; "#AAAAFF"; "#FFAAAA"; "#FFFFAA"; "#FFAAFF"; "#AAFFFF"]%string.

Definition getRandomFoodColor (r : Q) : option string :=
  foodColors !! Z.to_nat (Math_floor (r * inject_Z (Z.of_nat (length foodColors)))%Q).

(** [generateFood()]: the second component is the returned food,
    [None] for the bare [return]. *)
Definition generateFood (d : FoodDraw) (gs : GameState) : GameState * option Food :=
  if Z.of_nat (length (foods gs)) >=? maxFoodItems gs then (gs, None)
  else
    let food :=
      {| food_id := (pretty (draw_now d) +:+ draw_suffix d)%string;
         food_x := (draw_x d * worldWidth gs)%Q;
         food_y := (draw_y d * worldHeight gs)%Q;
         food_radius := 5%Q;
         food_value := 1%Q;
         food_color := getRandomFoodColor (draw_color d) |} in
    (set_foods (foods gs ++ [food]) gs, Some food).

(** The object literal [gameState] at start-up. *)
Definition gameState0 : GameState :=
  {| players := ∅; foods := [];
     worldWidth := 3840%Q; worldHeight := 2160%Q;
     maxFoodItems := 100; connectedPlayers := 0 |}.

(** [for (let i = 0; i < 50; i++) generateFood();] where the [i]-th call
    draws [draws i]. *)
Definition seedFood (draws : nat -> FoodDraw) (gs : GameState) : GameState :=
  fold_left (fun g i => fst (generateFood (draws i) g)) (seq 0 50) gs.

(** [clearInterval(h)] and [setInterval(callback, period)] on the timer
    table. *)
Definition clearInterval (h : nat) (s : t) : t :=
  {| gameState := gameState s; foodSpawnInterval := foodSpawnInterval s;
     timers := delete h (timers s); nextTimer := nextTimer s;
     sockets := sockets s |}.

Definition setInterval (period : Z) (s : t) : nat * t :=
  (nextTimer s,
   {| gameState := gameState s; foodSpawnInterval := foodSpawnInterval s;
      timers := <[nextTimer s := period]> (timers s);
      nextTimer := S (nextTimer s);
      sockets := sockets s |}).

(** [startFoodSpawning()]. *)
Definition startFoodSpawning (s : t) : t :=
  let s1 :=
    match foodSpawnInterval s with
    | Some h => clearInterval h s
    | None => s
    end in
  if connectedPlayers (gameState s1) =? 0 then s1
  else
    let spawnRate :=
      if connectedPlayers (gameState s1) =? 1 then 2000 else 500 in
    let '(h, s2) := setInterval spawnRate s1 in
    {| gameState := gameState s2; foodSpawnInterval := Some h;
       timers := timers s2; nextTimer := nextTimer s2;
       sockets := sockets s2 |}.

(** The interval's callback. *)
Definition spawnTick (d : FoodDraw) (s : t) : t * list Emit :=
  let '(gs, newFood) := generateFood d (gameState s) in
  let s' := set_gameState gs s in
  match newFood with
  | Some f =>
      if 0 <? connectedPlayers gs
      then (s', [mkEmit ToAll (MsgFoodSpawned f)])
      else (s', [])
  | None => (s', [])
  end.

(** The module's top-level statements: seed the food, then call
    [startFoodSpawning()] once. *)
Definition boot (draws : nat -> FoodDraw) : t :=
  startFoodSpawning
    {| gameState := seedFood draws gameState0;
       foodSpawnInterval := None;
       timers := ∅; nextTimer := O; sockets := ∅ |}.

(** [io.on('connection', ...)]: the body up to the registration of the
    socket's handlers. *)
Definition onConnection (sid : string) (s : t) : t * list Emit :=
  let s0 := set_sockets ({[sid]} ∪ sockets s) s in
  let gs := gameState s0 in
  let s1 := set_gameState (set_connectedPlayers (connectedPlayers gs + 1) gs) s0 in
  let s2 := startFoodSpawning s1 in
  (s2, [mkEmit (ToSocket sid) (MsgGameState (gameState s2))]).

(** [socket.on('playerJoin', ...)]. *)
Definition onPlayerJoin (sid : string) (d : JoinData) (s : t) : t * list Emit :=
  let gs := gameState s in
  let player :=
    {| id := sid; name := join_name d;
       x := join_x d; y := join_y d; radius := join_radius d;
       color := join_color d; eyeColor := join_eyeColor d;
       pupilColor := join_pupilColor d; angle := join_angle d;
       score := 0%Q; sizeLevel := 1; isAlive := true |} in
  let gs1 := set_players (<[sid := player]> (players gs)) gs in
  let gs2 :=
    if truthy (join_worldWidth d) && truthy (join_worldHeight d) then
      set_world (Math_max (worldWidth gs1) (default 0%Q (join_worldWidth d)))
                (Math_max (worldHeight gs1) (default 0%Q (join_worldHeight d)))
                gs1
    else gs1 in
  let s' := set_gameState gs2 s in
  if 1 <? connectedPlayers gs2
  then (s', [mkEmit (ToOthers sid) (MsgPlayerJoined player)])
  else (s', []).

(** [socket.on('playerUpdate', ...)]. *)
Definition onPlayerUpdate (sid : string) (d : UpdateData) (s : t) : t * list Emit :=
  let gs := gameState s in
  match players gs !! sid with
  | Some p =>
      let player :=
        {| id := id p; name := name p;
           x := upd_x d; y := upd_y d; radius := upd_radius d;
           color := color p; eyeColor := eyeColor p;
           pupilColor := pupilColor p; angle := upd_angle d;
           score := upd_score d; sizeLevel := upd_sizeLevel d;
           isAlive := upd_isAlive d |} in
      let s' := set_gameState (set_players (<[sid := player]> (players gs)) gs) s in
      if 1 <? connectedPlayers gs
      then (s', [mkEmit (ToOthers sid) (MsgPlayerMoved player)])
      else (s', [])
  | None => (s, [])
  end.

(** [gameState.foods.findIndex(food => food.id === foodId)]: the index of
    the first match, [-1] when there is none. *)
Fixpoint findIndex (foodId : string) (fs : list Food) : Z :=
  match fs with
  | [] => -1
  | f :: fs' =>
      if String.eqb (food_id f) foodId then 0
      else
        let i := findIndex foodId fs' in
        if i =? -1 then -1 else i + 1
  end.

(** [foods.splice(index, 1)] for an index in range. *)
Definition splice1 (index : Z) (fs : list Food) : list Food :=
  take (Z.to_nat index) fs ++ drop (S (Z.to_nat index)) fs.

(** [socket.on('foodEaten', ...)]. *)
Definition onFoodEaten (sid : string) (foodId : string) (s : t) : t * list Emit :=
  let gs := gameState s in
  let foodIndex := findIndex foodId (foods gs) in
  if negb (foodIndex =? -1) then
    (set_gameState (set_foods (splice1 foodIndex (foods gs)) gs) s,
     [mkEmit ToAll (MsgFoodRemoved foodId)])
  else (s, []).

(** The property names every object inherits from [Object.prototype].
    [gameState.players] is an object literal, so [gameState.players[key]]
    under one of these names, when the registry has no entry of that
    name, is the inherited function (for [__proto__] the prototype
    itself): a truthy value that is no player.  The key of
    [playerEaten] is sent by a client and can be any of them.  The other
    handlers look up [socket.id], which the runtime draws (twenty
    characters of its own alphabet) and which is none of them. *)
Definition inheritedKeys : list string :=
  ["constructor"; "__proto__"; "hasOwnProperty"; "isPrototypeOf";
   "propertyIsEnumerable"; "toLocaleString"; "toString"; "valueOf";
   "__defineGetter__"; "__defineSetter__"; "__lookupGetter__";
   "__lookupSetter__"]%string.

Definition isInherited (key : string) : bool :=
  bool_decide (key ∈ inheritedKeys).

(** [socket.on('playerEaten', ...)].  Under an inherited name with no
    entry of its own, [eatenPlayer] is the inherited value: the
    assignment of [isAlive] lands on that object, outside [gameState]
    (on [Object.prototype] it leaves the falsy [isAlive] for every
    object to inherit), and [playerDied] is broadcast all the same. *)
Definition onPlayerEaten (sid : string) (eatenPlayerId : string) (s : t) : t * list Emit :=
  let gs := gameState s in
  match players gs !! eatenPlayerId with
  | Some p =>
      let eatenPlayer :=
        {| id := id p; name := name p; x := x p; y := y p;
           radius := radius p; color := color p; eyeColor := eyeColor p;
           pupilColor := pupilColor p; angle := angle p; score := score p;
           sizeLevel := sizeLevel p; isAlive := false |} in
      (set_gameState
         (set_players (<[eatenPlayerId := eatenPlayer]> (players gs)) gs) s,
       [mkEmit ToAll (MsgPlayerDied eatenPlayerId)])
  | None =>
      if isInherited eatenPlayerId
      then (s, [mkEmit ToAll (MsgPlayerDied eatenPlayerId)])
      else (s, [])
  end.

(** [socket.on('playerRespawn', ...)]. *)
Definition onPlayerRespawn (sid : string) (d : RespawnData) (s : t) : t * list Emit :=
  let gs := gameState s in
  match players gs !! sid with
  | Some p =>
      let player :=
        {| id := id p; name := name p;
           x := resp_x d; y := resp_y d; radius := resp_radius d;
           color := color p; eyeColor := eyeColor p;
           pupilColor := pupilColor p; angle := angle p;
           score := resp_score d; sizeLevel := resp_sizeLevel d;
           isAlive := true |} in
      let s' := set_gameState (set_players (<[sid := player]> (players gs)) gs) s in
      if 1 <? connectedPlayers gs
      then (s', [mkEmit ToAll (MsgPlayerRespawned player)])
      else (s', [])
  | None => (s, [])
  end.

(** [socket.on('disconnect', ...)]. *)
Definition onDisconnect (sid : string) (s : t) : t * list Emit :=
  let s0 := set_sockets (sockets s ∖ {[sid]}) s in
  let gs := gameState s0 in
  let s1 :=
    set_gameState
      (set_connectedPlayers (Z.max 0 (connectedPlayers gs - 1)) gs) s0 in
  let s2 := startFoodSpawning s1 in
  let gs2 := gameState s2 in
  match players gs2 !! sid with
  | Some _ =>
      let s3 := set_gameState (set_players (delete sid (players gs2)) gs2) s2 in
      if 0 <? connectedPlayers gs2
      then (s3, [mkEmit ToAll (MsgPlayerLeft sid)])
      else (s3, [])
  | None => (s2, [])
  end.

(** Everything the single-threaded event loop can deliver to the server. *)
Inductive Event :=
  | Connection (sid : string)
  | PlayerJoin (sid : string) (d : JoinData)
  | PlayerUpdate (sid : string) (d : UpdateData)
  | FoodEaten (sid : string) (foodId : string)
  | PlayerEaten (sid : string) (eatenPlayerId : string)
  | PlayerRespawn (sid : string) (d : RespawnData)
  | Disconnect (sid : string)
  | SpawnTick (h : nat) (d : FoodDraw).

Definition handle (s : t) (e : Event) : t * list Emit :=
  match e with
  | Connection sid => onConnection sid s
  | PlayerJoin sid d => onPlayerJoin sid d s
  | PlayerUpdate sid d => onPlayerUpdate sid d s
  | FoodEaten sid foodId => onFoodEaten sid foodId s
  | PlayerEaten sid eatenPlayerId => onPlayerEaten sid eatenPlayerId s
  | PlayerRespawn sid d => onPlayerRespawn sid d s
  | Disconnect sid => onDisconnect sid s
  | SpawnTick h d => spawnTick d s
  end.

(** When the runtime can deliver an event: a connection brings a socket id
    that is not live, a socket's own events (its disconnection included,
    which ends them) come from a live socket, and an interval fires only
    while its handle is in the timer table. *)
Definition enabled (s : t) (e : Event) : bool :=
  match e with
  | Connection sid => bool_decide (sid ∉ sockets s)
  | PlayerJoin sid _ | PlayerUpdate sid _ | FoodEaten sid _
  | PlayerEaten sid _ | PlayerRespawn sid _ | Disconnect sid =>
      bool_decide (sid ∈ sockets s)
  | SpawnTick h _ => bool_decide (is_Some (timers s !! h))
  end.

(** States of the running server. *)
Inductive reachable : t -> Prop :=
  | reachable_boot draws : reachable (boot draws)
  | reachable_step s e :
      reachable s -> enabled s e = true -> reachable (fst (handle s e)).

(** Running a list of events, collecting what is sent. *)
Fixpoint run (s : t) (es : list Event) : t * list Emit :=
  match es with
  | [] => (s, [])
  | e :: es' =>
      let '(s1, out1) := handle s e in
      let '(s2, out2) := run s1 es' in
      (s2, out1 ++ out2)
  end.



(** How an event changes the number of live connections. *)
Definition countChange (e : Event) : Z :=
  match e with
  | Connection _ => 1
  | Disconnect _ => -1
  | _ => 0
  end.

(** The timer table the spawn policy prescribes: no timer without
    connections, otherwise the single timer [foodSpawnInterval] refers to,
    with period 2000 for one connection and 500 for more. *)
Definition timerPolicy (s : t) : Prop :=
  let n := connectedPlayers (gameState s) in
  if n =? 0 then timers s = ∅
  else
    exists h,
      foodSpawnInterval s = Some h /\
      timers s = {[ h := if n =? 1 then 2000 else 500 ]}.

(** What holds of every state of the running server. *)
Definition invariant (s : t) : Prop :=
  let gs := gameState s in
  maxFoodItems gs = 100 /\
  Z.of_nat (length (foods gs)) <= 100 /\
  connectedPlayers gs = Z.of_nat (size (sockets s)) /\
  dom (players gs) ⊆ sockets s /\
  timerPolicy s /\
  (forall h, foodSpawnInterval s = Some h -> (h < nextTimer s)%nat).

(** A quiescent point: every live connection has had its [playerJoin]
    processed. *)
Definition quiescent (s : t) : Prop :=
  sockets s ⊆ dom (players (gameState s)).

(** The join handshake window, read off the events themselves: a socket
    enters it when its connection is established and leaves it when its
    [playerJoin] is processed, or when it disconnects before that. *)
Definition handshakeStep (window : gset string) (e : Event) : gset string :=
  match e with
  | Connection sid => {[sid]} ∪ window
  | PlayerJoin sid _ | Disconnect sid => window ∖ {[sid]}
  | _ => window
  end.

(** The sockets inside the window after a list of events from
    start-up. *)
Definition inHandshake (es : list Event) : gset string :=
  fold_left handshakeStep es ∅.

(** The runtime can deliver the events one after the other. *)
Fixpoint deliverable (s : t) (es : list Event) : Prop :=
  match es with
  | [] => True
  | e :: es' => enabled s e = true /\ deliverable (fst (handle s e)) es'
  end.

(** Sample draws and payloads for concrete runs. *)
Definition sampleDraws (i : nat) : FoodDraw :=
  {| draw_now := 1700000000000 + Z.of_nat i;
     draw_suffix := "k3j9x0q2a";
     draw_x := (1 # 2)%Q; draw_y := (1 # 4)%Q; draw_color := (1 # 3)%Q |}.

Definition sampleJoin (playerName : string) : JoinData :=
  {| join_name := playerName; join_x := 1920%Q; join_y := 1080%Q;
     join_radius := 15%Q; join_color := "#3399FF";
     join_eyeColor := "white"; join_pupilColor := "black";
     join_angle := 0%Q;
     join_worldWidth := Some 3840%Q; join_worldHeight := Some 2160%Q |}.

(** One connection that has joined; then a second one. *)
Definition sampleLone : t :=
  fst (handle (fst (handle (boot sampleDraws) (Connection "a")))
         (PlayerJoin "a" (sampleJoin "Ann"))).

Definition samplePair : t :=
  fst (handle (fst (handle sampleLone (Connection "b")))
         (PlayerJoin "b" (sampleJoin "Bob"))).

End Server.

(** ** The local player's life cycle and collisions (js/water-effect.js) *)

Module PlayerLife.

Import JS PlayerFish.
Open Scope Q_scope.

(** [canBeEatenBy(otherFish)]. *)
Definition canBeEatenBy (p : t) (otherRadius : Q) : bool :=
  ltb (radius p * 0.99) otherRadius.

(** [die()]. *)
Definition die (p : t) : t :=
  {| isAlive := false; sizeLevel := sizeLevel p; radius := radius p;
     baseSpeed := baseSpeed p; speed := speed p;
     boosting := boosting p;
     boostDrainRate := boostDrainRate p; score := score p;
     fishEaten := fishEaten p; fishNeededToGrow := fishNeededToGrow p;
     growthProgress := growthProgress p;
     growthAnimation := growthAnimation p |}.

(** [respawn()], without the random new position. *)
Definition respawn (p : t) : t :=
  let oldScore := score p in
  {| isAlive := true; sizeLevel := 1; radius := 15;
     baseSpeed := 2.0; speed := 2.0;
     boosting := false;
     boostDrainRate := boostDrainRate p;
     score := inject_Z (Math_floor (oldScore / 2));
     fishEaten := 0; fishNeededToGrow := 5;
     growthProgress := 0;
     growthAnimation :=
       {| active := false; timer := 0;
          duration := duration (growthAnimation p);
          targetRadius := targetRadius (growthAnimation p);
          startRadius := startRadius (growthAnimation p) |} |}.

(** [reset()], without the new world size and position and without the
    power-up flags: as [respawn()], but the score starts again at 0. *)
Definition reset (p : t) : t :=
  {| isAlive := true; sizeLevel := 1; radius := 15;
     baseSpeed := 2.0; speed := 2.0;
     boosting := false;
     boostDrainRate := boostDrainRate p;
     score := 0;
     fishEaten := 0; fishNeededToGrow := 5;
     growthProgress := 0;
     growthAnimation :=
       {| active := false; timer := 0;
          duration := duration (growthAnimation p);
          targetRadius := targetRadius (growthAnimation p);
          startRadius := startRadius (growthAnimation p) |} |}.

(** The clamp at the end of [update()]:
    [Math.max(margin, Math.min(world - margin, x))] with the fish's radius
    as margin. *)
Definition clampToWorld (margin world x : Q) : Q :=
  Math_max margin (Math_min (world - margin) x).

(** What can happen to the local player: eating something worth [amount],
    the mouse button, a frame's [update()], death, respawn, and the
    [reset()] of a new game.  These are the methods through which the game
    and the input listeners change the player's growth state and score;
    [grow], [shrink], [updateBoost] and [updateGrowthAnimation] run inside
    them. *)
Inductive PlayInput :=
  | Eat (amount : Q)
  | Button (down : bool)
  | FrameUpdate
  | Die
  | Respawn
  | Reset.

Definition playStep (elastic : Q -> Q) (p : t) (i : PlayInput) : t :=
  match i with
  | Eat amount => eatFish amount p
  | Button true => startBoost p
  | Button false => stopBoost p
  | FrameUpdate => update elastic p
  | Die => die p
  | Respawn => respawn p
  | Reset => reset p
  end.

Definition play (elastic : Q -> Q) (inputs : list PlayInput) (p : t) : t :=
  fold_left (playStep elastic) inputs p.

(** An input that eats nothing negative. *)
Definition eatsNonNegative (i : PlayInput) : Prop :=
  match i with
  | Eat amount => 0 <= amount
  | _ => True
  end.

(** The two inputs that assign the score anew: [respawn()] halves it,
    [reset()] clears it. *)
Definition lowersScore (i : PlayInput) : bool :=
  match i with
  | Respawn | Reset => true
  | _ => false
  end.

(** What the growth state of a player satisfies throughout play. *)
Definition playInvariant (p : t) : Prop :=
  (1 <= sizeLevel p)%Z /\
  0 <= fishEaten p /\
  (0 <= fishNeededToGrow p)%Z /\
  (fishEaten p < inject_Z (fishNeededToGrow p) \/
   (fishEaten p == 0 /\ fishNeededToGrow p = 0%Z)) /\
  (0 <= growthProgress p /\ growthProgress p < 1) /\
  (1.5 <= baseSpeed p /\ baseSpeed p <= 3.5) /\
  0 <= boostDrainRate p.

(** The branch [Game.checkCollisions] takes when the local player touches
    an enemy fish: on [PlayerEats] it removes the enemy and calls
    [eatFish()] and [updateScore]; on [PlayerEaten] it calls [die()] and
    returns; on [NoAction] the two bounce off. *)
Inductive Outcome := PlayerEats | PlayerEaten | NoAction.

Definition collideWithEnemy (p : t) (enemyRadius : Q) : Outcome :=
  if canEat p enemyRadius then PlayerEats
  else if canBeEatenBy p enemyRadius then PlayerEaten
  else NoAction.

End PlayerLife.

(** ** [AIPlayer]: the other half of its edibility test *)

Module AIEdibility.

Import JS.
Open Scope Q_scope.

(** [canBeEatenBy(otherPlayer)]. *)
Definition canBeEatenBy (a : AIPlayer.t) (otherRadius : Q) : bool :=
  ltb (AIPlayer.radius a * 1.05) otherRadius.

End AIEdibility.

(** ** Utility functions *)

Module Utils.

Import JS.
Open Scope Q_scope.

(** [random(min, max)], where [r] is the value of [Math.random()]:
    [Math.floor(r * (max - min + 1)) + min]. *)
Definition random (r min max : Q) : Q :=
  inject_Z (Math_floor (r * (max - min + 1))) + min.

End Utils.

(** ** Food positions on the server *)

Module ServerWorld.

Import JS Server.
Open Scope Q_scope.

(** A draw whose three [Math.random()] values lie in [0, 1). *)
Definition drawInRange (d : FoodDraw) : Prop :=
  (0 <= draw_x d /\ draw_x d < 1) /\
  (0 <= draw_y d /\ draw_y d < 1) /\
  (0 <= draw_color d /\ draw_color d < 1).

Definition eventDrawInRange (e : Event) : Prop :=
  match e with
  | SpawnTick _ d => drawInRange d
  | _ => True
  end.

(** Every food lies inside the world as it is now. *)
Definition foodsInWorld (gs : GameState) : Prop :=
  Forall (fun f =>
            (0 <= food_x f /\ food_x f < worldWidth gs) /\
            (0 <= food_y f /\ food_y f < worldHeight gs))
         (foods gs).

End ServerWorld.

(** ** The client's copy of the shared state ([MultiplayerManager]) *)

Module Client.

Import JS.
Open Scope Q_scope.

(** [a || b] on numbers and on strings: the empty string and 0 are
    falsy. *)
Definition orNumber (a b : Q) : Q := if truthy (Some a) then a else b.

Definition orString (a : option string) (b : string) : string :=
  match a with
  | Some s => if String.eqb s "" then b else s
  | None => b
  end.

(** The object [createFoodFromServer] builds. *)
Record Food := mkFood {
  food_id : string;
  food_x : Q;
  food_y : Q;
  food_radius : Q;
  food_value : Q;
  food_color : string
}.

Definition createFoodFromServer (foodData : Server.Food) : Food :=
  {| food_id := Server.food_id foodData;
     food_x := Server.food_x foodData;
     food_y := Server.food_y foodData;
     food_radius := orNumber (Server.food_radius foodData) 5;
     food_value := orNumber (Server.food_value foodData) 1;
     food_color := orString (Server.food_color foodData) "#AAFFAA" |}.

(** The object [createRemotePlayer] builds; its radius and size level are
    the [RemotePlayer.t] of the reconstruction. *)
Record Remote := mkRemote {
  id : string;
  name : string;
  x : Q;
  y : Q;
  body : RemotePlayer.t;
  color : string;
  eyeColor : string;
  pupilColor : string;
  angle : Q;
  score : Q;
  isAlive : bool
}.

Definition createRemotePlayer (playerData : Server.Player) : Remote :=
  {| id := Server.id playerData;
     name := Server.name playerData;
     x := Server.x playerData;
     y := Server.y playerData;
     body :=
       RemotePlayer.createRemotePlayer
         {| RemotePlayer.data_radius := Some (Server.radius playerData);
            RemotePlayer.data_sizeLevel := Some (Server.sizeLevel playerData) |};
     color := orString (Some (Server.color playerData)) "#FF6633";
     eyeColor := orString (Some (Server.eyeColor playerData)) "white";
     pupilColor := orString (Some (Server.pupilColor playerData)) "black";
     angle := orNumber (Server.angle playerData) 0;
     score := orNumber (Server.score playerData) 0;
     isAlive := Server.isAlive playerData |}.

(** The manager's state: its socket's id, the other players and the
    game's food list. *)
Record t := mk {
  socketId : string;
  players : gmap string Remote;
  foods : list Food
}.

(** The radius update shared by the [playerMoved] and [playerRespawned]
    handlers, once the size level has been assigned:
    [if (!playerData.radius && player.sizeLevel)
       player.calculateRadiusFromSizeLevel();
     else player.radius = playerData.radius;]. *)
Definition updateBody (old : RemotePlayer.t) (radius : Q) (sizeLevel : Z)
    : RemotePlayer.t :=
  let b := {| RemotePlayer.radius := RemotePlayer.radius old;
              RemotePlayer.sizeLevel := sizeLevel |} in
  if negb (truthy (Some radius)) && truthyZ (Some sizeLevel)
  then RemotePlayer.calculateRadiusFromSizeLevel b
  else {| RemotePlayer.radius := Some radius;
          RemotePlayer.sizeLevel := sizeLevel |}.

(** ['gameState']. *)
Definition onGameState (gameState : Server.GameState) (c : t) : t :=
  {| socketId := socketId c;
     players :=
       createRemotePlayer <$> delete (socketId c) (Server.players gameState);
     foods := createFoodFromServer <$> Server.foods gameState |}.

(** ['playerJoined']: the object is created, and its radius computed
    once more when the payload carries none. *)
Definition onPlayerJoined (playerData : Server.Player) (c : t) : t :=
  let player := createRemotePlayer playerData in
  let player' :=
    if negb (truthy (Some (Server.radius playerData))) then
      {| id := id player; name := name player;
         x := x player; y := y player;
         body := RemotePlayer.calculateRadiusFromSizeLevel (body player);
         color := color player; eyeColor := eyeColor player;
         pupilColor := pupilColor player;
         angle := angle player; score := score player;
         isAlive := isAlive player |}
    else player in
  {| socketId := socketId c;
     players := <[Server.id playerData := player']> (players c);
     foods := foods c |}.

(** ['playerLeft']. *)
Definition onPlayerLeft (playerId : string) (c : t) : t :=
  match players c !! playerId with
  | Some _ =>
      {| socketId := socketId c;
         players := delete playerId (players c);
         foods := foods c |}
  | None => c
  end.

(** ['playerMoved']. *)
Definition onPlayerMoved (playerData : Server.Player) (c : t) : t :=
  match players c !! Server.id playerData with
  | Some player =>
      let player' :=
        {| id := id player; name := name player;
           x := Server.x playerData; y := Server.y playerData;
           body := updateBody (body player) (Server.radius playerData)
                     (Server.sizeLevel playerData);
           color := color player; eyeColor := eyeColor player;
           pupilColor := pupilColor player;
           angle := Server.angle playerData;
           score := Server.score playerData;
           isAlive := Server.isAlive playerData |} in
      {| socketId := socketId c;
         players := <[Server.id playerData := player']> (players c);
         foods := foods c |}
  | None => c
  end.

(** ['playerDied'].  [this.players] is an object literal as well: under
    an inherited property name without entry the assignment lands on the
    inherited value, outside the manager's players. *)
Definition onPlayerDied (playerId : string) (c : t) : t :=
  match players c !! playerId with
  | Some player =>
      let player' :=
        {| id := id player; name := name player;
           x := x player; y := y player; body := body player;
           color := color player; eyeColor := eyeColor player;
           pupilColor := pupilColor player;
           angle := angle player; score := score player;
           isAlive := false |} in
      {| socketId := socketId c;
         players := <[playerId := player']> (players c);
         foods := foods c |}
  | None => c
  end.

(** ['playerRespawned']. *)
Definition onPlayerRespawned (playerData : Server.Player) (c : t) : t :=
  match players c !! Server.id playerData with
  | Some player =>
      let player' :=
        {| id := id player; name := name player;
           x := Server.x playerData; y := Server.y playerData;
           body := updateBody (body player) (Server.radius playerData)
                     (Server.sizeLevel playerData);
           color := color player; eyeColor := eyeColor player;
           pupilColor := pupilColor player;
           angle := angle player;
           score := Server.score playerData;
           isAlive := true |} in
      {| socketId := socketId c;
         players := <[Server.id playerData := player']> (players c);
         foods := foods c |}
  | None => c
  end.

(** ['foodSpawned']. *)
Definition onFoodSpawned (foodData : Server.Food) (c : t) : t :=
  {| socketId := socketId c;
     players := players c;
     foods := foods c ++ [createFoodFromServer foodData] |}.

(** [this.game.foods.findIndex(food => food.id === foodId)]. *)
Fixpoint findIndex (foodId : string) (fs : list Food) : Z :=
  match fs with
  | [] => (-1)%Z
  | f :: fs' =>
      if String.eqb (food_id f) foodId then 0%Z
      else
        let i := findIndex foodId fs' in
        if (i =? -1)%Z then (-1)%Z else (i + 1)%Z
  end.

(** ['foodRemoved']. *)
Definition onFoodRemoved (foodId : string) (c : t) : t :=
  let foodIndex := findIndex foodId (foods c) in
  if negb (foodIndex =? -1)%Z then
    {| socketId := socketId c;
       players := players c;
       foods := take (Z.to_nat foodIndex) (foods c)
                ++ drop (S (Z.to_nat foodIndex)) (foods c) |}
  else c.

(** The handler a message runs. *)
Definition receive (c : t) (m : Server.Message) : t :=
  match m with
  | Server.MsgGameState gs => onGameState gs c
  | Server.MsgPlayerJoined p => onPlayerJoined p c
  | Server.MsgPlayerMoved p => onPlayerMoved p c
  | Server.MsgFoodSpawned f => onFoodSpawned f c
  | Server.MsgFoodRemoved foodId => onFoodRemoved foodId c
  | Server.MsgPlayerDied playerId => onPlayerDied playerId c
  | Server.MsgPlayerRespawned p => onPlayerRespawned p c
  | Server.MsgPlayerLeft playerId => onPlayerLeft playerId c
  end.

(** Whether an emission reaches the socket [sid]. *)
Definition reaches (sid : string) (e : Server.Emit) : bool :=
  match Server.target e with
  | Server.ToAll => true
  | Server.ToOthers sender => negb (String.eqb sender sid)
  | Server.ToSocket sender => String.eqb sender sid
  end.

(** The client handles, in order, the emissions that reach it. *)
Definition deliver (c : t) (out : list Server.Emit) : t :=
  fold_left
    (fun c e => if reaches (socketId c) e then receive c (Server.message e)
                else c)
    out c.

(** The manager before its socket has received anything. *)
Definition connecting (sid : string) : t :=
  {| socketId := sid; players := ∅; foods := [] |}.

(** A remote player object agrees with a registry entry: the same id,
    position, score and life status. *)
Definition agrees (r : Remote) (p : Server.Player) : Prop :=
  id r = Server.id p /\ x r = Server.x p /\ y r = Server.y p /\
  score r == Server.score p /\ isAlive r = Server.isAlive p.

(** The client's copy mirrors a food list and a registry: the same foods
    in the same order, the same players but for the client's own, each
    agreeing with its registry entry. *)
Definition mirrors (fs : list Server.Food) (ps : gmap string Server.Player)
    (c : t) : Prop :=
  foods c = createFoodFromServer <$> fs /\
  dom (players c) = dom ps ∖ {[socketId c]} /\
  forall pid r p,
    players c !! pid = Some r -> ps !! pid = Some p -> agrees r p.



End Client.

(** ** [ObjectPool] (js/object-pool.js) *)

Module ObjectPool.

Import JS.

(** The pool's array, and how many objects the factory has made so far:
    the objects a factory returns are not a function of the pool, so the
    [n]-th call of [factory()] is the input [factory n]. *)
Record t (A : Type) := mk {
  pool : list A;
  made : nat
}.

Arguments mk {A} _ _.
Arguments pool {A} _.
Arguments made {A} _.

(** [for (let i = 0; i < count; i++) this.pool.push(this.factory())]:
    the body runs [ceil(count)] times, not at all for [count <= 0]. *)
Fixpoint pushMade {A} (factory : nat -> A) (n : nat) (p : t A) : t A :=
  match n with
  | O => p
  | S n' =>
      pushMade factory n'
        {| pool := pool p ++ [factory (made p)]; made := S (made p) |}
  end.

Definition expand {A} (factory : nat -> A) (count : Q) (p : t A) : t A :=
  pushMade factory (Z.to_nat (Qceiling count)) p.

(** The constructor. *)
Definition new {A} (factory : nat -> A) (initialSize : Q) : t A :=
  expand factory initialSize {| pool := []; made := O |}.

(** [this.pool.pop()]: the last element, [None] for [undefined]. *)
Definition pop {A} (p : t A) : option A * t A :=
  match reverse (pool p) with
  | [] => (None, p)
  | x :: rest => (Some x, {| pool := reverse rest; made := made p |})
  end.

(** [get()]. *)
Definition get {A} (factory : nat -> A) (p : t A) : option A * t A :=
  let p1 := if (length (pool p) =? 0)%nat then expand factory 10 p else p in
  pop p1.

(** [release(object)], where [reset] is what [this.reset] does to the
    object in this call. *)
Definition release {A} (reset : A -> A) (object : A) (p : t A) : t A :=
  {| pool := pool p ++ [reset object]; made := made p |}.

(** [size()]. *)
Definition size {A} (p : t A) : nat := length (pool p).

(** [clear()]. *)
Definition clear {A} (p : t A) : t A := {| pool := []; made := made p |}.

End ObjectPool.

(** ** [Food] (js/ai-player.js) *)

Module Food.

Import JS.
Open Scope Q_scope.

(** The fields of a [Food] that the manager and the collisions read; the
    pulse animation and the colour are left out.  A food has no [id]
    until [reset] gives it one. *)
Record t := mk {
  id : option string;
  worldWidth : Q;
  worldHeight : Q;
  x : Q;
  y : Q;
  radius : Q;
  value : Q
}.

(** What the constructor and [reset] draw: three values of
    [Math.random()] for the position and the radius, and for the id the
    clock and the base-36 digits. *)
Record Draw := mkDraw {
  draw_x : Q;
  draw_y : Q;
  draw_radius : Q;
  draw_now : Z;
  draw_suffix : string
}.

(** [a || b] where [a] may be [undefined]. *)
Definition orElse (a : option Q) (b : Q) : Q :=
  match a with
  | Some q => if truthy a then q else b
  | None => b
  end.

(** [new Food(canvas, worldWidth, worldHeight)]; [w] and [h] are the two
    dimensions passed. *)
Definition new (d : Draw) (canvasWidth canvasHeight : Q) (w h : option Q) : t :=
  let ww := orElse w canvasWidth in
  let wh := orElse h canvasHeight in
  let r := Utils.random (draw_radius d) 3 6 in
  {| id := None;
     worldWidth := ww;
     worldHeight := wh;
     x := Utils.random (draw_x d) (ww * 0.1) (ww * 0.9);
     y := Utils.random (draw_y d) (wh * 0.1) (wh * 0.9);
     radius := r;
     value := r |}.

(** [food.reset(worldWidth, worldHeight)]: a dimension that is not truthy
    leaves the food's own. *)
Definition reset (d : Draw) (w h : option Q) (f : t) : t :=
  let ww := orElse w (worldWidth f) in
  let wh := orElse h (worldHeight f) in
  let r := Utils.random (draw_radius d) 3 6 in
  {| id := Some (pretty (draw_now d) +:+ draw_suffix d)%string;
     worldWidth := ww;
     worldHeight := wh;
     x := Utils.random (draw_x d) (ww * 0.1) (ww * 0.9);
     y := Utils.random (draw_y d) (wh * 0.1) (wh * 0.9);
     radius := r;
     value := r |}.

(** The three values of [Math.random()] of a draw lie in [0, 1). *)
Definition drawInUnit (d : Draw) : Prop :=
  (0 <= draw_x d /\ draw_x d < 1) /\
  (0 <= draw_y d /\ draw_y d < 1) /\
  (0 <= draw_radius d /\ draw_radius d < 1).

(** What the constructor and [reset] promise of a food, in terms of the
    world the food itself records. *)
Definition wellPlaced (f : t) : Prop :=
  (exists k : Z, radius f == inject_Z k /\ (3 <= k <= 6)%Z) /\
  value f = radius f /\
  (worldWidth f * 0.1 <= x f /\ x f < worldWidth f * 0.9 + 1) /\
  (worldHeight f * 0.1 <= y f /\ y f < worldHeight f * 0.9 + 1).

(** A dimension passed to the constructor or to [reset] that is not
    negative. *)
Definition notNegative (a : option Q) : Prop :=
  match a with
  | Some q => 0 <= q
  | None => True
  end.

End Food.

(** ** [FoodManager] (js/ai-player.js) *)

Module FoodManager.

Import JS.
Open Scope Q_scope.

Record t := mk {
  canvasWidth : Q;
  canvasHeight : Q;
  worldWidth : Q;
  worldHeight : Q;
  maxFood : Q;
  foods : list Food.t;
  foodPool : ObjectPool.t Food.t
}.

(** The factory and reset functions the constructor hands to the pool;
    [draws n] is what the [n]-th food made draws. *)
Definition factory (draws : nat -> Food.Draw) (m : t) (n : nat) : Food.t :=
  Food.new (draws n) (canvasWidth m) (canvasHeight m)
    (Some (worldWidth m)) (Some (worldHeight m)).

Definition reset (d : Food.Draw) (m : t) (food : Food.t) : Food.t :=
  Food.reset d (Some (worldWidth m)) (Some (worldHeight m)) food.

(** The constructor ([maxFood = 100] by default). *)
Definition new (draws : nat -> Food.Draw)
    (canvasWidth canvasHeight worldWidth worldHeight maxFood : Q) : t :=
  {| canvasWidth := canvasWidth; canvasHeight := canvasHeight;
     worldWidth := worldWidth; worldHeight := worldHeight;
     maxFood := maxFood; foods := [];
     foodPool :=
       ObjectPool.new
         (fun n =>
            Food.new (draws n) canvasWidth canvasHeight
              (Some worldWidth) (Some worldHeight))
         (maxFood / 2) |}.

Definition set_foods (fs : list Food.t) (pool : ObjectPool.t Food.t) (m : t) : t :=
  {| canvasWidth := canvasWidth m; canvasHeight := canvasHeight m;
     worldWidth := worldWidth m; worldHeight := worldHeight m;
     maxFood := maxFood m; foods := fs; foodPool := pool |}.

(** [spawnFood()]: the food spawned, [None] for [null].  The pool always
    hands out an object; were it [undefined], the code would push it
    as it is. *)
Definition spawnFood (draws : nat -> Food.Draw) (m : t) : option Food.t * t :=
  if geb (inject_Z (Z.of_nat (length (foods m)))) (maxFood m) then (None, m)
  else
    let '(food, pool') := ObjectPool.get (factory draws m) (foodPool m) in
    match food with
    | Some f => (Some f, set_foods (foods m ++ [f]) pool' m)
    | None => (None, set_foods (foods m) pool' m)
    end.

(** [removeFood(index)]; [d] is what the released food's [reset]
    draws. *)
Definition removeFood (d : Food.Draw) (index : Z) (m : t) : t :=
  if (0 <=? index)%Z && (index <? Z.of_nat (length (foods m)))%Z then
    match foods m !! Z.to_nat index with
    | Some food =>
        set_foods
          (take (Z.to_nat index) (foods m)
           ++ drop (S (Z.to_nat index)) (foods m))
          (ObjectPool.release (reset d m) food (foodPool m))
          m
    | None => m
    end
  else m.

(** [this.foods.findIndex(food => food.id === id)]. *)
Fixpoint findIndex (foodId : string) (fs : list Food.t) : Z :=
  match fs with
  | [] => (-1)%Z
  | f :: fs' =>
      if bool_decide (Food.id f = Some foodId) then 0%Z
      else
        let i := findIndex foodId fs' in
        if (i =? -1)%Z then (-1)%Z else (i + 1)%Z
  end.

(** [removeFoodById(id)]. *)
Definition removeFoodById (d : Food.Draw) (foodId : string) (m : t) : bool * t :=
  let index := findIndex foodId (foods m) in
  if negb (index =? -1)%Z then (true, removeFood d index m)
  else (false, m).

(** [clear()]; the [i]-th food released draws [ds i]. *)
Definition clear (ds : nat -> Food.Draw) (m : t) : t :=
  set_foods []
    (fold_left
       (fun p '(i, food) => ObjectPool.release (reset (ds i) m) food p)
       (imap (fun i food => (i, food)) (foods m))
       (foodPool m))
    m.

(** The number of [Food] objects the manager holds, active or pooled. *)
Definition held (m : t) : nat :=
  (length (foods m) + ObjectPool.size (foodPool m))%nat.

(** [n] calls of [spawnFood()], as [Game.spawnInitialFood] makes them. *)
Definition spawnMany (draws : nat -> Food.Draw) (n : nat) (m : t) : t :=
  Nat.iter n (fun m' => snd (spawnFood draws m')) m.

(** Every object the manager holds, active or pooled, is without id. *)
Definition noIds (m : t) : Prop :=
  Forall (fun f => Food.id f = None) (foods m) /\
  Forall (fun f => Food.id f = None) (ObjectPool.pool (foodPool m)).

End FoodManager.

(** ** [Leaderboard] (js/leaderboard.js) *)

Module Leaderboard.

Import JS.
Open Scope Q_scope.

(** The tracked players are objects, told apart by identity
    ([includes], [p === player]): a player is its reference here, and
    [score] reads the [score] field the object has when [update()] runs. *)
Definition Ref := nat.

Record t := mk {
  players : list Ref
}.

Definition maxEntries : Z := 10.

(** The constructor, as far as the tracked players go. *)
Definition new : t := {| players := [] |}.

(** [this.players.includes(player)]. *)
Definition includes (player : Ref) (l : list Ref) : bool :=
  existsb (Nat.eqb player) l.

(** [addPlayer(player)]. *)
Definition addPlayer (player : Ref) (lb : t) : t :=
  if negb (includes player (players lb)) then
    {| players := players lb ++ [player] |}
  else lb.

(** [this.players.findIndex(p => p === player)]. *)
Fixpoint findIndex (player : Ref) (l : list Ref) : Z :=
  match l with
  | [] => (-1)%Z
  | p :: l' =>
      if Nat.eqb p player then 0%Z
      else
        let i := findIndex player l' in
        if (i =? -1)%Z then (-1)%Z else (i + 1)%Z
  end.

(** [removePlayer(player)]. *)
Definition removePlayer (player : Ref) (lb : t) : t :=
  let index := findIndex player (players lb) in
  if negb (index =? -1)%Z then
    {| players := take (Z.to_nat index) (players lb)
                  ++ drop (S (Z.to_nat index)) (players lb) |}
  else lb.

(** [array.sort((a, b) => b.score - a.score)].  The sort is stable and
    on numbers the comparator is consistent, so the result is the one
    arrangement by descending score that keeps ties in their order; it is
    computed here by inserting each element, from the last to the first,
    before the first element it does not have to follow. *)
Fixpoint sortInsert {A} (score : A -> Q) (a : A) (l : list A) : list A :=
  match l with
  | [] => [a]
  | b :: l' =>
      if ltb (score a) (score b) then b :: sortInsert score a l'
      else a :: b :: l'
  end.

Definition sort {A} (score : A -> Q) (l : list A) : list A :=
  foldr (sortInsert score) [] l.

(** [update()]. *)
Definition update (score : Ref -> Q) (lb : t) : t :=
  {| players := sort score (players lb) |}.

(** [array.slice(0, count)] for a whole [count]: a negative one counts
    from the end. *)
Definition slice0 {A} (count : Z) (l : list A) : list A :=
  if (count <? 0)%Z then
    take (Z.to_nat (Z.max (Z.of_nat (length l) + count) 0)) l
  else take (Z.to_nat count) l.

(** [getTopPlayers(count)]. *)
Definition getTopPlayers (count : Z) (lb : t) : list Ref :=
  slice0 count (players lb).

(** [getPlayerRank(player)]. *)
Definition getPlayerRank (player : Ref) (lb : t) : Z :=
  (findIndex player (players lb) + 1)%Z.

(** An entry of the stored high scores. *)
Record HighScore := mkHighScore {
  hs_name : string;
  hs_score : Q;
  hs_size : Q;
  hs_date : string
}.

(** The item of [localStorage] under the board's key: [None] while
    nothing is stored, else the array whose JSON text is stored. *)
Definition Storage := option (list HighScore).

(** [loadHighScores()]. *)
Definition loadHighScores (st : Storage) : list HighScore :=
  match st with
  | Some scores => scores
  | None => []
  end.

(** [saveHighScore(name, score, size)], where [date] is the text of
    [new Date().toISOString()]: the scores returned and the storage. *)
Definition saveHighScore (name : string) (score size : Q) (date : string)
    (st : Storage) : list HighScore * Storage :=
  let highScores :=
    loadHighScores st
    ++ [{| hs_name := name; hs_score := score; hs_size := size;
           hs_date := date |}] in
  let sorted := sort hs_score highScores in
  let topScores := slice0 maxEntries sorted in
  (topScores, Some topScores).

(** [isHighScore(score)].  The last entry exists when the list has
    [maxEntries] entries or more. *)
Definition isHighScore (score : Q) (st : Storage) : bool :=
  let highScores := loadHighScores st in
  if (Z.of_nat (length highScores) <? maxEntries)%Z then true
  else
    match last highScores with
    | Some lowest => ltb (hs_score lowest) score
    | None => false
    end.

(** The calls that change the tracked players, and their effect. *)
Inductive Call :=
  | AddPlayer (player : Ref)
  | RemovePlayer (player : Ref)
  | Update (score : Ref -> Q).

Definition call (c : Call) (lb : t) : t :=
  match c with
  | AddPlayer p => addPlayer p lb
  | RemovePlayer p => removePlayer p lb
  | Update score => update score lb
  end.

Definition calls (cs : list Call) (lb : t) : t :=
  fold_left (fun lb' c => call c lb') cs lb.

(** Descending by score. *)
Definition descending {A} (score : A -> Q) : list A -> Prop :=
  StronglySorted (fun a b => score b <= score a).

(** What [saveHighScore] leaves in the storage. *)
Definition stored (st : Storage) : Prop :=
  (length (loadHighScores st) <= 10)%nat /\
  descending hs_score (loadHighScores st).

End Leaderboard.

(** ** Sending the player's updates (MultiplayerManager) *)

Module Sender.

Import JS.
Open Scope Z_scope.

(** The fields of [game.player] that an update carries. *)
Record LocalPlayer := mkLocal {
  lp_x : Q;
  lp_y : Q;
  lp_radius : Q;
  lp_angle : Q;
  lp_score : Q;
  lp_sizeLevel : Z;
  lp_isAlive : bool
}.

(** [game.player] ([None] for [null]) and [game.score]. *)
Record Game := mkGame {
  player : option LocalPlayer;
  score : Q
}.

(** The manager's fields that sending reads and writes. *)
Record t := mk {
  connected : bool;
  lastUpdateTime : Z;
  updateInterval : Z
}.

(** The constructor. *)
Definition new : t :=
  {| connected := false; lastUpdateTime := 0; updateInterval := 50 |}.

(** [socket.on('connect')] and the three handlers that clear
    [connected]. *)
Definition onConnect (m : t) : t :=
  {| connected := true; lastUpdateTime := lastUpdateTime m;
     updateInterval := updateInterval m |}.

Definition onDisconnect (m : t) : t :=
  {| connected := false; lastUpdateTime := lastUpdateTime m;
     updateInterval := updateInterval m |}.

(** [sendPlayerUpdate()], where [now] is the value of [Date.now()]: the
    manager, the game and the ['playerUpdate'] message emitted, if any. *)
Definition sendPlayerUpdate (now : Z) (g : Game) (m : t)
  : t * Game * option Server.UpdateData :=
  match player g with
  | None => (m, g, None)
  | Some p =>
      if negb (connected m) || negb (lp_isAlive p) then (m, g, None)
      else if now - lastUpdateTime m <? updateInterval m then (m, g, None)
      else
        let m' := {| connected := connected m; lastUpdateTime := now;
                     updateInterval := updateInterval m |} in
        let p' := {| lp_x := lp_x p; lp_y := lp_y p; lp_radius := lp_radius p;
                     lp_angle := lp_angle p; lp_score := score g;
                     lp_sizeLevel := lp_sizeLevel p;
                     lp_isAlive := lp_isAlive p |} in
        (m', {| player := Some p'; score := score g |},
         Some {| Server.upd_x := lp_x p'; Server.upd_y := lp_y p';
                 Server.upd_radius := lp_radius p';
                 Server.upd_angle := lp_angle p';
                 Server.upd_score := lp_score p';
                 Server.upd_sizeLevel := lp_sizeLevel p';
                 Server.upd_isAlive := lp_isAlive p' |})
  end.

(** What happens to the manager: the socket connects or disconnects, or
    the game loop calls [sendPlayerUpdate] at some time with the game as
    it then is. *)
Inductive Event :=
  | Connect
  | Disconnect
  | Frame (now : Z) (g : Game).

(** The manager after a run of events, and the updates it emitted with
    the time of each, oldest first. *)
Fixpoint run (evs : list Event) (m : t) : t * list (Z * Server.UpdateData) :=
  match evs with
  | [] => (m, [])
  | Connect :: evs' => run evs' (onConnect m)
  | Disconnect :: evs' => run evs' (onDisconnect m)
  | Frame now g :: evs' =>
      let '(m', _, out) := sendPlayerUpdate now g m in
      let '(m'', outs) := run evs' m' in
      (m'', match out with
            | Some u => (now, u) :: outs
            | None => outs
            end)
  end.

End Sender.
(** * Proofs *)

Import JS.
Open Scope Q_scope.

(** ** Numbers *)

Lemma ltb_spec a b : ltb a b = true <-> a < b.
Proof.
  unfold ltb. rewrite negb_true_iff.
  split; intros H.
  - apply Qnot_le_lt. intros Hle. apply Qle_bool_iff in Hle. congruence.
  - destruct (Qle_bool b a) eqn:E; [|reflexivity].
    apply Qle_bool_iff in E. lra.
Qed.

Lemma ltb_false a b : ltb a b = false <-> b <= a.
Proof.
  unfold ltb. rewrite negb_false_iff. apply Qle_bool_iff.
Qed.

Lemma geb_spec a b : geb a b = true <-> b <= a.
Proof. apply Qle_bool_iff. Qed.

Lemma Math_max_lower a b : a <= Math_max a b.
Proof.
  unfold Math_max. destruct (Qle_bool a b) eqn:E.
  - now apply Qle_bool_iff. 
  - lra.
Qed.

Lemma floor_grow f : Math_floor (inject_Z f * 1.5) = (3 * f / 2)%Z.
Proof.
  unfold Math_floor. cbn.
  replace (f * 15)%Z with ((3 * f) * 5)%Z by lia.
  change (Z.pos (1 * 10)) with (2 * 5)%Z.
  apply Z.div_mul_cancel_r; lia.
Qed.

Lemma floor_shrink f : Math_floor (inject_Z f / 1.5) = (2 * f / 3)%Z.
Proof.
  unfold Math_floor. cbn.
  replace (f * 10)%Z with ((2 * f) * 5)%Z by lia.
  change (Z.pos (1 * 15)) with (3 * 5)%Z.
  apply Z.div_mul_cancel_r; lia.
Qed.

Lemma floor_roundtrip f : (2 * (3 * f / 2) / 3 = f - f mod 2)%Z.
Proof.
  pose proof (Z.div_mod f 2 ltac:(lia)) as Hd.
  pose proof (Z.mod_pos_bound f 2 ltac:(lia)) as Hb.
  set (k := (f / 2)%Z) in *. set (r := (f mod 2)%Z) in *.
  assert (Hr : r = 0%Z \/ r = 1%Z) by lia.
  destruct Hr as [Hr|Hr]; rewrite Hr in *.
  - replace (3 * f)%Z with ((3 * k) * 2)%Z by lia. rewrite Z.div_mul by lia.
    replace (2 * (3 * k))%Z with ((2 * k) * 3)%Z by lia. rewrite Z.div_mul by lia. lia.
  - replace (3 * f)%Z with (1 + (3 * k + 1) * 2)%Z by lia.
    rewrite Z.div_add by lia. change (1 / 2)%Z with 0%Z.
    replace (2 * (0 + (3 * k + 1)))%Z with (2 + (2 * k) * 3)%Z by lia.
    rewrite Z.div_add by lia. change (2 / 3)%Z with 0%Z. lia.
Qed.

(** ** The growth curve in the code *)

Section GrowthCurve.

Import PlayerFish.

(** Small cases of the curve the specification gives. *)
Example radiusForLevel_scenario :
  Spec.radiusForLevel 1 = 15%Z /\ Spec.radiusForLevel 2 = 22%Z /\
  Spec.radiusForLevel 3 = 29%Z.
Proof. repeat split; reflexivity. Qed.

Lemma sumDelta_snoc n i :
  Spec.sumDelta (S n) i
  = (Spec.sumDelta n i + Spec.delta (i + Z.of_nat n))%Z.
Proof.
  revert i. induction n as [|n IH]; intros i.
  - cbn [Spec.sumDelta]. replace (i + Z.of_nat 0)%Z with i by lia. lia.
  - change (Spec.sumDelta (S (S n)) i)
      with (Spec.delta i + Spec.sumDelta (S n) (i + 1))%Z.
    rewrite IH. cbn [Spec.sumDelta].
    replace (i + 1 + Z.of_nat n)%Z with (i + Z.of_nat (S n))%Z by lia. lia.
Qed.

Lemma delta_pos i : (0 <= i -> 5 <= Spec.delta i)%Z.
Proof.
  intros Hi. unfold Spec.delta.
  pose proof (Z.div_pos i 2 Hi ltac:(lia)). lia.
Qed.

(** Entering level [L + 1] adds [delta (L + 1)]. *)
Lemma radiusForLevel_succ L :
  (1 <= L)%Z ->
  Spec.radiusForLevel (L + 1) = (Spec.radiusForLevel L + Spec.delta (L + 1))%Z.
Proof.
  intros HL. unfold Spec.radiusForLevel.
  replace (Z.to_nat (L + 1 - 1)) with (S (Z.to_nat (L - 1))) by lia.
  rewrite sumDelta_snoc.
  replace (2 + Z.of_nat (Z.to_nat (L - 1)))%Z with (L + 1)%Z by lia. lia.
Qed.

(** The specification's curve is strictly increasing. *)
Lemma radiusForLevel_increasing L :
  (1 <= L)%Z -> (Spec.radiusForLevel L < Spec.radiusForLevel (L + 1))%Z.
Proof.
  intros HL. rewrite radiusForLevel_succ by assumption.
  pose proof (delta_pos (L + 1)). lia.
Qed.

(** One frame of the animation leaves everything but the radius, the
    timer and the [active] flag alone. *)
Lemma updateGrowthAnimation_frame elastic p :
  let q := updateGrowthAnimation elastic p in
  sizeLevel q = sizeLevel p /\
  fishNeededToGrow q = fishNeededToGrow p /\
  timer (growthAnimation q) = (timer (growthAnimation p) + 1)%Z /\
  duration (growthAnimation q) = duration (growthAnimation p) /\
  targetRadius (growthAnimation q) = targetRadius (growthAnimation p).
Proof. cbn. repeat split. Qed.

Lemma animate_succ elastic n p :
  animate elastic (S n) p
  = updateGrowthAnimation elastic (animate elastic n p).
Proof. reflexivity. Qed.

Lemma animate_frames elastic n p :
  let q := animate elastic n p in
  sizeLevel q = sizeLevel p /\
  fishNeededToGrow q = fishNeededToGrow p /\
  timer (growthAnimation q) = (timer (growthAnimation p) + Z.of_nat n)%Z /\
  duration (growthAnimation q) = duration (growthAnimation p) /\
  targetRadius (growthAnimation q) = targetRadius (growthAnimation p).
Proof.
  induction n as [|n IH].
  - cbn. repeat split. lia.
  - unfold animate in *. cbn zeta in *.
    destruct IH as (H1 & H2 & H3 & H4 & H5).
    destruct (updateGrowthAnimation_frame elastic
                (Nat.iter n (updateGrowthAnimation elastic) p))
      as (G1 & G2 & G3 & G4 & G5).
    cbn zeta in G1, G2, G3, G4, G5.
    change (Nat.iter (S n) (updateGrowthAnimation elastic) p)
      with (updateGrowthAnimation elastic
              (Nat.iter n (updateGrowthAnimation elastic) p)).
    repeat split; try congruence.
    rewrite G3, H3. lia.
Qed.

(** The frame on which the timer reaches the duration assigns the target
    radius and switches the animation off. *)
Lemma updateGrowthAnimation_last elastic p :
  duration (growthAnimation p) = 60%Z ->
  timer (growthAnimation p) = 59%Z ->
  let q := updateGrowthAnimation elastic p in
  radius q = targetRadius (growthAnimation p) /\
  active (growthAnimation q) = false.
Proof.
  intros Hd Ht. unfold updateGrowthAnimation. cbn zeta. cbn [radius active growthAnimation].
  rewrite Hd, Ht. split; reflexivity.
Qed.

(** Sixty frames after a level-up the radius is the target that [grow]
    computed, whatever the easing curve does in between. *)
Lemma levelUp_radius elastic p :
  duration (growthAnimation p) = 60%Z ->
  let q := levelUp elastic p in
  radius q = radius p + inject_Z (Spec.delta (sizeLevel p + 1)) /\
  sizeLevel q = (sizeLevel p + 1)%Z /\
  duration (growthAnimation q) = 60%Z /\
  active (growthAnimation q) = false.
Proof.
  intros Hd. unfold levelUp.
  rewrite (animate_succ elastic 59 (grow 1 p)).
  destruct (animate_frames elastic 59 (grow 1 p)) as (H1 & H2 & H3 & H4 & H5).
  cbn [grow growthAnimation timer duration targetRadius sizeLevel] in H1, H3, H4, H5.
  destruct (updateGrowthAnimation_last elastic (animate elastic 59 (grow 1 p)))
    as [R A].
  { rewrite H4. exact Hd. }
  { rewrite H3. reflexivity. }
  destruct (updateGrowthAnimation_frame elastic (animate elastic 59 (grow 1 p)))
    as (G1 & G2 & G3 & G4 & G5).
  cbn zeta. rewrite R, H5, G1, H1, G4, H4. repeat split; try assumption.
  unfold Spec.delta.
  replace (1 * (5 + (sizeLevel p + 1) / 2 * 2))%Z
    with (5 + (sizeLevel p + 1) / 2 * 2)%Z by lia.
  reflexivity.
Qed.

(** The local player's path follows the specification's curve: [n]
    level-ups from a new player, each animated to its end, give level
    [1 + n] and its radius. *)
Lemma player_radius_follows_curve elastic n :
  let q := Nat.iter n (levelUp elastic) PlayerFish.new in
  sizeLevel q = (1 + Z.of_nat n)%Z /\
  duration (growthAnimation q) = 60%Z /\
  radius q == inject_Z (Spec.radiusForLevel (1 + Z.of_nat n)).
Proof.
  induction n as [|n IH].
  - cbn. repeat split.
  - cbn zeta in *. rewrite Nat.iter_succ. destruct IH as (HL & HD & HR).
    destruct (levelUp_radius elastic _ HD) as (R & L & D & _).
    rewrite R, L, HL, HR. repeat split; [lia | assumption |].
    replace (1 + Z.of_nat (S n))%Z with ((1 + Z.of_nat n) + 1)%Z by lia.
    rewrite radiusForLevel_succ by lia.
    rewrite inject_Z_plus. reflexivity.
Qed.

(** The reconstruction loop adds [delta i] for [i] from 1 to
    [sizeLevel - 1]: one step behind the curve. *)
Lemma growthLoop_sum n i base :
  growthLoop n i base == base + inject_Z (Spec.sumDelta n i).
Proof.
  revert i base. induction n as [|n IH]; intros i base.
  - cbn. ring.
  - cbn [growthLoop Spec.sumDelta]. rewrite IH.
    rewrite (inject_Z_plus (Spec.delta i)). unfold Spec.delta. ring.
Qed.

Lemma sumDelta_shift n :
  (Spec.sumDelta (S n) 1 + Spec.delta (2 + Z.of_nat n)
   = 5 + Spec.sumDelta (S n) 2)%Z.
Proof.
  rewrite (sumDelta_snoc n 2).
  change (Spec.sumDelta (S n) 1)
    with (Spec.delta 1 + Spec.sumDelta n (1 + 1))%Z.
  change (Spec.delta 1) with 5%Z. change (1 + 1)%Z with 2%Z. lia.
Qed.

Lemma radiusLoop_lags base L :
  (2 <= L)%Z ->
  radiusLoop base L + inject_Z (Spec.delta L)
  == base + inject_Z (Spec.radiusForLevel L - 10).
Proof.
  intros HL. unfold radiusLoop, Spec.radiusForLevel.
  rewrite growthLoop_sum.
  replace (Z.to_nat (L - 1)) with (S (Z.to_nat (L - 2))) by lia.
  pose proof (sumDelta_shift (Z.to_nat (L - 2))) as E.
  replace (2 + Z.of_nat (Z.to_nat (L - 2)))%Z with L in E by lia.
  replace (15 + Spec.sumDelta (S (Z.to_nat (L - 2))) 2 - 10)%Z
    with (Spec.sumDelta (S (Z.to_nat (L - 2))) 1 + Spec.delta L)%Z by lia.
  rewrite inject_Z_plus. ring.
Qed.

End GrowthCurve.

(** ** Radius from a size level: the components compared *)

Section RadiusFromLevel.

Import PlayerFish.

(** C1.  The specification asks that the local player's level-up, the
    remote-player reconstruction and enemy construction all compute the
    radius of the growth curve (15, 22, 29, ...).  At size level 2 they do
    not: the local player reaches radius 22, as the curve says, while
    [calculateRadiusFromSizeLevel] gives 20, [EnemyFish] gives 15 (here the
    enemy spawned for a level-3 player with roll 0.5 and draw 1, which has
    size level 2) and the [AIPlayer] constructor gives 20.  The loops start
    at [i = 1] where [grow] uses the level being entered, and [EnemyFish]
    starts from base 10. *)
Theorem radius_from_level_2_disagrees (elastic : Q -> Q) :
  Spec.radiusForLevel 2 = 22%Z /\
  (sizeLevel (levelUp elastic new) = 2%Z /\
   radius (levelUp elastic new) == 22) /\
  RemotePlayer.createRemotePlayer
    {| RemotePlayer.data_radius := None;
       RemotePlayer.data_sizeLevel := Some 2%Z |}
  = {| RemotePlayer.radius := Some 20; RemotePlayer.sizeLevel := 2 |} /\
  EnemyFish.determineSizeRelativeToPlayer 0.5 1 3
  = {| EnemyFish.sizeLevel := 2; EnemyFish.radius := 15 |} /\
  AIPlayer.new (Some 2%Z) 1
  = {| AIPlayer.sizeLevel := 2; AIPlayer.radius := 20 |}.
Proof.
  split; [reflexivity|]. split.
  - destruct (levelUp_radius elastic new eq_refl) as (R & L & _).
    rewrite R, L. split; reflexivity.
  - repeat split; reflexivity.
Qed.

(** For every level from 2 on, the reconstruction with base 15 stays
    below the curve by [2 * floor(L / 2)]. *)
Lemma reconstruction_below_curve L :
  (2 <= L)%Z ->
  radiusLoop 15 L + inject_Z (2 * (L / 2))
  == inject_Z (Spec.radiusForLevel L).
Proof.
  intros HL. unfold radiusLoop, Spec.radiusForLevel.
  rewrite growthLoop_sum.
  replace (Z.to_nat (L - 1)) with (S (Z.to_nat (L - 2))) by lia.
  pose proof (sumDelta_shift (Z.to_nat (L - 2))) as E.
  replace (2 + Z.of_nat (Z.to_nat (L - 2)))%Z with L in E by lia.
  unfold Spec.delta in E.
  replace (15 + Spec.sumDelta (S (Z.to_nat (L - 2))) 2)%Z
    with (15 + (Spec.sumDelta (S (Z.to_nat (L - 2))) 1 + 2 * (L / 2)))%Z
    by lia.
  rewrite !inject_Z_plus. change (inject_Z 15) with 15. ring.
Qed.

End RadiusFromLevel.

(** ** Level-up followed by shrink *)

Section RoundTrip.

Import PlayerFish.

(** What [shrink] does to the player it is given, when the level allows. *)
Lemma shrink_fields p :
  (1 < sizeLevel p)%Z ->
  let q := snd (shrink p) in
  fst (shrink p) = true /\
  sizeLevel q = (sizeLevel p - 1)%Z /\
  radius q = radius p - inject_Z (5 + (sizeLevel p - 1) / 2 * 2) /\
  fishNeededToGrow q = (2 * fishNeededToGrow p / 3)%Z /\
  fishEaten q = fishEaten p /\
  growthProgress q = growthProgress p /\
  boosting q = boosting p.
Proof.
  intros HL. unfold shrink.
  destruct (sizeLevel p <=? 1)%Z eqn:E; [apply Z.leb_le in E; lia|].
  cbn [fst snd]. cbn zeta.
  cbn [sizeLevel radius fishNeededToGrow fishEaten growthProgress boosting].
  rewrite floor_shrink. repeat split.
Qed.

Lemma shrink_at_floor p :
  (sizeLevel p <= 1)%Z -> shrink p = (false, p).
Proof.
  intros HL. unfold shrink.
  destruct (sizeLevel p <=? 1)%Z eqn:E; [reflexivity|].
  apply Z.leb_gt in E. lia.
Qed.

(** C2, as stated, fails on a new player: level-up then shrink leaves
    [fishNeededToGrow] at 4 where it was 5 (and the radius at 10 where it
    was 15). *)
Lemma grow_shrink_roundtrip_fails :
  let p' := snd (shrink (grow 1 new)) in
  ~ (sizeLevel p' = sizeLevel new /\
     radius p' == radius new /\
     fishNeededToGrow p' = fishNeededToGrow new).
Proof.
  cbn zeta. intros (_ & _ & H). vm_compute in H. discriminate H.
Qed.

(** C2, amended.  From any level [L >= 1], level-up then shrink succeeds
    and returns to level [L]; [fishNeededToGrow] is restored exactly when
    it is even and is one less when it is odd, because the two floors do
    not cancel. *)
Theorem grow_shrink_roundtrip p :
  (1 <= sizeLevel p)%Z ->
  let p' := snd (shrink (grow 1 p)) in
  fst (shrink (grow 1 p)) = true /\
  sizeLevel p' = sizeLevel p /\
  fishNeededToGrow p' = (fishNeededToGrow p - fishNeededToGrow p mod 2)%Z /\
  (Z.even (fishNeededToGrow p) = true ->
   fishNeededToGrow p' = fishNeededToGrow p) /\
  (Z.odd (fishNeededToGrow p) = true ->
   fishNeededToGrow p' = (fishNeededToGrow p - 1)%Z).
Proof.
  intros HL.
  assert (HG : (1 < sizeLevel (grow 1 p))%Z) by (cbn [grow sizeLevel]; lia).
  destruct (shrink_fields (grow 1 p) HG) as (Hb & Hl & _ & Hf & _).
  cbn zeta.
  assert (Hf' : fishNeededToGrow (snd (shrink (grow 1 p)))
                = (fishNeededToGrow p - fishNeededToGrow p mod 2)%Z).
  { rewrite Hf. cbn [grow fishNeededToGrow]. rewrite floor_grow.
    apply floor_roundtrip. }
  split; [exact Hb|]. split; [rewrite Hl; cbn [grow sizeLevel]; lia|].
  split; [exact Hf'|]. split; intros Hp; rewrite Hf'.
  - rewrite Zmod_even, Hp. lia.
  - rewrite Zmod_odd, Hp. lia.
Qed.

Lemma grow_shrink_roundtrip_witness :
  (1 <= sizeLevel new)%Z /\
  let p' := snd (shrink (grow 1 new)) in
  fst (shrink (grow 1 new)) = true /\
  sizeLevel p' = sizeLevel new /\
  fishNeededToGrow p' = (fishNeededToGrow new - fishNeededToGrow new mod 2)%Z /\
  (Z.even (fishNeededToGrow new) = true ->
   fishNeededToGrow p' = fishNeededToGrow new) /\
  (Z.odd (fishNeededToGrow new) = true ->
   fishNeededToGrow p' = (fishNeededToGrow new - 1)%Z).
Proof.
  split; [cbn; lia | apply (grow_shrink_roundtrip new); cbn; lia].
Defined.

(** The radius after level-up then shrink, with no frame in between: the
    level-up's increase is still pending in the animation when [shrink]
    subtracts from the radius and replaces the animation's target. *)
Lemma grow_shrink_radius p :
  (1 <= sizeLevel p)%Z ->
  let p' := snd (shrink (grow 1 p)) in
  radius p' == radius p - inject_Z (5 + sizeLevel p / 2 * 2) /\
  targetRadius (growthAnimation p') == radius p'.
Proof.
  intros HL. cbn zeta. unfold shrink.
  destruct (sizeLevel (grow 1 p) <=? 1)%Z eqn:E.
  { apply Z.leb_le in E. cbn [grow sizeLevel] in E. lia. }
  cbn [snd radius growthAnimation targetRadius grow sizeLevel].
  replace (sizeLevel p + 1 - 1)%Z with (sizeLevel p) by lia.
  split; reflexivity.
Qed.

(** A new player who boosts while eating the fifth food levels up in
    [eatFish] and is shrunk again by the next frame's [updateBoost]: back
    at level 1 the radius settles at 10, not 15. *)
Example boost_levelup_loses_radius (elastic : Q -> Q) :
  let p := eatFish 1 (eatFish 4 (startBoost new)) in
  let q := update elastic p in
  sizeLevel p = 2%Z /\ sizeLevel q = 1%Z /\
  targetRadius (growthAnimation q) == 10 /\
  fishNeededToGrow q = 4%Z.
Proof. cbn zeta. repeat split; reflexivity. Qed.

End RoundTrip.

(** ** Boost drain *)

Section BoostDrain.

Import PlayerFish.

Lemma inject_Z_pos z : (0 < z)%Z -> 0 < inject_Z z.
Proof. intros H. change 0 with (inject_Z 0). now rewrite <- Zlt_Qlt. Qed.

Lemma inject_Z_nonneg z : (0 <= z)%Z -> 0 <= inject_Z z.
Proof. intros H. change 0 with (inject_Z 0). now rewrite <- Zle_Qle. Qed.

Lemma Qdiv_nonneg a b : 0 <= a -> 0 < b -> 0 <= a / b.
Proof.
  intros Ha Hb. unfold Qdiv.
  apply Qmult_le_0_compat; [assumption|].
  apply Qlt_le_weak, Qinv_lt_0_compat, Hb.
Qed.

Lemma updateBoost_invariant p :
  drainInvariant p -> drainInvariant (updateBoost p).
Proof.
  intros (HL & HE & HP & HF & HEF). unfold updateBoost.
  destruct (boosting p); cbn [negb]; [|repeat split; assumption].
  destruct (ltb 0 (fishEaten p)) eqn:Efe.
  - apply ltb_spec in Efe. pose proof (HEF Efe) as Hpos.
    unfold drainInvariant.
    cbn [sizeLevel fishEaten growthProgress fishNeededToGrow].
    repeat split; try assumption.
    + apply Math_max_lower.
    + apply Qdiv_nonneg; [apply Math_max_lower | now apply inject_Z_pos].
    + intros _. exact Hpos.
  - destruct (1 <? sizeLevel p)%Z eqn:El.
    + apply Z.ltb_lt in El.
      destruct (shrink_fields p El) as (_ & Hl & _ & Hf & _).
      unfold drainInvariant.
      cbn [sizeLevel fishEaten growthProgress fishNeededToGrow].
      rewrite Hl, Hf.
      assert (H3 : (0 <= 2 * fishNeededToGrow p / 3)%Z)
        by (apply Z.div_pos; lia).
      pose proof (inject_Z_nonneg _ H3) as H3q.
      repeat split; try lia; try lra.
      intros Hlt.
      destruct (Z.eq_dec (2 * fishNeededToGrow p / 3)%Z 0%Z) as [Hz|Hz]; [|lia].
      rewrite Hz in Hlt. exfalso. revert Hlt. change (inject_Z 0) with 0. lra.
    + unfold stopBoost, drainInvariant.
      cbn [sizeLevel fishEaten growthProgress fishNeededToGrow].
      repeat split; assumption.
Qed.

Lemma boostStep_invariant p i :
  drainInvariant p -> drainInvariant (boostStep p i).
Proof.
  intros H. destruct i; cbn [boostStep].
  - unfold startBoost. destruct (negb (isAlive p)); exact H.
  - exact H.
  - now apply updateBoost_invariant.
Qed.

Lemma runBoost_invariant inputs p :
  drainInvariant p -> drainInvariant (runBoost inputs p).
Proof.
  revert p. induction inputs as [|i inputs IH]; intros p H.
  - exact H.
  - unfold runBoost. cbn [fold_left]. apply IH, boostStep_invariant, H.
Qed.

Lemma updateBoost_at_floor p :
  atFloor p -> atFloor (updateBoost p) /\ boosting (updateBoost p) = false.
Proof.
  intros (HL & HE & HP). unfold updateBoost.
  destruct (boosting p) eqn:Eb; cbn [negb].
  - assert (Efe : ltb 0 (fishEaten p) = false)
      by (apply ltb_false; rewrite HE; lra).
    rewrite Efe, HL. cbn [Z.ltb Z.compare].
    unfold stopBoost, atFloor. cbn [sizeLevel fishEaten growthProgress boosting].
    repeat split; assumption.
  - repeat split; assumption.
Qed.

Lemma boostStep_at_floor p i : atFloor p -> atFloor (boostStep p i).
Proof.
  intros H. destruct i; cbn [boostStep].
  - unfold startBoost. destruct (negb (isAlive p)); exact H.
  - exact H.
  - now apply updateBoost_at_floor.
Qed.

Lemma runBoost_at_floor inputs p : atFloor p -> atFloor (runBoost inputs p).
Proof.
  revert p. induction inputs as [|i inputs IH]; intros p H.
  - exact H.
  - unfold runBoost. cbn [fold_left]. apply IH, boostStep_at_floor, H.
Qed.

(** C6.  A player at size level 1 with no progress stays there under any
    sequence of button presses, releases and frames, and every frame
    leaves boosting off.  More generally, from any state with level at
    least 1 and progress that is not negative, every such sequence keeps
    the level at least 1, and [fishEaten] and [growthProgress] not
    negative. *)
Theorem boost_drain_floor :
  (forall inputs p,
     sizeLevel p = 1%Z -> fishEaten p == 0 -> growthProgress p == 0 ->
     let q := runBoost inputs p in
     sizeLevel q = 1%Z /\ fishEaten q == 0 /\ growthProgress q == 0 /\
     boosting (updateBoost q) = false /\
     sizeLevel (updateBoost q) = 1%Z /\
     fishEaten (updateBoost q) == 0 /\ growthProgress (updateBoost q) == 0) /\
  (forall inputs p,
     (1 <= sizeLevel p)%Z -> 0 <= fishEaten p -> 0 <= growthProgress p ->
     (0 <= fishNeededToGrow p)%Z ->
     (0 < fishEaten p -> (0 < fishNeededToGrow p)%Z) ->
     let q := runBoost inputs p in
     (1 <= sizeLevel q)%Z /\ 0 <= fishEaten q /\ 0 <= growthProgress q).
Proof.
  split.
  - intros inputs p HL HE HP. cbn zeta.
    assert (H : atFloor (runBoost inputs p))
      by (apply runBoost_at_floor; repeat split; assumption).
    destruct (updateBoost_at_floor _ H) as ((L & E & P) & B).
    destruct H as (L0 & E0 & P0). repeat split; assumption.
  - intros inputs p HL HE HP HF HEF. cbn zeta.
    assert (H : drainInvariant (runBoost inputs p))
      by (apply runBoost_invariant; repeat split; assumption).
    destruct H as (L & E & P & _). repeat split; assumption.
Qed.

Lemma boost_drain_floor_witness :
  (sizeLevel new = 1%Z /\ fishEaten new == 0 /\ growthProgress new == 0) /\
  (let q := runBoost [ButtonDown; Frame; ButtonDown; Frame; Frame] new in
   sizeLevel q = 1%Z /\ fishEaten q == 0 /\ growthProgress q == 0 /\
   boosting (updateBoost q) = false /\
   sizeLevel (updateBoost q) = 1%Z /\
   fishEaten (updateBoost q) == 0 /\ growthProgress (updateBoost q) == 0) /\
  (let p := eatFish 2 (levelUp (fun x => x) new) in
   ((1 <= sizeLevel p)%Z /\ 0 <= fishEaten p /\ 0 <= growthProgress p /\
    (0 <= fishNeededToGrow p)%Z /\
    (0 < fishEaten p -> (0 < fishNeededToGrow p)%Z)) /\
   let q := runBoost [ButtonDown; Frame; Frame; ButtonUp; Frame] p in
   (1 <= sizeLevel q)%Z /\ 0 <= fishEaten q /\ 0 <= growthProgress q).
Proof.
  split; [repeat split; reflexivity|]. split.
  - apply (proj1 boost_drain_floor
             [ButtonDown; Frame; ButtonDown; Frame; Frame] new);
      reflexivity.
  - cbn zeta.
    assert (H : (1 <= sizeLevel (eatFish 2 (levelUp (fun x => x) new)))%Z /\
                0 <= fishEaten (eatFish 2 (levelUp (fun x => x) new)) /\
                0 <= growthProgress (eatFish 2 (levelUp (fun x => x) new)) /\
                (0 <= fishNeededToGrow (eatFish 2 (levelUp (fun x => x) new)))%Z /\
                (0 < fishEaten (eatFish 2 (levelUp (fun x => x) new)) ->
                 (0 < fishNeededToGrow (eatFish 2 (levelUp (fun x => x) new)))%Z)).
    { vm_compute. repeat split; intros; discriminate. }
    split; [exact H|].
    destruct H as (H1 & H2 & H3 & H4 & H5).
    exact (proj2 boost_drain_floor
             [ButtonDown; Frame; Frame; ButtonUp; Frame]
             (eatFish 2 (levelUp (fun x => x) new)) H1 H2 H3 H4 H5).
Defined.

(** One draining frame inside a level: the level is kept and progress is
    clamped at 0. *)
Lemma updateBoost_drains p :
  boosting p = true -> 0 < fishEaten p ->
  let q := updateBoost p in
  sizeLevel q = sizeLevel p /\
  fishEaten q
  = Math_max 0 (fishEaten p - boostDrainRate p * inject_Z (fishNeededToGrow p)) /\
  0 <= fishEaten q.
Proof.
  intros Hb He. unfold updateBoost. rewrite Hb. cbn [negb].
  apply ltb_spec in He. rewrite He. cbn zeta. cbn [sizeLevel fishEaten].
  repeat split. apply Math_max_lower.
Qed.

End BoostDrain.

(** ** Eating *)

Section Eating.

Import PlayerFish.

(** C7, as stated, fails: after two foods, [eatFish(-1)] takes
    [fishEaten] from 2 to 1 and the score from 20 to 10. *)
Lemma eatFish_negative_not_clamped :
  let p := eatFish 1 (eatFish 1 new) in
  ~ (fishEaten (eatFish (-1) p) == fishEaten p /\
     score (eatFish (-1) p) == score p).
Proof.
  cbn zeta. intros [H _]. vm_compute in H. discriminate H.
Qed.

Example eatFish_negative_values :
  let p := eatFish 1 (eatFish 1 new) in
  fishEaten p == 2 /\ score p == 20 /\
  fishEaten (eatFish (-1) p) == 1 /\ score (eatFish (-1) p) == 10.
Proof. cbn zeta. repeat split; reflexivity. Qed.

(** C7, amended.  [eatFish] validates nothing: for every amount, the
    negative ones included, the score changes by [amount * 10 * sizeLevel]
    and, unless the new [fishEaten] reaches [fishNeededToGrow] (then the
    level-up resets it to 0), [fishEaten] changes by [amount]. *)
Theorem eatFish_adds_amount (amount : Q) (p : t) :
  score (eatFish amount p)
  == score p + amount * 10 * inject_Z (sizeLevel p) /\
  (fishEaten p + amount < inject_Z (fishNeededToGrow p) ->
   fishEaten (eatFish amount p) == fishEaten p + amount /\
   sizeLevel (eatFish amount p) = sizeLevel p) /\
  (inject_Z (fishNeededToGrow p) <= fishEaten p + amount ->
   fishEaten (eatFish amount p) == 0 /\
   sizeLevel (eatFish amount p) = (sizeLevel p + 1)%Z).
Proof.
  unfold eatFish. cbn zeta.
  destruct (geb (fishEaten p + amount) (inject_Z (fishNeededToGrow p))) eqn:E.
  - apply geb_spec in E. cbn [grow score fishEaten sizeLevel].
    split; [reflexivity|]. split; intros H; [lra|]. split; reflexivity.
  - assert (E' : fishEaten p + amount < inject_Z (fishNeededToGrow p)).
    { apply Qnot_le_lt. intros H. apply geb_spec in H. congruence. }
    cbn [score fishEaten sizeLevel].
    split; [reflexivity|]. split; intros H; [|lra]. split; reflexivity.
Qed.

Lemma eatFish_adds_amount_witness :
  let p := eatFish 1 (eatFish 1 new) in
  score (eatFish (-1) p)
  == score p + (-1) * 10 * inject_Z (sizeLevel p) /\
  (fishEaten p + (-1) < inject_Z (fishNeededToGrow p) ->
   fishEaten (eatFish (-1) p) == fishEaten p + (-1) /\
   sizeLevel (eatFish (-1) p) = sizeLevel p) /\
  (inject_Z (fishNeededToGrow p) <= fishEaten p + (-1) ->
   fishEaten (eatFish (-1) p) == 0 /\
   sizeLevel (eatFish (-1) p) = (sizeLevel p + 1)%Z).
Proof.
  cbn zeta. apply (eatFish_adds_amount (-1) (eatFish 1 (eatFish 1 new))).
Defined.

(** Hence a negative amount lowers the score of any player of level at
    least 1, and lowers [fishEaten] short of a level-up. *)
Lemma eatFish_negative_reduces amount p :
  amount < 0 -> (1 <= sizeLevel p)%Z ->
  fishEaten p + amount < inject_Z (fishNeededToGrow p) ->
  score (eatFish amount p) < score p /\
  fishEaten (eatFish amount p) < fishEaten p.
Proof.
  intros Ha HL Hf.
  destruct (eatFish_adds_amount amount p) as (S & F & _).
  destruct (F Hf) as [F' _]. rewrite S, F'.
  assert (H1 : 1 <= inject_Z (sizeLevel p))
    by (change 1 with (inject_Z 1); now rewrite <- Zle_Qle).
  split; [nra | lra].
Qed.

End Eating.

(** ** Edibility *)

Section Edibility.

(** C8.  An AI player can eat exactly the fish whose radius times 1.05 is
    below its own; the local player exactly those whose radius times 0.99
    is below its own.  So at radius 30 against radius 29 the AI test says
    no and the player test says yes. *)
Theorem canEat_thresholds :
  (forall (a : AIPlayer.t) (other : Q),
     AIPlayer.canEat a other = true <-> other * 1.05 < AIPlayer.radius a) /\
  (forall (p : PlayerFish.t) (other : Q),
     PlayerFish.canEat p other = true <-> other * 0.99 < PlayerFish.radius p) /\
  (forall a, AIPlayer.radius a == 30 -> AIPlayer.canEat a 29 = false) /\
  (forall p, PlayerFish.radius p == 30 -> PlayerFish.canEat p 29 = true).
Proof.
  split; [|split; [|split]].
  - intros a other. apply ltb_spec.
  - intros p other. apply ltb_spec.
  - intros a Hr. unfold AIPlayer.canEat. apply ltb_false. rewrite Hr. lra.
  - intros p Hr. unfold PlayerFish.canEat. apply ltb_spec. rewrite Hr. lra.
Qed.

Lemma canEat_thresholds_witness :
  AIPlayer.canEat {| AIPlayer.sizeLevel := 3; AIPlayer.radius := 30 |} 29 = false /\
  PlayerFish.canEat
    {| PlayerFish.isAlive := true; PlayerFish.sizeLevel := 3;
       PlayerFish.radius := 30; PlayerFish.baseSpeed := 2.0;
       PlayerFish.speed := 2.0; PlayerFish.boosting := false;
       PlayerFish.boostDrainRate := 0.001; PlayerFish.score := 0;
       PlayerFish.fishEaten := 0; PlayerFish.fishNeededToGrow := 10;
       PlayerFish.growthProgress := 0;
       PlayerFish.growthAnimation := PlayerFish.growthAnimation PlayerFish.new |}
    29 = true.
Proof.
  destruct canEat_thresholds as (_ & _ & HA & HP).
  split; [apply HA | apply HP]; reflexivity.
Defined.

End Edibility.

(** ** The server's food collection *)

Section ServerFood.

Import Server.
Open Scope Z_scope.

Lemma Zgeb_true a b : (a >=? b) = true <-> b <= a.
Proof. rewrite Z.geb_leb. apply Z.leb_le. Qed.

Lemma Zgeb_false a b : (a >=? b) = false <-> a < b.
Proof. rewrite Z.geb_leb. apply Z.leb_gt. Qed.

Lemma generateFood_full d gs :
  Z.of_nat (length (foods gs)) >= maxFoodItems gs ->
  generateFood d gs = (gs, None).
Proof.
  intros H. unfold generateFood.
  destruct (Z.of_nat (length (foods gs)) >=? maxFoodItems gs) eqn:E;
    [reflexivity|].
  apply Zgeb_false in E. lia.
Qed.

Lemma generateFood_room d gs :
  Z.of_nat (length (foods gs)) < maxFoodItems gs ->
  exists f,
    food_id f = (pretty (draw_now d) +:+ draw_suffix d)%string /\
    generateFood d gs = (set_foods (foods gs ++ [f]) gs, Some f).
Proof.
  intros H. unfold generateFood.
  destruct (Z.of_nat (length (foods gs)) >=? maxFoodItems gs) eqn:E.
  - apply Zgeb_true in E. lia.
  - eexists. split; [|reflexivity]. reflexivity.
Qed.

(** [generateFood] touches nothing but [foods], never shortens it, and
    never takes it past [maxFoodItems]. *)
Lemma generateFood_frame d gs :
  let gs' := fst (generateFood d gs) in
  players gs' = players gs /\
  maxFoodItems gs' = maxFoodItems gs /\
  connectedPlayers gs' = connectedPlayers gs /\
  (length (foods gs) <= length (foods gs'))%nat /\
  (Z.of_nat (length (foods gs)) <= maxFoodItems gs ->
   Z.of_nat (length (foods gs')) <= maxFoodItems gs).
Proof.
  cbn zeta. unfold generateFood.
  destruct (Z.of_nat (length (foods gs)) >=? maxFoodItems gs) eqn:E;
    cbn [fst set_foods players maxFoodItems connectedPlayers foods].
  - repeat split; auto.
  - apply Zgeb_false in E.
    rewrite length_app. cbn [length]. repeat split; lia.
Qed.

Lemma seed_length draws (l : list nat) gs :
  Z.of_nat (length (foods gs) + length l) <= maxFoodItems gs ->
  let gs' := fold_left (fun g i => fst (generateFood (draws i) g)) l gs in
  length (foods gs') = (length (foods gs) + length l)%nat /\
  players gs' = players gs /\
  maxFoodItems gs' = maxFoodItems gs /\
  connectedPlayers gs' = connectedPlayers gs.
Proof.
  revert gs. induction l as [|i l IH]; intros gs H; cbn zeta.
  - cbn. repeat split. lia.
  - cbn [fold_left]. cbn [length] in H.
    destruct (generateFood_room (draws i) gs) as (f & _ & E); [lia|].
    rewrite E. cbn [fst].
    destruct (IH (set_foods (foods gs ++ [f]) gs)) as (H1 & H2 & H3 & H4).
    { cbn [set_foods foods maxFoodItems]. rewrite length_app. cbn [length]. lia. }
    rewrite H1, H2, H3, H4.
    cbn [set_foods foods players maxFoodItems connectedPlayers].
    rewrite length_app. cbn [length]. repeat split. lia.
Qed.

(** After the seeding loop there are exactly 50 foods. *)
Lemma seedFood_state draws :
  let gs := seedFood draws gameState0 in
  length (foods gs) = 50%nat /\ players gs = ∅ /\
  maxFoodItems gs = 100 /\ connectedPlayers gs = 0.
Proof.
  cbn zeta. unfold seedFood.
  destruct (seed_length draws (seq 0 50) gameState0) as (H1 & H2 & H3 & H4).
  { rewrite length_seq. cbn. lia. }
  rewrite H1, H2, H3, H4, length_seq. repeat split.
Qed.

(** [findIndex] either finds no food of that id, or the first one. *)
Lemma findIndex_spec foodId fs :
  ((foodId ∉ (food_id <$> fs)) /\ findIndex foodId fs = -1) \/
  (exists pre f post,
     fs = pre ++ f :: post /\ food_id f = foodId /\
     (foodId ∉ (food_id <$> pre)) /\
     findIndex foodId fs = Z.of_nat (length pre)).
Proof.
  induction fs as [|f fs IH].
  - left. split; [|reflexivity]. cbn. apply not_elem_of_nil.
  - cbn [findIndex].
    destruct (String.eqb (food_id f) foodId) eqn:E.
    + apply String.eqb_eq in E. right. exists [], f, fs.
      repeat split; [exact E|]. cbn. apply not_elem_of_nil.
    + apply String.eqb_neq in E.
      destruct IH as [[Hn Hi]|(pre & g & post & Hfs & Hg & Hpre & Hi)].
      * left. rewrite Hi. split; [|reflexivity].
        rewrite fmap_cons, not_elem_of_cons. split; [congruence|exact Hn].
      * right. exists (f :: pre), g, post. rewrite Hi.
        destruct (Z.of_nat (length pre) =? -1) eqn:E1;
          [apply Z.eqb_eq in E1; lia|].
        repeat split.
        -- rewrite Hfs. reflexivity.
        -- exact Hg.
        -- rewrite fmap_cons, not_elem_of_cons. split; [congruence|exact Hpre].
        -- cbn [length]. lia.
Qed.

Lemma splice1_middle (pre : list Food) f post :
  splice1 (Z.of_nat (length pre)) (pre ++ f :: post) = pre ++ post.
Proof.
  unfold splice1. rewrite Nat2Z.id, take_app_length.
  replace (S (length pre)) with (length pre + 1)%nat by lia.
  rewrite <- drop_drop, drop_app_length. reflexivity.
Qed.

(** A report for an id that is not in the collection is ignored. *)
Lemma foodEaten_absent (s : Server.t) (sid foodId : string) :
  foodId ∉ (food_id <$> foods (gameState s)) ->
  onFoodEaten sid foodId s = (s, []).
Proof.
  intros Hn. unfold onFoodEaten.
  destruct (findIndex_spec foodId (foods (gameState s)))
    as [[_ Hi]|(pre & f & post & Hfs & Hf & _ & _)].
  - rewrite Hi. reflexivity.
  - exfalso. apply Hn. rewrite Hfs, fmap_app, fmap_cons, Hf.
    apply elem_of_app. right. apply elem_of_cons. now left.
Qed.

(** C3.  When the food ids are distinct and the reported id is present,
    the first [foodEaten] removes that food and broadcasts [foodRemoved];
    a second report of the same id, from whichever socket, changes
    nothing and sends nothing.  Across the two calls the collection
    shrinks by exactly one. *)
Theorem foodEaten_twice (s : Server.t) (sid1 sid2 foodId : string) :
  NoDup (food_id <$> foods (gameState s)) ->
  foodId ∈ (food_id <$> foods (gameState s)) ->
  let '(s1, out1) := onFoodEaten sid1 foodId s in
  let '(s2, out2) := onFoodEaten sid2 foodId s1 in
  out1 = [mkEmit ToAll (MsgFoodRemoved foodId)] /\
  (foodId ∉ (food_id <$> foods (gameState s1))) /\
  length (foods (gameState s)) = S (length (foods (gameState s1))) /\
  out2 = [] /\ s2 = s1 /\
  length (foods (gameState s)) = S (length (foods (gameState s2))).
Proof.
  intros Hnd Hin.
  destruct (findIndex_spec foodId (foods (gameState s)))
    as [[Hn _]|(pre & f & post & Hfs & Hf & Hpre & Hi)]; [contradiction|].
  assert (Hpost : foodId ∉ (food_id <$> post)).
  { rewrite Hfs, fmap_app, fmap_cons, Hf in Hnd.
    apply NoDup_app in Hnd. destruct Hnd as (_ & _ & Hnd).
    apply NoDup_cons in Hnd. tauto. }
  assert (Hgone : foodId ∉ (food_id <$> (pre ++ post))).
  { rewrite fmap_app, elem_of_app. tauto. }
  unfold onFoodEaten at 1. rewrite Hi.
  destruct (Z.of_nat (length pre) =? -1) eqn:E1;
    [apply Z.eqb_eq in E1; lia|]. cbn [negb].
  rewrite Hfs, splice1_middle.
  unfold onFoodEaten. cbn [gameState set_gameState set_foods foods].
  destruct (findIndex_spec foodId (pre ++ post))
    as [[_ Hi2]|(pre2 & f2 & post2 & Hfs2 & Hf2 & _ & _)].
  - rewrite Hi2. cbn [Z.eqb negb].
    cbn [gameState set_gameState set_foods foods].
    rewrite !length_app. cbn [length].
    repeat split; try assumption; try lia.
    cbn [gameState set_gameState set_foods foods]. rewrite length_app. lia.
  - exfalso. apply Hgone. rewrite Hfs2, fmap_app, fmap_cons, Hf2.
    apply elem_of_app. right. apply elem_of_cons. now left.
Qed.

End ServerFood.

(** ** The server's invariant *)

Ltac proj :=
  cbn [Server.gameState Server.foodSpawnInterval Server.timers
       Server.nextTimer Server.sockets
       Server.set_gameState Server.set_sockets Server.set_players
       Server.set_foods Server.set_world Server.set_connectedPlayers
       Server.clearInterval Server.setInterval
       Server.players Server.foods Server.worldWidth Server.worldHeight
       Server.maxFoodItems Server.connectedPlayers
       fst snd] in *.

Section ServerInvariant.

Import Server.
Open Scope Z_scope.

(** [startFoodSpawning] acts on the timers alone. *)
Lemma startFoodSpawning_gameState s :
  gameState (startFoodSpawning s) = gameState s /\
  sockets (startFoodSpawning s) = sockets s.
Proof.
  unfold startFoodSpawning.
  destruct (foodSpawnInterval s); proj;
    destruct (connectedPlayers (gameState s) =? 0); proj;
    split; reflexivity.
Qed.

(** The policy reads only the count, the timer table and the handle. *)
Lemma timerPolicy_frame s s' :
  connectedPlayers (gameState s') = connectedPlayers (gameState s) ->
  timers s' = timers s ->
  foodSpawnInterval s' = foodSpawnInterval s ->
  timerPolicy s -> timerPolicy s'.
Proof.
  unfold timerPolicy. cbn zeta. intros -> -> ->. tauto.
Qed.

(** Under the policy the table is empty or holds exactly the timer that
    [foodSpawnInterval] refers to. *)
Lemma timerPolicy_shape s :
  timerPolicy s ->
  timers s = ∅ \/
  exists h p, foodSpawnInterval s = Some h /\ timers s = {[ h := p ]}.
Proof.
  unfold timerPolicy. cbn zeta.
  destruct (connectedPlayers (gameState s) =? 0); [now left|].
  intros (h & Hh & Ht). right. eauto.
Qed.

(** [startFoodSpawning] cancels the timer that was running and, unless no
    one is connected, starts one with a handle never used before and the
    period the count calls for. *)
Lemma startFoodSpawning_spec s :
  (timers s = ∅ \/
   exists h p, foodSpawnInterval s = Some h /\ timers s = {[ h := p ]}) ->
  (forall h, foodSpawnInterval s = Some h -> (h < nextTimer s)%nat) ->
  let s' := startFoodSpawning s in
  gameState s' = gameState s /\ sockets s' = sockets s /\
  timerPolicy s' /\
  (forall h, foodSpawnInterval s' = Some h -> (h < nextTimer s')%nat) /\
  (forall h, foodSpawnInterval s = Some h -> timers s' !! h = None) /\
  (connectedPlayers (gameState s) <> 0 ->
   foodSpawnInterval s' = Some (nextTimer s)).
Proof.
  intros Hshape Hfresh. cbn zeta. unfold startFoodSpawning.
  set (s1 := match foodSpawnInterval s with
             | Some h => clearInterval h s
             | None => s
             end).
  assert (H1 : gameState s1 = gameState s /\ sockets s1 = sockets s /\
               nextTimer s1 = nextTimer s /\
               foodSpawnInterval s1 = foodSpawnInterval s /\
               timers s1 = ∅).
  { subst s1. destruct (foodSpawnInterval s) as [h|] eqn:Eh.
    - proj. repeat split; try assumption.
      destruct Hshape as [->|(h' & p & Hh' & ->)].
      + apply delete_empty.
      + injection Hh' as <-. apply delete_singleton_eq.
    - repeat split; try assumption.
      destruct Hshape as [->|(h' & p & Hh' & _)]; [reflexivity|discriminate]. }
  destruct H1 as (Hg & Hs & Hn & Hf & Ht).
  rewrite Hg.
  destruct (connectedPlayers (gameState s) =? 0) eqn:E0.
  - repeat split; try assumption.
    + unfold timerPolicy. cbn zeta. rewrite Hg, E0. exact Ht.
    + intros h Hh. rewrite Hn. apply Hfresh. congruence.
    + intros h _. rewrite Ht. apply lookup_empty.
    + intros Hne. apply Z.eqb_eq in E0. contradiction.
  - unfold setInterval. proj. rewrite Ht, Hn, insert_empty.
    repeat split; try assumption.
    + unfold timerPolicy. proj. rewrite Hg, E0. eauto.
    + intros h Hh. injection Hh as <-. lia.
    + intros h Hh. apply lookup_singleton_ne.
      specialize (Hfresh h Hh). lia.
Qed.

Lemma boot_invariant draws : invariant (boot draws).
Proof.
  unfold boot.
  set (s0 := {| gameState := seedFood draws gameState0;
                foodSpawnInterval := None; timers := ∅;
                nextTimer := O; sockets := ∅ |}).
  destruct (startFoodSpawning_spec s0) as (Hg & Hs & Hp & Hf & _).
  { now left. }
  { intros h Hh. discriminate Hh. }
  destruct (seedFood_state draws) as (Hl & Hpl & Hm & Hc).
  unfold invariant. cbn zeta. rewrite Hg, Hs.
  change (gameState s0) with (seedFood draws gameState0).
  change (sockets s0) with (∅ : gset string).
  split; [exact Hm|]. split; [rewrite Hl; lia|].
  split; [rewrite Hc, size_empty; reflexivity|].
  split; [rewrite Hpl, dom_empty_L; reflexivity|].
  split; [exact Hp | exact Hf].
Qed.

Lemma splice1_length index (fs : list Food) :
  (length (splice1 index fs) <= length fs)%nat.
Proof.
  unfold splice1. rewrite length_app, length_take, length_drop. lia.
Qed.

(** Every handler keeps the invariant. *)
Lemma handle_invariant s e :
  invariant s -> enabled s e = true -> invariant (fst (handle s e)).
Proof.
  intros (Hm & Hl & Hc & Hd & Hp & Hf) He.
  destruct e as [sid|sid d|sid d|sid foodId|sid eaten|sid d|sid|h d];
    cbn [handle enabled] in *; apply bool_decide_eq_true in He.
  - (* connection *)
    unfold onConnection. cbn zeta. cbn [fst].
    set (s1 := set_gameState _ _).
    destruct (startFoodSpawning_spec s1) as (Hg & Hs & Hp' & Hf' & _).
    { subst s1. proj. apply (timerPolicy_shape s Hp). }
    { subst s1. proj. exact Hf. }
    unfold invariant. cbn zeta. rewrite Hg, Hs. subst s1. proj.
    repeat split; try assumption.
    + rewrite Hc, size_union, size_singleton by set_solver. lia.
    + set_solver.
  - (* playerJoin *)
    unfold onPlayerJoin. cbn zeta.
    destruct (truthy (join_worldWidth d) && truthy (join_worldHeight d));
      proj; destruct (1 <? connectedPlayers (gameState s)); proj;
      unfold invariant; cbn zeta; proj;
      (repeat split; try assumption;
       first [ rewrite dom_insert_L; set_solver
             | eapply timerPolicy_frame; [| | |exact Hp]; reflexivity ]).
  - (* playerUpdate *)
    unfold onPlayerUpdate. cbn zeta.
    destruct (players (gameState s) !! sid) as [p|] eqn:Ep;
      [|repeat split; assumption].
    destruct (1 <? connectedPlayers (gameState s)); proj;
      unfold invariant; cbn zeta; proj;
      (repeat split; try assumption;
       first [ rewrite dom_insert_L; set_solver
             | eapply timerPolicy_frame; [| | |exact Hp]; reflexivity ]).
  - (* foodEaten *)
    unfold onFoodEaten. cbn zeta.
    destruct (negb _); [|repeat split; assumption].
    unfold invariant. cbn zeta. proj.
    pose proof (splice1_length (findIndex foodId (foods (gameState s)))
                  (foods (gameState s))).
    repeat split; try assumption;
      first [ lia
            | eapply timerPolicy_frame; [| | |exact Hp]; reflexivity ].
  - (* playerEaten *)
    unfold onPlayerEaten. cbn zeta.
    destruct (players (gameState s) !! eaten) as [p|] eqn:Ep;
      [|destruct (isInherited eaten); repeat split; assumption].
    assert (eaten ∈ dom (players (gameState s)))
      by (apply elem_of_dom; eauto).
    unfold invariant. cbn zeta. proj.
    repeat split; try assumption;
      first [ rewrite dom_insert_L; set_solver
            | eapply timerPolicy_frame; [| | |exact Hp]; reflexivity ].
  - (* playerRespawn *)
    unfold onPlayerRespawn. cbn zeta.
    destruct (players (gameState s) !! sid) as [p|] eqn:Ep;
      [|repeat split; assumption].
    destruct (1 <? connectedPlayers (gameState s)); proj;
      unfold invariant; cbn zeta; proj;
      (repeat split; try assumption;
       first [ rewrite dom_insert_L; set_solver
             | eapply timerPolicy_frame; [| | |exact Hp]; reflexivity ]).
  - (* disconnect *)
    unfold onDisconnect. cbn zeta.
    set (s1 := set_gameState _ _).
    destruct (startFoodSpawning_spec s1) as (Hg & Hs & Hp' & Hf' & _).
    { subst s1. proj. apply (timerPolicy_shape s Hp). }
    { subst s1. proj. exact Hf. }
    assert (Hsz : size (sockets s ∖ {[sid]}) = (size (sockets s) - 1)%nat).
    { rewrite size_difference by set_solver. now rewrite size_singleton. }
    assert (Hpos : (1 <= size (sockets s))%nat).
    { destruct (size (sockets s)) eqn:E0; [|lia].
      apply size_empty_inv in E0. set_solver. }
    rewrite Hg. subst s1. proj.
    destruct (players (gameState s) !! sid) as [p|] eqn:Ep.
    + match goal with
      | |- invariant (fst (if ?c then (?a, _) else (?a, _))) =>
          replace (fst (if c then (a, _) else (a, _))) with a
            by (destruct c; reflexivity)
      end.
      unfold invariant. cbn zeta. proj. rewrite Hs. proj.
      repeat split; try assumption.
      * rewrite Hsz, Hc. lia.
      * rewrite dom_delete_L. set_solver.
      * eapply timerPolicy_frame; [| | |exact Hp']; proj; try reflexivity.
        rewrite Hg. reflexivity.
    + cbn [fst]. unfold invariant. cbn zeta. rewrite Hg, Hs. proj.
      repeat split; try assumption.
      * rewrite Hsz, Hc. lia.
      * apply not_elem_of_dom in Ep. set_solver.
  - (* spawn tick *)
    unfold spawnTick.
    destruct (generateFood_frame d (gameState s)) as (G1 & G2 & G3 & _ & G5).
    destruct (generateFood d (gameState s)) as [gs newFood]. proj.
    assert (E : fst (match newFood with
                     | Some f =>
                         if 0 <? connectedPlayers gs
                         then (set_gameState gs s,
                               [mkEmit ToAll (MsgFoodSpawned f)])
                         else (set_gameState gs s, [])
                     | None => (set_gameState gs s, [])
                     end) = set_gameState gs s).
    { destruct newFood; [destruct (0 <? connectedPlayers gs)|]; reflexivity. }
    rewrite E. unfold invariant. cbn zeta. proj.
    rewrite G1, G2, G3. repeat split; try assumption.
    + rewrite Hm in G5. apply G5. exact Hl.
    + eapply timerPolicy_frame; [| | |exact Hp]; proj; try reflexivity.
      exact G3.
Qed.

Lemma reachable_invariant s : reachable s -> invariant s.
Proof.
  induction 1 as [draws|s e _ IH He].
  - apply boot_invariant.
  - now apply handle_invariant.
Qed.

End ServerInvariant.

(** ** What each handler leaves alone *)

Section ServerFrames.

Import Server.
Open Scope Z_scope.

(** The state after a disconnection has the timers that
    [startFoodSpawning] built for the decremented count. *)
Lemma onDisconnect_timers sid s :
  let s1 :=
    set_gameState
      (set_connectedPlayers
         (Z.max 0 (connectedPlayers (gameState s) - 1)) (gameState s))
      (set_sockets (sockets s ∖ {[sid]}) s) in
  let s' := fst (onDisconnect sid s) in
  timers s' = timers (startFoodSpawning s1) /\
  foodSpawnInterval s' = foodSpawnInterval (startFoodSpawning s1) /\
  nextTimer s' = nextTimer (startFoodSpawning s1) /\
  connectedPlayers (gameState s') = Z.max 0 (connectedPlayers (gameState s) - 1) /\
  foods (gameState s') = foods (gameState s) /\
  maxFoodItems (gameState s') = maxFoodItems (gameState s).
Proof.
  cbn zeta. unfold onDisconnect. cbn zeta. proj.
  set (s1 := set_gameState _ _).
  destruct (startFoodSpawning_gameState s1) as [Hg _].
  rewrite Hg. subst s1. proj.
  destruct (players (gameState s) !! sid);
    [destruct (0 <? _)|]; proj; repeat split; try reflexivity;
    try (rewrite Hg; reflexivity).
Qed.

Lemma onConnection_state sid s :
  let s1 :=
    set_gameState
      (set_connectedPlayers (connectedPlayers (gameState s) + 1) (gameState s))
      (set_sockets ({[sid]} ∪ sockets s) s) in
  fst (onConnection sid s) = startFoodSpawning s1 /\
  gameState (fst (onConnection sid s)) = gameState s1.
Proof.
  cbn zeta. unfold onConnection. cbn zeta. proj.
  split; [reflexivity|]. apply startFoodSpawning_gameState.
Qed.

(** The events that are neither a connection nor a disconnection leave
    the count, the sockets and the timers as they were. *)
Lemma handle_frame s e :
  countChange e = 0 ->
  let s' := fst (handle s e) in
  connectedPlayers (gameState s') = connectedPlayers (gameState s) /\
  maxFoodItems (gameState s') = maxFoodItems (gameState s) /\
  timers s' = timers s /\
  foodSpawnInterval s' = foodSpawnInterval s /\
  nextTimer s' = nextTimer s /\
  sockets s' = sockets s.
Proof.
  intros Hc. cbn zeta.
  destruct e as [sid|sid d|sid d|sid foodId|sid eaten|sid d|sid|h d];
    cbn [countChange] in Hc; try discriminate Hc; cbn [handle].
  - unfold onPlayerJoin. cbn zeta.
    destruct (truthy (join_worldWidth d) && truthy (join_worldHeight d));
      proj; destruct (1 <? connectedPlayers (gameState s)); proj;
      repeat split.
  - unfold onPlayerUpdate. cbn zeta.
    destruct (players (gameState s) !! sid); [|repeat split].
    destruct (1 <? connectedPlayers (gameState s)); proj; repeat split.
  - unfold onFoodEaten. cbn zeta.
    destruct (negb _); proj; repeat split.
  - unfold onPlayerEaten. cbn zeta.
    destruct (players (gameState s) !! eaten);
      [|destruct (isInherited eaten)]; proj; repeat split.
  - unfold onPlayerRespawn. cbn zeta.
    destruct (players (gameState s) !! sid); [|repeat split].
    destruct (1 <? connectedPlayers (gameState s)); proj; repeat split.
  - unfold spawnTick.
    destruct (generateFood_frame d (gameState s)) as (_ & G2 & G3 & _).
    destruct (generateFood d (gameState s)) as [gs newFood]. proj.
    destruct newFood; [destruct (0 <? connectedPlayers gs)|]; proj;
      repeat split; assumption.
Qed.

(** Only [foodEaten] can shorten the food collection. *)
Lemma handle_foods_grow s e :
  (forall sid foodId, e <> FoodEaten sid foodId) ->
  (length (foods (gameState s))
   <= length (foods (gameState (fst (handle s e)))))%nat.
Proof.
  intros Hne.
  destruct e as [sid|sid d|sid d|sid foodId|sid eaten|sid d|sid|h d];
    cbn [handle].
  - destruct (onConnection_state sid s) as [_ ->]. proj. lia.
  - unfold onPlayerJoin. cbn zeta.
    destruct (truthy (join_worldWidth d) && truthy (join_worldHeight d));
      proj; destruct (1 <? connectedPlayers (gameState s)); proj; lia.
  - unfold onPlayerUpdate. cbn zeta.
    destruct (players (gameState s) !! sid); [|proj; lia].
    destruct (1 <? connectedPlayers (gameState s)); proj; lia.
  - exfalso. eapply Hne. reflexivity.
  - unfold onPlayerEaten. cbn zeta.
    destruct (players (gameState s) !! eaten);
      [|destruct (isInherited eaten)]; proj; lia.
  - unfold onPlayerRespawn. cbn zeta.
    destruct (players (gameState s) !! sid); [|proj; lia].
    destruct (1 <? connectedPlayers (gameState s)); proj; lia.
  - destruct (onDisconnect_timers sid s) as (_ & _ & _ & _ & -> & _). lia.
  - unfold spawnTick.
    destruct (generateFood_frame d (gameState s)) as (_ & _ & _ & G4 & _).
    destruct (generateFood d (gameState s)) as [gs newFood]. proj.
    destruct newFood; [destruct (0 <? connectedPlayers gs)|]; proj;
      exact G4.
Qed.

Lemma handle_count s e :
  invariant s -> enabled s e = true ->
  connectedPlayers (gameState (fst (handle s e)))
  = connectedPlayers (gameState s) + countChange e.
Proof.
  intros (_ & _ & Hc & _) He.
  destruct (Z.eq_dec (countChange e) 0) as [H0|H0].
  - destruct (handle_frame s e H0) as [-> _]. lia.
  - destruct e as [sid|sid d|sid d|sid foodId|sid eaten|sid d|sid|h d];
      cbn [countChange] in *; try congruence; cbn [handle].
    + destruct (onConnection_state sid s) as [_ ->]. proj. reflexivity.
    + destruct (onDisconnect_timers sid s) as (_ & _ & _ & -> & _).
      cbn [enabled] in He. apply bool_decide_eq_true in He.
      assert (Hpos : (1 <= size (sockets s))%nat).
      { destruct (size (sockets s)) eqn:E0; [|lia].
        apply size_empty_inv in E0. set_solver. }
      lia.
Qed.

End ServerFrames.

(** ** The server's claims *)

Section ServerClaims.

Import Server.
Open Scope Z_scope.

Lemma sampleLone_reachable : reachable sampleLone.
Proof.
  unfold sampleLone.
  apply reachable_step; [apply reachable_step; [apply reachable_boot|]|];
    vm_compute; reflexivity.
Qed.

Lemma samplePair_reachable : reachable samplePair.
Proof.
  unfold samplePair.
  apply reachable_step;
    [apply reachable_step; [apply sampleLone_reachable|]|];
    vm_compute; reflexivity.
Qed.

Lemma foodEaten_twice_witness :
  NoDup (food_id <$> foods (gameState sampleLone)) /\
  "1700000000003k3j9x0q2a" ∈ (food_id <$> foods (gameState sampleLone)) /\
  let '(s1, out1) := onFoodEaten "a" "1700000000003k3j9x0q2a" sampleLone in
  let '(s2, out2) := onFoodEaten "b" "1700000000003k3j9x0q2a" s1 in
  out1 = [mkEmit ToAll (MsgFoodRemoved "1700000000003k3j9x0q2a")] /\
  ("1700000000003k3j9x0q2a" ∉ (food_id <$> foods (gameState s1))) /\
  length (foods (gameState sampleLone)) = S (length (foods (gameState s1))) /\
  out2 = [] /\ s2 = s1 /\
  length (foods (gameState sampleLone)) = S (length (foods (gameState s2))).
Proof.
  assert (Hnd : NoDup (food_id <$> foods (gameState sampleLone)))
    by (apply (bool_decide_unpack _); vm_compute; exact I).
  assert (Hin : "1700000000003k3j9x0q2a"
                ∈ (food_id <$> foods (gameState sampleLone)))
    by (apply (bool_decide_unpack _); vm_compute; exact I).
  split; [exact Hnd|]. split; [exact Hin|].
  exact (foodEaten_twice sampleLone "a" "b" "1700000000003k3j9x0q2a" Hnd Hin).
Defined.

(** The sockets and the registry's keys after one event. *)
Lemma handle_sockets s e :
  sockets (fst (handle s e))
  = match e with
    | Connection sid => {[sid]} ∪ sockets s
    | Disconnect sid => sockets s ∖ {[sid]}
    | _ => sockets s
    end.
Proof.
  destruct e as [sid|sid d|sid d|sid foodId|sid eaten|sid d|sid|h d];
    try (apply (handle_frame s); reflexivity); cbn [handle].
  - destruct (onConnection_state sid s) as [-> _].
    rewrite (proj2 (startFoodSpawning_gameState _)). reflexivity.
  - unfold onDisconnect. cbn zeta.
    set (s1 := set_gameState _ _).
    destruct (startFoodSpawning_gameState s1) as [Hg Hs].
    destruct (players (gameState (startFoodSpawning s1)) !! sid);
      [destruct (0 <? _)|]; proj; rewrite Hs; reflexivity.
Qed.

Lemma handle_registry s e :
  dom (players (gameState (fst (handle s e))))
  = match e with
    | PlayerJoin sid _ => {[sid]} ∪ dom (players (gameState s))
    | Disconnect sid => dom (players (gameState s)) ∖ {[sid]}
    | _ => dom (players (gameState s))
    end.
Proof.
  destruct e as [sid|sid d|sid d|sid foodId|sid eaten|sid d|sid|h d];
    cbn [handle].
  - destruct (onConnection_state sid s) as [_ ->]. reflexivity.
  - unfold onPlayerJoin. cbn zeta.
    destruct (truthy (join_worldWidth d) && truthy (join_worldHeight d));
      proj; destruct (1 <? connectedPlayers (gameState s)); proj;
      apply dom_insert_L.
  - unfold onPlayerUpdate. cbn zeta.
    destruct (players (gameState s) !! sid) as [p|] eqn:Ep; [|reflexivity].
    assert (sid ∈ dom (players (gameState s))) by (apply elem_of_dom; eauto).
    destruct (1 <? connectedPlayers (gameState s)); proj;
      rewrite dom_insert_L; set_solver.
  - unfold onFoodEaten. cbn zeta. destruct (negb _); reflexivity.
  - unfold onPlayerEaten. cbn zeta.
    destruct (players (gameState s) !! eaten) as [p|] eqn:Ep;
      [|destruct (isInherited eaten); reflexivity].
    assert (eaten ∈ dom (players (gameState s)))
      by (apply elem_of_dom; eauto).
    proj. rewrite dom_insert_L. set_solver.
  - unfold onPlayerRespawn. cbn zeta.
    destruct (players (gameState s) !! sid) as [p|] eqn:Ep; [|reflexivity].
    assert (sid ∈ dom (players (gameState s))) by (apply elem_of_dom; eauto).
    destruct (1 <? connectedPlayers (gameState s)); proj;
      rewrite dom_insert_L; set_solver.
  - unfold onDisconnect. cbn zeta.
    set (s1 := set_gameState _ _).
    destruct (startFoodSpawning_gameState s1) as [Hg Hs].
    rewrite Hg. subst s1. proj.
    destruct (players (gameState s) !! sid) as [p|] eqn:Ep.
    + destruct (0 <? _); proj; rewrite ?Hg; proj; apply dom_delete_L.
    + proj. rewrite ?Hg. proj. apply not_elem_of_dom in Ep. set_solver.
  - unfold spawnTick.
    destruct (generateFood_frame d (gameState s)) as (G1 & _).
    destruct (generateFood d (gameState s)) as [gs newFood]. proj.
    destruct newFood; [destruct (0 <? connectedPlayers gs)|]; proj;
      rewrite G1; reflexivity.
Qed.

(** One event keeps the registry equal to the live sockets outside the
    handshake window. *)
Lemma handshake_step s e (window : gset string) :
  enabled s e = true ->
  window ⊆ sockets s ->
  dom (players (gameState s)) = sockets s ∖ window ->
  handshakeStep window e ⊆ sockets (fst (handle s e)) /\
  dom (players (gameState (fst (handle s e))))
  = sockets (fst (handle s e)) ∖ handshakeStep window e.
Proof.
  intros He Hw Hd. rewrite handle_sockets, handle_registry, Hd.
  destruct e as [sid|sid d|sid d|sid foodId|sid eaten|sid d|sid|h d];
    cbn [enabled handshakeStep] in *; apply bool_decide_eq_true in He;
    try (split; [exact Hw | reflexivity]).
  - split; [set_solver|]. apply set_eq. intros k.
    rewrite !elem_of_difference, !elem_of_union, !elem_of_singleton.
    destruct (decide (k = sid)) as [->|Hne]; [|tauto].
    split; [intros [Hk _]; contradiction | intros [_ Hk]; exfalso; tauto].
  - split; [set_solver|]. apply set_eq. intros k.
    rewrite !elem_of_union, !elem_of_difference, !elem_of_singleton.
    destruct (decide (k = sid)) as [->|Hne]; [|tauto].
    split; [intros _; split; [exact He | tauto] | intros _; left; reflexivity].
  - split; [set_solver|]. apply set_eq. intros k.
    rewrite !elem_of_difference, !elem_of_singleton. tauto.
Qed.

Lemma run_cons_fst s e es :
  fst (run s (e :: es)) = fst (run (fst (handle s e)) es).
Proof.
  cbn [run]. destruct (handle s e) as [s1 out1]. cbn [fst].
  destruct (run s1 es) as [s2 out2]. reflexivity.
Qed.

Lemma run_snoc_fst s es e :
  fst (run s (es ++ [e])) = fst (handle (fst (run s es)) e).
Proof.
  revert s. induction es as [|e0 es IH]; intros s.
  - cbn [app]. rewrite run_cons_fst. reflexivity.
  - cbn [app]. rewrite !run_cons_fst. apply IH.
Qed.

Lemma deliverable_snoc s es e :
  deliverable s es -> enabled (fst (run s es)) e = true ->
  deliverable s (es ++ [e]).
Proof.
  revert s. induction es as [|e0 es IH]; intros s Hd He.
  - cbn in *. split; [exact He | exact I].
  - cbn [app deliverable] in *. destruct Hd as [H0 Hd]. split; [exact H0|].
    apply IH; [exact Hd|]. rewrite run_cons_fst in He. exact He.
Qed.

(** The running server's states are the results of deliverable lists of
    events from start-up. *)
Lemma reachable_trace s :
  reachable s ->
  exists draws es, deliverable (boot draws) es /\ s = fst (run (boot draws) es).
Proof.
  induction 1 as [draws|s e _ (draws & es & Hd & ->) He].
  - exists draws, []. split; [cbn [deliverable]; exact I|].
    cbn [run fst]. reflexivity.
  - exists draws, (es ++ [e]). split.
    + apply deliverable_snoc; assumption.
    + symmetry. apply run_snoc_fst.
Qed.

Lemma handshake_run es : forall s (window : gset string),
  reachable s ->
  window ⊆ sockets s ->
  dom (players (gameState s)) = sockets s ∖ window ->
  deliverable s es ->
  let s' := fst (run s es) in
  let window' := fold_left handshakeStep es window in
  reachable s' /\ window' ⊆ sockets s' /\
  dom (players (gameState s')) = sockets s' ∖ window'.
Proof.
  induction es as [|e es IH]; intros s window Hr Hw Hd Hdel; cbn zeta.
  - cbn [run fold_left fst]. auto.
  - cbn [deliverable] in Hdel. destruct Hdel as [He Hdel].
    rewrite run_cons_fst. cbn [fold_left].
    destruct (handshake_step s e window He Hw Hd) as [Hw' Hd'].
    apply IH; [|exact Hw'|exact Hd'|exact Hdel].
    apply reachable_step; assumption.
Qed.

Lemma boot_empty draws :
  sockets (boot draws) = ∅ /\ players (gameState (boot draws)) = ∅.
Proof.
  unfold boot.
  destruct (startFoodSpawning_gameState
              {| gameState := seedFood draws gameState0;
                 foodSpawnInterval := None; timers := ∅;
                 nextTimer := O; sockets := ∅ |}) as [-> ->].
  proj. split; [reflexivity|]. apply seedFood_state.
Qed.

(** A set of sockets, the part of it inside the window and the rest. *)
Lemma window_sizes (live window registered : gset string) :
  window ⊆ live -> registered = live ∖ window ->
  size live = (size registered + size window)%nat /\
  (window = ∅ <-> live ⊆ registered) /\
  (window = ∅ <-> size live = size registered).
Proof.
  intros Hw ->.
  assert (Hsize : size live = (size (live ∖ window) + size window)%nat).
  { rewrite size_difference by exact Hw.
    pose proof (subseteq_size _ _ Hw). lia. }
  split; [exact Hsize|]. split.
  - split; [intros ->; set_solver|].
    intros Hq. apply set_eq. intros k. split; [|set_solver].
    intros Hk. exfalso. assert (Hks : k ∈ live) by set_solver.
    apply Hq in Hks. set_solver.
  - split; [intros ->; rewrite difference_empty_L; reflexivity|].
    intros E. assert (H0 : size window = 0%nat) by lia.
    apply size_empty_iff in H0. apply leibniz_equiv. exact H0.
Qed.

(** C9.  In every state of the running server [connectedPlayers] is the
    number of live connections, so it is never negative; each connection
    adds exactly one, each disconnection takes exactly one away and no
    other event changes it; the registered players all belong to live
    connections; and at a quiescent point, where every live connection
    has joined, [connectedPlayers] is the number of entries of
    [players].  Processing a [playerJoin] is what closes the window: it
    files the socket in the registry.  Along every list of events that
    leads to the state, the registry holds exactly the live sockets
    outside the handshake window, so [connectedPlayers] exceeds the
    number of entries by the number of sockets inside the window, and
    the two are equal exactly when no socket is inside it. *)
Theorem connectedPlayers_tracks_connections (s : Server.t) :
  reachable s ->
  let n := connectedPlayers (gameState s) in
  0 <= n /\
  n = Z.of_nat (size (sockets s)) /\
  dom (players (gameState s)) ⊆ sockets s /\
  (quiescent s -> n = Z.of_nat (size (players (gameState s)))) /\
  (forall e, enabled s e = true ->
     connectedPlayers (gameState (fst (handle s e))) = n + countChange e) /\
  (forall sid d,
     sid ∈ dom (players (gameState (fst (handle s (PlayerJoin sid d)))))) /\
  (exists draws es,
     deliverable (boot draws) es /\ s = fst (run (boot draws) es)) /\
  (forall draws es,
     deliverable (boot draws) es -> s = fst (run (boot draws) es) ->
     inHandshake es ⊆ sockets s /\
     dom (players (gameState s)) = sockets s ∖ inHandshake es /\
     n = Z.of_nat (size (players (gameState s)))
         + Z.of_nat (size (inHandshake es)) /\
     (inHandshake es = ∅ <-> quiescent s) /\
     (inHandshake es = ∅ <-> n = Z.of_nat (size (players (gameState s))))).
Proof.
  intros Hr. pose proof (reachable_invariant s Hr) as Hinv.
  pose proof Hinv as (Hm & Hl & Hc & Hd & Hp & Hf).
  cbn zeta. split; [lia|]. split; [exact Hc|]. split; [exact Hd|].
  split; [|split; [|split; [|split]]].
  - unfold quiescent. intros Hq.
    assert (Heq : dom (players (gameState s)) = sockets s) by set_solver.
    rewrite Hc, <- Heq, size_dom. reflexivity.
  - intros e He. apply handle_count; assumption.
  - intros sid d. rewrite handle_registry. set_solver.
  - apply reachable_trace. exact Hr.
  - intros draws es Hdel Hs.
    destruct (boot_empty draws) as [Hb1 Hb2].
    destruct (handshake_run es (boot draws) ∅ (reachable_boot draws))
      as (_ & Hw & Hdom); [apply empty_subseteq| |exact Hdel|].
    { rewrite Hb1, Hb2, dom_empty_L. symmetry. apply difference_diag_L. }
    cbn zeta in Hw, Hdom. fold (inHandshake es) in Hw, Hdom.
    rewrite <- Hs in Hw, Hdom.
    destruct (window_sizes (sockets s) (inHandshake es)
                (dom (players (gameState s))) Hw Hdom)
      as (Hsize & Hq & Hn).
    rewrite size_dom in Hsize, Hn.
    split; [exact Hw|]. split; [exact Hdom|]. split; [lia|].
    split; [exact Hq|]. rewrite Hn. lia.
Qed.

Lemma connectedPlayers_tracks_connections_witness :
  reachable samplePair /\
  let n := connectedPlayers (gameState samplePair) in
  0 <= n /\
  n = Z.of_nat (size (sockets samplePair)) /\
  dom (players (gameState samplePair)) ⊆ sockets samplePair /\
  (quiescent samplePair ->
   n = Z.of_nat (size (players (gameState samplePair)))) /\
  (forall e, enabled samplePair e = true ->
     connectedPlayers (gameState (fst (handle samplePair e)))
     = n + countChange e) /\
  (forall sid d,
     sid ∈ dom (players
                  (gameState (fst (handle samplePair (PlayerJoin sid d)))))) /\
  (exists draws es,
     deliverable (boot draws) es /\
     samplePair = fst (run (boot draws) es)) /\
  (forall draws es,
     deliverable (boot draws) es -> samplePair = fst (run (boot draws) es) ->
     inHandshake es ⊆ sockets samplePair /\
     dom (players (gameState samplePair))
     = sockets samplePair ∖ inHandshake es /\
     n = Z.of_nat (size (players (gameState samplePair)))
         + Z.of_nat (size (inHandshake es)) /\
     (inHandshake es = ∅ <-> quiescent samplePair) /\
     (inHandshake es = ∅
      <-> n = Z.of_nat (size (players (gameState samplePair))))).
Proof.
  split; [exact samplePair_reachable|].
  exact (connectedPlayers_tracks_connections samplePair samplePair_reachable).
Defined.

Example samplePair_counts :
  connectedPlayers (gameState samplePair) = 2 /\
  size (players (gameState samplePair)) = 2%nat /\
  connectedPlayers (gameState (fst (handle samplePair (Disconnect "a")))) = 1.
Proof. repeat split; vm_compute; reflexivity. Qed.

(** Inside and outside the window: after a second connection and before
    its [playerJoin] the counter is 2 with one player registered; once
    the [playerJoin] is processed both are 2. *)
Example handshake_window_scenario :
  let es := [Connection "a"; PlayerJoin "a" (sampleJoin "Ann");
             Connection "b"] in
  let s := fst (run (boot sampleDraws) es) in
  let s' := fst (handle s (PlayerJoin "b" (sampleJoin "Bob"))) in
  inHandshake es = {["b"]} /\
  connectedPlayers (gameState s) = 2 /\
  size (players (gameState s)) = 1%nat /\
  inHandshake (es ++ [PlayerJoin "b" (sampleJoin "Bob")]) = ∅ /\
  connectedPlayers (gameState s') = 2 /\
  size (players (gameState s')) = 2%nat.
Proof. repeat split; vm_compute; reflexivity. Qed.

(** C10.  The seeding loop leaves exactly 50 foods; in every state of the
    running server [maxFoodItems] is 100 and there are at most 100 foods;
    [generateFood] returns nothing and changes nothing when the
    collection is full; and no event other than [foodEaten] makes the
    collection shorter. *)
Theorem foods_bounded (s : Server.t) :
  reachable s ->
  (forall draws, length (foods (gameState (boot draws))) = 50%nat) /\
  maxFoodItems (gameState s) = 100 /\
  (0 <= length (foods (gameState s)) <= 100)%nat /\
  (forall d,
     Z.of_nat (length (foods (gameState s))) >= maxFoodItems (gameState s) ->
     generateFood d (gameState s) = (gameState s, None)) /\
  (forall e,
     (forall sid foodId, e <> FoodEaten sid foodId) ->
     (length (foods (gameState s))
      <= length (foods (gameState (fst (handle s e)))))%nat).
Proof.
  intros Hr. destruct (reachable_invariant s Hr) as (Hm & Hl & _).
  split.
  { intros draws. unfold boot.
    destruct (startFoodSpawning_gameState
                {| gameState := seedFood draws gameState0;
                   foodSpawnInterval := None; timers := ∅;
                   nextTimer := O; sockets := ∅ |}) as [-> _].
    proj. apply seedFood_state. }
  split; [exact Hm|]. split; [lia|]. split.
  - intros d. apply generateFood_full.
  - intros e. apply handle_foods_grow.
Qed.

Lemma foods_bounded_witness :
  reachable sampleLone /\
  (forall draws, length (foods (gameState (boot draws))) = 50%nat) /\
  maxFoodItems (gameState sampleLone) = 100 /\
  (0 <= length (foods (gameState sampleLone)) <= 100)%nat /\
  (forall d,
     Z.of_nat (length (foods (gameState sampleLone)))
     >= maxFoodItems (gameState sampleLone) ->
     generateFood d (gameState sampleLone) = (gameState sampleLone, None)) /\
  (forall e,
     (forall sid foodId, e <> FoodEaten sid foodId) ->
     (length (foods (gameState sampleLone))
      <= length (foods (gameState (fst (handle sampleLone e)))))%nat).
Proof.
  split; [exact sampleLone_reachable|].
  exact (foods_bounded sampleLone sampleLone_reachable).
Defined.

(** C4.  In every state of the running server the timer table is the one
    the count calls for: empty with no connection, one timer of period
    2000 with exactly one, one timer of period 500 with two or more.  A
    connection or a disconnection removes the timer that was running and,
    unless the count has fallen to 0, starts one under a handle that was
    not in the table, with the period of the new count; no other event
    touches the table. *)
Theorem spawn_timer_follows_count (s : Server.t) :
  reachable s ->
  let n := connectedPlayers (gameState s) in
  (n = 0 -> timers s = ∅) /\
  (n = 1 ->
   exists h, foodSpawnInterval s = Some h /\ timers s = {[ h := 2000 ]}) /\
  (2 <= n ->
   exists h, foodSpawnInterval s = Some h /\ timers s = {[ h := 500 ]}) /\
  (forall e, enabled s e = true -> countChange e <> 0 ->
     let s' := fst (handle s e) in
     let n' := connectedPlayers (gameState s') in
     n' = n + countChange e /\
     (forall h, foodSpawnInterval s = Some h -> timers s' !! h = None) /\
     timers s !! nextTimer s = None /\
     (n' = 0 -> timers s' = ∅) /\
     (n' <> 0 ->
      foodSpawnInterval s' = Some (nextTimer s) /\
      timers s' = {[ nextTimer s := if n' =? 1 then 2000 else 500 ]})) /\
  (forall e, countChange e = 0 -> timers (fst (handle s e)) = timers s).
Proof.
  intros Hr. pose proof (reachable_invariant s Hr) as Hinv.
  pose proof Hinv as (Hm & Hl & Hc & Hd & Hp & Hf).
  cbn zeta.
  assert (Hpol : forall t0 : Server.t,
             timerPolicy t0 ->
             (connectedPlayers (gameState t0) = 0 -> timers t0 = ∅) /\
             (connectedPlayers (gameState t0) <> 0 ->
              exists h, foodSpawnInterval t0 = Some h /\
                timers t0 = {[ h := if connectedPlayers (gameState t0) =? 1
                                    then 2000 else 500 ]})).
  { intros t0. unfold timerPolicy. cbn zeta.
    destruct (connectedPlayers (gameState t0) =? 0) eqn:E0.
    - apply Z.eqb_eq in E0. intros Ht. split; [intros _; exact Ht|].
      intros Hne. contradiction.
    - apply Z.eqb_neq in E0. intros Ht. split; [intros H0; contradiction|].
      intros _. exact Ht. }
  destruct (Hpol s Hp) as [P0 P1].
  split; [exact P0|]. split; [|split; [|split]].
  - intros H1. destruct P1 as (h & Hh & Ht); [lia|].
    rewrite H1 in Ht. eauto.
  - intros H2. destruct P1 as (h & Hh & Ht); [lia|].
    destruct (connectedPlayers (gameState s) =? 1) eqn:E1;
      [apply Z.eqb_eq in E1; lia|]. eauto.
  - intros e He Hne.
    pose proof (handle_count s e Hinv He) as Hcount.
    assert (Hfree : timers s !! nextTimer s = None).
    { destruct (timerPolicy_shape s Hp) as [->|(h & p & Hh & ->)].
      - apply lookup_empty.
      - apply lookup_singleton_ne. specialize (Hf h Hh). lia. }
    assert (Hstart : exists s1,
               timers (fst (handle s e)) = timers (startFoodSpawning s1) /\
               foodSpawnInterval (fst (handle s e))
               = foodSpawnInterval (startFoodSpawning s1) /\
               connectedPlayers (gameState s1)
               = connectedPlayers (gameState (fst (handle s e))) /\
               timers s1 = timers s /\
               foodSpawnInterval s1 = foodSpawnInterval s /\
               nextTimer s1 = nextTimer s).
    { destruct e as [sid|sid d|sid d|sid foodId|sid eaten|sid d|sid|h d];
        cbn [countChange] in Hne; try congruence; cbn [handle].
      - destruct (onConnection_state sid s) as [E Eg].
        eexists. rewrite E. split; [reflexivity|]. split; [reflexivity|].
        rewrite <- E, Eg. proj. repeat split.
      - destruct (onDisconnect_timers sid s) as (T & F & _ & C & _).
        eexists. split; [exact T|]. split; [exact F|].
        rewrite C. proj. repeat split. }
    destruct Hstart as (s1 & T & F & C & T1 & F1 & N1).
    destruct (startFoodSpawning_spec s1)
      as (Hg & _ & Hp' & _ & Hold & Hnew).
    { rewrite T1, F1. apply (timerPolicy_shape s Hp). }
    { rewrite F1, N1. exact Hf. }
    split; [exact Hcount|]. split.
    { intros h Hh. rewrite T. apply Hold. congruence. }
    split; [exact Hfree|].
    destruct (Hpol _ Hp') as [Q0 Q1]. rewrite Hg, C in Q0, Q1.
    split.
    + intros H0. rewrite T. apply Q0, H0.
    + intros H0. rewrite T, F.
      destruct (Q1 H0) as (h & Hh & Ht).
      assert (Hn : foodSpawnInterval (startFoodSpawning s1)
                   = Some (nextTimer s1))
        by (apply Hnew; rewrite C; exact H0).
      rewrite Hn in Hh. injection Hh as <-.
      rewrite N1 in Hn, Ht. split; [exact Hn | exact Ht].
  - intros e H0. apply (handle_frame s e H0).
Qed.

Lemma spawn_timer_follows_count_witness :
  reachable sampleLone /\
  let n := connectedPlayers (gameState sampleLone) in
  (n = 0 -> timers sampleLone = ∅) /\
  (n = 1 ->
   exists h, foodSpawnInterval sampleLone = Some h /\
             timers sampleLone = {[ h := 2000 ]}) /\
  (2 <= n ->
   exists h, foodSpawnInterval sampleLone = Some h /\
             timers sampleLone = {[ h := 500 ]}) /\
  (forall e, enabled sampleLone e = true -> countChange e <> 0 ->
     let s' := fst (handle sampleLone e) in
     let n' := connectedPlayers (gameState s') in
     n' = n + countChange e /\
     (forall h, foodSpawnInterval sampleLone = Some h -> timers s' !! h = None) /\
     timers sampleLone !! nextTimer sampleLone = None /\
     (n' = 0 -> timers s' = ∅) /\
     (n' <> 0 ->
      foodSpawnInterval s' = Some (nextTimer sampleLone) /\
      timers s' = {[ nextTimer sampleLone := if n' =? 1 then 2000 else 500 ]})) /\
  (forall e, countChange e = 0 ->
     timers (fst (handle sampleLone e)) = timers sampleLone).
Proof.
  split; [exact sampleLone_reachable|].
  exact (spawn_timer_follows_count sampleLone sampleLone_reachable).
Defined.

(** The scenario of the specification: from no connection, join, join,
    leave gives a count of 1; the period is 500 after the second join and
    back to 2000 after the leave. *)
Example join_join_leave :
  let s2 := fst (run (boot sampleDraws) [Connection "a"; Connection "b"]) in
  let s3 := fst (run s2 [Disconnect "a"]) in
  connectedPlayers (gameState (boot sampleDraws)) = 0 /\
  timers s2 = {[ 1%nat := 500 ]} /\
  connectedPlayers (gameState s3) = 1 /\
  timers s3 = {[ 2%nat := 2000 ]}.
Proof. repeat split; vm_compute; reflexivity. Qed.

(** The same with both players joined, down to an empty server. *)
Example spawn_period_scenario :
  timers (boot sampleDraws) = ∅ /\
  timers sampleLone = {[ 0%nat := 2000 ]} /\
  timers samplePair = {[ 1%nat := 500 ]} /\
  timers (fst (handle samplePair (Disconnect "b"))) = {[ 2%nat := 2000 ]} /\
  timers (fst (handle (fst (handle samplePair (Disconnect "b")))
                 (Disconnect "a"))) = ∅.
Proof. repeat split; vm_compute; reflexivity. Qed.

End ServerClaims.

(** ** The broadcast policy *)

Section Broadcast.

Import Server.
Open Scope Z_scope.








(** A lone player's join, move and respawn are stored and not sent. *)
Example lone_player_join_is_silent :
  snd (handle (fst (handle (boot sampleDraws) (Connection "a")))
         (PlayerJoin "a" (sampleJoin "Ann"))) = [] /\
  is_Some (players (gameState sampleLone) !! "a").
Proof. split; [vm_compute; reflexivity|]. vm_compute. eauto. Qed.

End Broadcast.

(** * Further properties of the code *)

(** ** The local player throughout play *)

Section Play.

Import PlayerFish PlayerLife.

Lemma Math_max_cases a b :
  (a <= b /\ Math_max a b = b) \/ (b < a /\ Math_max a b = a).
Proof.
  unfold Math_max. destruct (Qle_bool a b) eqn:E.
  - left. split; [now apply Qle_bool_iff | reflexivity].
  - right. split; [|reflexivity].
    apply Qnot_le_lt. intros H. apply Qle_bool_iff in H. congruence.
Qed.

Lemma Math_min_cases a b :
  (a <= b /\ Math_min a b = a) \/ (b < a /\ Math_min a b = b).
Proof.
  unfold Math_min. destruct (Qle_bool a b) eqn:E.
  - left. split; [now apply Qle_bool_iff | reflexivity].
  - right. split; [|reflexivity].
    apply Qnot_le_lt. intros H. apply Qle_bool_iff in H. congruence.
Qed.

Lemma Qdiv_lt_1 a b : 0 < b -> a < b -> a / b < 1.
Proof.
  intros Hb Hab. apply Qlt_shift_div_r; [exact Hb|]. lra.
Qed.

Lemma grow_invariant p :
  (1 <= sizeLevel p)%Z -> (0 <= fishNeededToGrow p)%Z ->
  1.5 <= baseSpeed p <= 3.5 -> 0 <= boostDrainRate p ->
  playInvariant (grow 1 p).
Proof.
  intros HL HF [Hs1 Hs2] HR. unfold playInvariant.
  cbn [grow sizeLevel fishEaten fishNeededToGrow growthProgress baseSpeed
       boostDrainRate].
  rewrite floor_grow.
  assert (H0 : (0 <= 3 * fishNeededToGrow p / 2)%Z)
    by (apply Z.div_pos; lia).
  split; [lia|]. split; [lra|]. split; [exact H0|]. split.
  { destruct (Z.eq_dec (3 * fishNeededToGrow p / 2)%Z 0%Z) as [E|E].
    - right. split; [reflexivity | exact E].
    - left. apply inject_Z_pos. lia. }
  split; [lra|]. split; [|exact HR].
  destruct (Math_max_cases 1.5 (baseSpeed p * 0.95)) as [[H ->]|[H ->]]; lra.
Qed.

Lemma eatFish_invariant amount p :
  0 <= amount -> playInvariant p -> playInvariant (eatFish amount p).
Proof.
  intros Ha (HL & HE & HF & HEF & HP & HS & HR). unfold eatFish. cbn zeta.
  destruct (geb (fishEaten p + amount) (inject_Z (fishNeededToGrow p))) eqn:E.
  - apply grow_invariant; assumption.
  - assert (E' : fishEaten p + amount < inject_Z (fishNeededToGrow p)).
    { apply Qnot_le_lt. intros H. apply geb_spec in H. congruence. }
    assert (Hpos : 0 < inject_Z (fishNeededToGrow p)) by lra.
    unfold playInvariant.
    cbn [sizeLevel fishEaten fishNeededToGrow growthProgress baseSpeed
         boostDrainRate].
    split; [exact HL|]. split; [lra|]. split; [exact HF|].
    split; [left; exact E'|]. split; [|split; assumption].
    split; [apply Qdiv_nonneg; [lra | exact Hpos]|].
    apply Qdiv_lt_1; assumption.
Qed.

Lemma updateBoost_playInvariant p :
  playInvariant p -> playInvariant (updateBoost p).
Proof.
  intros (HL & HE & HF & HEF & HP & HS & HR). unfold updateBoost.
  destruct (boosting p); cbn [negb]; [|repeat split; tauto].
  destruct (ltb 0 (fishEaten p)) eqn:Efe.
  - apply ltb_spec in Efe.
    assert (Hlt : fishEaten p < inject_Z (fishNeededToGrow p))
      by (destruct HEF as [H|[H _]]; [exact H | lra]).
    assert (Hpos : 0 < inject_Z (fishNeededToGrow p)) by lra.
    set (fe := Math_max 0 (fishEaten p
                           - boostDrainRate p * inject_Z (fishNeededToGrow p))).
    assert (Hfe : 0 <= fe /\ fe <= fishEaten p).
    { subst fe.
      assert (0 <= boostDrainRate p * inject_Z (fishNeededToGrow p))
        by (apply Qmult_le_0_compat; lra).
      destruct (Math_max_cases 0 (fishEaten p
                  - boostDrainRate p * inject_Z (fishNeededToGrow p)))
        as [[H1 ->]|[H1 ->]]; lra. }
    unfold playInvariant.
    cbn [sizeLevel fishEaten fishNeededToGrow growthProgress baseSpeed
         boostDrainRate]. fold fe.
    split; [exact HL|]. split; [tauto|]. split; [exact HF|].
    split; [left; lra|]. split; [|split; assumption].
    split; [apply Qdiv_nonneg; [tauto | exact Hpos]|].
    apply Qdiv_lt_1; [exact Hpos | lra].
  - destruct (1 <? sizeLevel p)%Z eqn:El.
    + apply Z.ltb_lt in El.
      destruct (shrink_fields p El) as (_ & Hl & _ & Hf & _).
      assert (Hbs : baseSpeed (snd (shrink p))
                    = Math_min 3.5 (baseSpeed p / 0.95)).
      { unfold shrink. destruct (sizeLevel p <=? 1)%Z eqn:E1;
          [apply Z.leb_le in E1; lia | reflexivity]. }
      assert (Hrate : boostDrainRate (snd (shrink p)) = boostDrainRate p).
      { unfold shrink. destruct (sizeLevel p <=? 1)%Z; reflexivity. }
      unfold playInvariant.
      cbn [sizeLevel fishEaten fishNeededToGrow growthProgress baseSpeed
           boostDrainRate].
      rewrite Hl, Hf, Hbs, Hrate.
      assert (H3 : (0 <= 2 * fishNeededToGrow p / 3)%Z)
        by (apply Z.div_pos; lia).
      pose proof (inject_Z_nonneg _ H3) as H3q.
      split; [lia|]. split; [lra|]. split; [exact H3|]. split.
      { destruct (Z.eq_dec (2 * fishNeededToGrow p / 3)%Z 0%Z) as [E|E].
        - right. rewrite E. split; [reflexivity | reflexivity].
        - left. assert (0 < inject_Z (2 * fishNeededToGrow p / 3))
            by (apply inject_Z_pos; lia). lra. }
      split; [lra|]. split; [|exact HR].
      assert (Hdiv : baseSpeed p <= baseSpeed p / 0.95).
      { apply Qle_shift_div_l; lra. }
      destruct (Math_min_cases 3.5 (baseSpeed p / 0.95)) as [[H ->]|[H ->]];
        lra.
    + unfold stopBoost, playInvariant.
      cbn [sizeLevel fishEaten fishNeededToGrow growthProgress baseSpeed
           boostDrainRate].
      repeat split; tauto.
Qed.

Lemma update_playInvariant elastic p :
  playInvariant p -> playInvariant (update elastic p).
Proof.
  intros H. unfold update.
  destruct (negb (isAlive p)); [exact H|].
  pose proof (updateBoost_playInvariant p H) as H'.
  destruct (active (growthAnimation (updateBoost p))); exact H'.
Qed.

Lemma respawn_invariant p :
  0 <= boostDrainRate p -> playInvariant (respawn p).
Proof.
  intros HR. unfold playInvariant, respawn.
  cbn [sizeLevel fishEaten fishNeededToGrow growthProgress baseSpeed
       boostDrainRate].
  repeat split; try lia; try lra; try exact HR.
  left. reflexivity.
Qed.

Lemma reset_invariant p :
  0 <= boostDrainRate p -> playInvariant (reset p).
Proof.
  intros HR. unfold playInvariant, reset.
  cbn [sizeLevel fishEaten fishNeededToGrow growthProgress baseSpeed
       boostDrainRate].
  repeat split; try lia; try lra; try exact HR.
  left. reflexivity.
Qed.

Lemma playStep_invariant elastic p i :
  eatsNonNegative i -> playInvariant p -> playInvariant (playStep elastic p i).
Proof.
  intros Hi H. destruct i as [amount|[|]| | | |]; cbn [playStep].
  - now apply eatFish_invariant.
  - unfold startBoost. destruct (negb (isAlive p)); exact H.
  - exact H.
  - now apply update_playInvariant.
  - exact H.
  - apply respawn_invariant. apply H.
  - apply reset_invariant. apply H.
Qed.

Lemma new_invariant : playInvariant new.
Proof.
  unfold playInvariant. cbn. repeat split; try lia; try lra;
    try (intros E; discriminate E).
  left. reflexivity.
Qed.

(** X1.  Throughout play from a new player (eating non-negative amounts,
    pressing and releasing the boost button, frames, deaths, respawns and
    resets)
    the size level is at least 1, [fishEaten] is not negative and stays
    below [fishNeededToGrow] (or both are 0), [growthProgress] lies in
    [0, 1), and the base speed stays between 1.5 and 3.5. *)
Theorem play_keeps_growth_state (elastic : Q -> Q) (inputs : list PlayInput) :
  Forall eatsNonNegative inputs ->
  let p := play elastic inputs new in
  (1 <= sizeLevel p)%Z /\
  0 <= fishEaten p /\
  (fishEaten p < inject_Z (fishNeededToGrow p) \/
   (fishEaten p == 0 /\ fishNeededToGrow p = 0%Z)) /\
  (0 <= growthProgress p /\ growthProgress p < 1) /\
  (1.5 <= baseSpeed p /\ baseSpeed p <= 3.5).
Proof.
  intros Hin. cbn zeta.
  assert (H : playInvariant (play elastic inputs new)).
  { unfold play. generalize new_invariant. generalize new.
    induction Hin as [|i inputs Hi _ IH]; intros p Hp; [exact Hp|].
    cbn [fold_left]. apply IH, playStep_invariant; assumption. }
  destruct H as (H1 & H2 & _ & H4 & H5 & H6 & _). tauto.
Qed.

Lemma play_keeps_growth_state_witness :
  let inputs := [Eat 4; Button true; Eat 1; FrameUpdate; FrameUpdate;
                 Button false; Eat (1 # 10); Die; Respawn; Eat 5] in
  Forall eatsNonNegative inputs /\
  let p := play (fun x => x) inputs new in
  (1 <= sizeLevel p)%Z /\
  0 <= fishEaten p /\
  (fishEaten p < inject_Z (fishNeededToGrow p) \/
   (fishEaten p == 0 /\ fishNeededToGrow p = 0%Z)) /\
  (0 <= growthProgress p /\ growthProgress p < 1) /\
  (1.5 <= baseSpeed p /\ baseSpeed p <= 3.5).
Proof.
  cbn zeta.
  assert (H : Forall eatsNonNegative
                [Eat 4; Button true; Eat 1; FrameUpdate; FrameUpdate;
                 Button false; Eat (1 # 10); Die; Respawn; Eat 5]).
  { repeat constructor; cbn; lra. }
  split; [exact H|].
  exact (play_keeps_growth_state (fun x => x) _ H).
Defined.

(** One step of play other than a respawn or a reset does not lower the
    score. *)
Lemma eatFish_score (amount : Q) (p : PlayerFish.t) :
  score (eatFish amount p) = score p + amount * 10 * inject_Z (sizeLevel p).
Proof.
  unfold eatFish. cbn zeta.
  destruct (geb (fishEaten p + amount) (inject_Z (fishNeededToGrow p)));
    reflexivity.
Qed.

Lemma update_score elastic p : score (update elastic p) = score p.
Proof.
  unfold update. destruct (negb (isAlive p)); [reflexivity|].
  assert (E : score (updateBoost p) = score p).
  { unfold updateBoost. destruct (boosting p); cbn [negb]; [|reflexivity].
    destruct (ltb 0 (fishEaten p)); [reflexivity|].
    destruct (1 <? sizeLevel p)%Z; [|reflexivity].
    cbn [score]. unfold shrink.
    destruct (sizeLevel p <=? 1)%Z; reflexivity. }
  destruct (active (growthAnimation (updateBoost p)));
    cbn [updateGrowthAnimation score]; rewrite E; reflexivity.
Qed.

Lemma playStep_score elastic p i :
  eatsNonNegative i -> lowersScore i = false -> (1 <= sizeLevel p)%Z ->
  score p <= score (playStep elastic p i).
Proof.
  intros Hi Hr HL. destruct i as [amount|[|]| | | |]; cbn [playStep];
    try discriminate Hr.
  - rewrite eatFish_score. cbn in Hi.
    assert (1 <= inject_Z (sizeLevel p))
      by (change 1 with (inject_Z 1); now rewrite <- Zle_Qle).
    nra.
  - unfold startBoost. destruct (negb (isAlive p)); cbn [score]; lra.
  - cbn [stopBoost score]. lra.
  - rewrite update_score. lra.
  - cbn [die score]. lra.
Qed.

Lemma floor_half_nonneg (q : Q) :
  0 <= q ->
  0 <= inject_Z (Math_floor (q / 2)) /\ inject_Z (Math_floor (q / 2)) <= q.
Proof.
  intros Hq. unfold Math_floor.
  assert (H2 : 0 <= q / 2) by (apply Qdiv_nonneg; lra).
  split.
  - apply inject_Z_nonneg. rewrite <- (Qfloor_Z 0).
    apply Qfloor_resp_le. exact H2.
  - pose proof (Qfloor_le (q / 2)) as Hf.
    assert (E : q / 2 == q * (1 # 2)) by reflexivity.
    lra.
Qed.

Lemma playStep_score_nonneg elastic p i :
  eatsNonNegative i -> (1 <= sizeLevel p)%Z ->
  0 <= score p -> 0 <= score (playStep elastic p i).
Proof.
  intros Hi HL Hs.
  destruct (lowersScore i) eqn:E.
  - destruct i; try discriminate E; cbn [playStep].
    + cbn [respawn score]. apply floor_half_nonneg. exact Hs.
    + cbn [reset score]. lra.
  - pose proof (playStep_score elastic p i Hi E HL). lra.
Qed.

(** X2.  [eatFish] with an amount that is not negative, [startBoost],
    [stopBoost], [update] and [die] never lower the score: a play made
    of them ends with a score at least the one it started with.
    [respawn] and [reset] do lower it: [respawn] leaves the floor of half
    the score and [reset] leaves 0, each less than a positive score and
    neither above a score that is not negative, so such a score stays
    not negative through any play, these two included. *)
Theorem score_never_decreases (elastic : Q -> Q) (inputs : list PlayInput)
    (p : PlayerFish.t) :
  playInvariant p ->
  Forall eatsNonNegative inputs ->
  (Forall (fun i => lowersScore i = false) inputs ->
   score p <= score (play elastic inputs p)) /\
  (0 <= score p -> 0 <= score (play elastic inputs p)) /\
  (0 <= score p ->
   score (respawn p) <= score p /\ score (reset p) <= score p) /\
  (0 < score p ->
   score (respawn p) < score p /\ score (reset p) < score p).
Proof.
  intros Hp Hin. split; [|split; [|split]].
  - revert p Hp.
    induction Hin as [|i inputs Hi _ IH]; intros p Hp Hr.
    + cbn. lra.
    + apply Forall_cons in Hr. destruct Hr as [Hr1 Hr].
      unfold play. cbn [fold_left].
      apply Qle_trans with (score (playStep elastic p i)).
      * apply playStep_score; [assumption..|apply Hp].
      * apply IH; [|exact Hr]. now apply playStep_invariant.
  - revert p Hp.
    induction Hin as [|i inputs Hi _ IH]; intros p Hp Hs.
    + exact Hs.
    + unfold play. cbn [fold_left]. apply IH.
      * now apply playStep_invariant.
      * apply playStep_score_nonneg; [exact Hi | apply Hp | exact Hs].
  - intros Hs. cbn [respawn reset score].
    split; [apply floor_half_nonneg; exact Hs | exact Hs].
  - intros Hs. cbn [respawn reset score]. split; [|exact Hs].
    unfold Math_floor. pose proof (Qfloor_le (score p / 2)) as Hf.
    assert (E : score p / 2 == score p * (1 # 2)) by reflexivity.
    lra.
Qed.

Lemma score_never_decreases_witness :
  let inputs := [Eat 4; Button true; Eat 1; FrameUpdate; FrameUpdate;
                 Button false; Eat (1 # 10); Die] in
  let p := eatFish 2 new in
  (Forall (fun i => lowersScore i = false) inputs ->
   score p <= score (play (fun x => x) inputs p)) /\
  (0 <= score p -> 0 <= score (play (fun x => x) inputs p)) /\
  (0 <= score p ->
   score (respawn p) <= score p /\ score (reset p) <= score p) /\
  (0 < score p ->
   score (respawn p) < score p /\ score (reset p) < score p).
Proof.
  cbn zeta.
  apply (score_never_decreases (fun x => x)).
  - apply (playStep_invariant (fun x => x) new (Eat 2)); [cbn; lra|].
    exact new_invariant.
  - repeat constructor; cbn; lra.
Defined.

(** The game's [reset()] and the player's [respawn()] on a player who has
    eaten twice: the score goes from 20 to 0 and to 10. *)
Example reset_and_respawn_lower_score :
  let p := eatFish 1 (eatFish 1 new) in
  score p == 20 /\ score (reset p) == 0 /\ score (respawn p) == 10 /\
  lowersScore Reset = true /\ lowersScore Respawn = true.
Proof. repeat split; vm_compute; reflexivity. Qed.

End Play.

(** ** Who eats whom *)

Section Collisions.

Import PlayerFish PlayerLife.

(** X3.  When the local player (of positive radius) touches an enemy,
    something always happens: the branch in which the player eats the
    enemy is taken exactly when the enemy's radius times 0.99 is below the
    player's, which includes enemies of the same size and up to about 1%
    larger, and the branch in which the player dies otherwise.  The case
    where neither eats the other is never reached. *)
Theorem enemy_collision_always_resolves (p : PlayerFish.t) (enemyRadius : Q) :
  0 < radius p ->
  (enemyRadius * 0.99 < radius p ->
   collideWithEnemy p enemyRadius = PlayerEats) /\
  (radius p <= enemyRadius * 0.99 ->
   collideWithEnemy p enemyRadius = PlayerEaten) /\
  collideWithEnemy p enemyRadius <> NoAction.
Proof.
  intros Hp. unfold collideWithEnemy.
  destruct (canEat p enemyRadius) eqn:E.
  - apply ltb_spec in E. split; [reflexivity|].
    split; [intros H; lra | discriminate].
  - apply ltb_false in E.
    assert (B : canBeEatenBy p enemyRadius = true)
      by (apply ltb_spec; lra).
    rewrite B. split; [intros H; lra|]. split; [reflexivity | discriminate].
Qed.

Lemma enemy_collision_always_resolves_witness :
  let p := levelUp (fun x => x) new in
  0 < radius p /\
  (22 * 0.99 < radius p ->
   collideWithEnemy p 22 = PlayerEats) /\
  (radius p <= 22 * 0.99 ->
   collideWithEnemy p 22 = PlayerEaten) /\
  collideWithEnemy p 22 <> NoAction.
Proof.
  cbn zeta.
  assert (H : 0 < radius (levelUp (fun x => x) new))
    by (vm_compute; reflexivity).
  split; [exact H|].
  exact (enemy_collision_always_resolves (levelUp (fun x => x) new) 22 H).
Defined.

(** X4.  The two tests of the local player and of remote players, with
    threshold 0.99, can both succeed: two fish of positive radius within
    1% of each other can each eat the other; and at least one always
    succeeds.  The AI tests, with threshold 1.05, never both succeed, and
    both fail exactly when neither radius exceeds the other by more than
    5%. *)
Theorem edibility_tests_overlap (p : PlayerFish.t) (a : AIPlayer.t)
    (other : Q) :
  0 < radius p -> 0 <= AIPlayer.radius a -> 0 <= other ->
  (canEat p other = true /\ canBeEatenBy p other = true <->
   other * 0.99 < radius p /\ radius p * 0.99 < other) /\
  (canEat p other = true \/ canBeEatenBy p other = true) /\
  ~ (AIPlayer.canEat a other = true /\ AIEdibility.canBeEatenBy a other = true) /\
  (AIPlayer.canEat a other = false /\ AIEdibility.canBeEatenBy a other = false <->
   AIPlayer.radius a <= other * 1.05 /\ other <= AIPlayer.radius a * 1.05).
Proof.
  intros Hp Ha Ho. unfold canEat, canBeEatenBy, AIPlayer.canEat,
    AIEdibility.canBeEatenBy.
  rewrite !ltb_spec, !ltb_false. split; [tauto|]. split.
  - destruct (Qlt_le_dec (other * 0.99) (radius p)) as [H|H];
      [now left | right; lra].
  - split; [intros [H1 H2]; lra | tauto].
Qed.

Lemma edibility_tests_overlap_witness :
  let p := levelUp (fun x => x) new in
  let a := AIPlayer.new (Some 2%Z) 1 in
  0 < radius p /\ 0 <= AIPlayer.radius a /\ 0 <= 22 /\
  (canEat p 22 = true /\ canBeEatenBy p 22 = true <->
   22 * 0.99 < radius p /\ radius p * 0.99 < 22) /\
  (canEat p 22 = true \/ canBeEatenBy p 22 = true) /\
  ~ (AIPlayer.canEat a 22 = true /\ AIEdibility.canBeEatenBy a 22 = true) /\
  (AIPlayer.canEat a 22 = false /\ AIEdibility.canBeEatenBy a 22 = false <->
   AIPlayer.radius a <= 22 * 1.05 /\ 22 <= AIPlayer.radius a * 1.05).
Proof.
  cbn zeta.
  assert (H1 : 0 < radius (levelUp (fun x => x) new))
    by (vm_compute; reflexivity).
  assert (H2 : 0 <= AIPlayer.radius (AIPlayer.new (Some 2%Z) 1))
    by (vm_compute; discriminate).
  assert (H3 : 0 <= 22) by (vm_compute; discriminate).
  split; [exact H1|]. split; [exact H2|]. split; [exact H3|].
  exact (edibility_tests_overlap (levelUp (fun x => x) new)
           (AIPlayer.new (Some 2%Z) 1) 22 H1 H2 H3).
Defined.

(** X5.  A level-up raises [fishNeededToGrow] exactly when it is at least
    2: at 0 and at 1 it stays where it is, so the next level costs no
    more than this one. *)
Theorem grow_raises_threshold (p : PlayerFish.t) :
  (0 <= fishNeededToGrow p)%Z ->
  ((fishNeededToGrow p < fishNeededToGrow (grow 1 p))%Z <->
   (2 <= fishNeededToGrow p)%Z) /\
  ((fishNeededToGrow p <= 1)%Z ->
   fishNeededToGrow (grow 1 p) = fishNeededToGrow p).
Proof.
  intros Hf. cbn [grow fishNeededToGrow]. rewrite floor_grow.
  pose proof (Z.div_mod (3 * fishNeededToGrow p) 2 ltac:(lia)) as Hd.
  pose proof (Z.mod_pos_bound (3 * fishNeededToGrow p) 2 ltac:(lia)) as Hb.
  split; [split|]; lia.
Qed.

Lemma grow_raises_threshold_witness :
  (0 <= fishNeededToGrow new)%Z /\
  ((fishNeededToGrow new < fishNeededToGrow (grow 1 new))%Z <->
   (2 <= fishNeededToGrow new)%Z) /\
  ((fishNeededToGrow new <= 1)%Z ->
   fishNeededToGrow (grow 1 new) = fishNeededToGrow new).
Proof.
  assert (H : (0 <= fishNeededToGrow new)%Z) by (cbn; lia).
  split; [exact H | exact (grow_raises_threshold new H)].
Defined.

(** X6.  The clamp at the end of [update()] keeps a coordinate within
    [margin, world - margin] when the world is at least two margins wide,
    leaves a coordinate already in that range alone, and pins it at
    [margin] when the world is narrower than that. *)
Theorem clampToWorld_bounds (margin world x : Q) :
  (margin <= world - margin ->
   margin <= clampToWorld margin world x <= world - margin) /\
  (margin <= x <= world - margin -> clampToWorld margin world x == x) /\
  (world - margin < margin -> clampToWorld margin world x == margin).
Proof.
  unfold clampToWorld.
  destruct (Math_min_cases (world - margin) x) as [[H1 E1]|[H1 E1]];
    rewrite E1;
    [destruct (Math_max_cases margin (world - margin)) as [[H2 E2]|[H2 E2]]
    |destruct (Math_max_cases margin x) as [[H2 E2]|[H2 E2]]];
    rewrite E2; repeat split; intros; lra.
Qed.

End Collisions.

(** ** Random draws *)

Section RandomDraws.

Lemma floor_scaled_range (r : Q) (n : Z) :
  0 <= r -> r < 1 -> (1 <= n)%Z ->
  (0 <= Math_floor (r * inject_Z n) <= n - 1)%Z.
Proof.
  intros H0 H1 Hn. unfold Math_floor.
  assert (Hq : 0 < inject_Z n) by (apply inject_Z_pos; lia).
  split.
  - rewrite <- (Qfloor_Z 0). apply Qfloor_resp_le. change (inject_Z 0) with 0.
    apply Qmult_le_0_compat; lra.
  - assert (Hlt : r * inject_Z n < inject_Z n) by nra.
    pose proof (Qfloor_le (r * inject_Z n)) as Hf.
    assert (Hz : inject_Z (Qfloor (r * inject_Z n)) < inject_Z n) by lra.
    rewrite <- Zlt_Qlt in Hz. lia.
Qed.

Lemma random_bounds (r min max : Q) :
  0 <= r -> r < 1 -> min <= max ->
  min <= Utils.random r min max /\ Utils.random r min max < max + 1.
Proof.
  intros H0 H1 Hm. unfold Utils.random, Math_floor.
  set (t := r * (max - min + 1)).
  assert (Ht0 : 0 <= t) by (subst t; apply Qmult_le_0_compat; lra).
  assert (Ht1 : t < max - min + 1) by (subst t; nra).
  assert (Hf0 : (0 <= Qfloor t)%Z).
  { rewrite <- (Qfloor_Z 0). apply Qfloor_resp_le. exact Ht0. }
  pose proof (Qfloor_le t) as Hf1.
  assert (Hq : 0 <= inject_Z (Qfloor t)) by (apply inject_Z_nonneg; exact Hf0).
  split; lra.
Qed.

Lemma random_integer (r : Q) (min max : Z) :
  0 <= r -> r < 1 -> (min <= max)%Z ->
  exists k : Z,
    Utils.random r (inject_Z min) (inject_Z max) == inject_Z k /\
    (min <= k <= max)%Z.
Proof.
  intros H0 H1 Hm. unfold Utils.random.
  assert (E : inject_Z max - inject_Z min + 1 == inject_Z (max - min + 1)).
  { unfold Zminus. rewrite !inject_Z_plus, inject_Z_opp. ring. }
  assert (Ef : Math_floor (r * (inject_Z max - inject_Z min + 1))
               = Math_floor (r * inject_Z (max - min + 1))).
  { unfold Math_floor. apply Qfloor_comp. rewrite E. reflexivity. }
  rewrite Ef.
  pose proof (floor_scaled_range r (max - min + 1) H0 H1 ltac:(lia)) as Hr.
  set (fl := Math_floor (r * inject_Z (max - min + 1))) in *.
  exists (fl + min)%Z.
  split; [rewrite inject_Z_plus; reflexivity | lia].
Qed.

(** X7.  For a draw [r] of [Math.random()] in [0, 1), [random(min, max)]
    with integer bounds [min <= max] is an integer between [min] and
    [max], both included.  With bounds that are not integers, as those of
    the food positions, it lies from [min] to less than [max + 1]. *)
Theorem random_in_range (r : Q) :
  0 <= r -> r < 1 ->
  (forall min max : Z,
     (min <= max)%Z ->
     exists k : Z,
       Utils.random r (inject_Z min) (inject_Z max) == inject_Z k /\
       (min <= k <= max)%Z) /\
  (forall min max : Q,
     min <= max ->
     min <= Utils.random r min max /\ Utils.random r min max < max + 1).
Proof.
  intros H0 H1. split.
  - intros min max Hm. exact (random_integer r min max H0 H1 Hm).
  - intros min max Hm. exact (random_bounds r min max H0 H1 Hm).
Qed.

Lemma random_in_range_witness :
  (forall min max : Z,
     (min <= max)%Z ->
     exists k : Z,
       Utils.random (2 # 3) (inject_Z min) (inject_Z max) == inject_Z k /\
       (min <= k <= max)%Z) /\
  (forall min max : Q,
     min <= max ->
     min <= Utils.random (2 # 3) min max /\
     Utils.random (2 # 3) min max < max + 1).
Proof.
  apply (random_in_range (2 # 3)).
  - vm_compute. discriminate.
  - vm_compute. reflexivity.
Defined.

(** X8.  For a draw in [0, 1) the server's [getRandomFoodColor] always
    returns one of its six colours, never [undefined]; so every food
    [generateFood] creates has a colour. *)
Theorem getRandomFoodColor_defined (r : Q) :
  0 <= r -> r < 1 ->
  exists c,
    Server.getRandomFoodColor r = Some c /\ c ∈ Server.foodColors /\
    forall d gs f,
      Server.draw_color d = r ->
      snd (Server.generateFood d gs) = Some f ->
      Server.food_color f = Some c.
Proof.
  intros H0 H1. unfold Server.getRandomFoodColor.
  pose proof (floor_scaled_range r
                (Z.of_nat (length Server.foodColors)) H0 H1 ltac:(cbn; lia))
    as Hr.
  set (i := Z.to_nat
              (Math_floor (r * inject_Z (Z.of_nat (length Server.foodColors))))).
  assert (Hi : (i < length Server.foodColors)%nat) by (subst i; lia).
  destruct (lookup_lt_is_Some_2 Server.foodColors i Hi) as [c Hc].
  exists c. split; [exact Hc|]. split.
  - apply list_elem_of_lookup. eauto.
  - intros d gs f Hd. unfold Server.generateFood.
    destruct (_ >=? _)%Z; cbn [snd]; [discriminate|].
    intros [= <-]. cbn [Server.food_color]. rewrite Hd.
    exact Hc.
Qed.

Lemma getRandomFoodColor_defined_witness :
  0 <= (1 # 3) /\ (1 # 3) < 1 /\
  exists c,
    Server.getRandomFoodColor (1 # 3) = Some c /\ c ∈ Server.foodColors /\
    forall d gs f,
      Server.draw_color d = (1 # 3) ->
      snd (Server.generateFood d gs) = Some f ->
      Server.food_color f = Some c.
Proof.
  assert (H0 : 0 <= (1 # 3)) by (vm_compute; discriminate).
  assert (H1 : (1 # 3) < 1) by (vm_compute; reflexivity).
  split; [exact H0|]. split; [exact H1|].
  exact (getRandomFoodColor_defined (1 # 3) H0 H1).
Defined.

End RandomDraws.

(** ** Enemies and the growth curve *)

Section Enemies.

Import PlayerFish PlayerLife.

(** The radius loop does not run below level 2 and then grows with every
    level. *)
Lemma radiusLoop_floor base L : (L <= 1)%Z -> radiusLoop base L = base.
Proof.
  intros HL. unfold radiusLoop.
  replace (Z.to_nat (L - 1)) with O by lia. reflexivity.
Qed.

Lemma radiusLoop_succ base L :
  (1 <= L)%Z ->
  radiusLoop base (L + 1) == radiusLoop base L + inject_Z (5 + L / 2 * 2).
Proof.
  intros HL. unfold radiusLoop. rewrite !growthLoop_sum.
  replace (Z.to_nat (L + 1 - 1)) with (S (Z.to_nat (L - 1))) by lia.
  rewrite sumDelta_snoc.
  replace (1 + Z.of_nat (Z.to_nat (L - 1)))%Z with L by lia.
  rewrite inject_Z_plus. unfold Spec.delta. ring.
Qed.

(** X9.  The radius that [EnemyFish], [AIPlayer] and the remote-player
    reconstruction compute from a size level is the base radius up to
    level 1 and from there strictly increasing in the level, by at least 5
    per level. *)
Theorem radiusLoop_increasing (base : Q) (L : Z) :
  ((L <= 1)%Z -> radiusLoop base L = base) /\
  ((1 <= L)%Z -> radiusLoop base L + 5 <= radiusLoop base (L + 1)) /\
  base <= radiusLoop base L.
Proof.
  split; [apply radiusLoop_floor|]. split.
  - intros HL. rewrite radiusLoop_succ by exact HL.
    assert (H : (5 <= 5 + L / 2 * 2)%Z).
    { pose proof (Z.div_pos L 2 ltac:(lia) ltac:(lia)). lia. }
    rewrite Zle_Qle in H. change (inject_Z 5) with 5 in H. lra.
  - unfold radiusLoop. rewrite growthLoop_sum.
    assert (H : forall n i, (1 <= i)%Z -> (0 <= Spec.sumDelta n i)%Z).
    { induction n as [|n IH]; intros i Hi; cbn [Spec.sumDelta]; [lia|].
      pose proof (delta_pos i ltac:(lia)). specialize (IH (i + 1)%Z ltac:(lia)).
      lia. }
    specialize (H (Z.to_nat (L - 1)) 1%Z ltac:(lia)).
    rewrite Zle_Qle in H. change (inject_Z 0) with 0 in H. lra.
Qed.

(** X10.  An enemy fish one size level above a local player who is on the
    growth curve has exactly the player's radius, so the player eats it
    on contact. *)
Theorem enemy_one_level_above_is_edible
    (elastic : Q -> Q) (n : nat) (sizeRoll : Q) (draw playerSizeLevel : Z) :
  let p := Nat.iter n (levelUp elastic) new in
  let e := EnemyFish.determineSizeRelativeToPlayer sizeRoll draw playerSizeLevel in
  EnemyFish.sizeLevel e = (sizeLevel p + 1)%Z ->
  EnemyFish.radius e == radius p /\
  canEat p (EnemyFish.radius e) = true /\
  collideWithEnemy p (EnemyFish.radius e) = PlayerEats.
Proof.
  cbn zeta. intros He.
  destruct (player_radius_follows_curve elastic n) as (HL & _ & HR).
  cbn zeta in HL, HR.
  assert (Hrad : EnemyFish.radius
                   (EnemyFish.determineSizeRelativeToPlayer
                      sizeRoll draw playerSizeLevel)
                 == radius (Nat.iter n (levelUp elastic) new)).
  { assert (E : EnemyFish.radius
                  (EnemyFish.determineSizeRelativeToPlayer
                     sizeRoll draw playerSizeLevel)
                = radiusLoop 10
                    (EnemyFish.sizeLevel
                       (EnemyFish.determineSizeRelativeToPlayer
                          sizeRoll draw playerSizeLevel)))
      by reflexivity.
    rewrite E, He, HL, HR.
    pose proof (radiusLoop_lags 10 (1 + Z.of_nat n + 1) ltac:(lia)) as Hl.
    rewrite radiusForLevel_succ in Hl by lia.
    unfold Zminus in Hl. rewrite !inject_Z_plus in Hl.
    rewrite inject_Z_opp in Hl. change (inject_Z 10) with 10 in Hl. lra. }
  assert (Hpos : 0 < radius (Nat.iter n (levelUp elastic) new)).
  { rewrite HR. apply inject_Z_pos.
    unfold Spec.radiusForLevel.
    assert (H : forall m i, (1 <= i)%Z -> (0 <= Spec.sumDelta m i)%Z).
    { induction m as [|m IH]; intros i Hi; cbn [Spec.sumDelta]; [lia|].
      pose proof (delta_pos i ltac:(lia)).
      specialize (IH (i + 1)%Z ltac:(lia)). lia. }
    specialize (H (Z.to_nat (1 + Z.of_nat n - 1)) 2%Z ltac:(lia)). lia. }
  assert (Hc : canEat (Nat.iter n (levelUp elastic) new)
                 (EnemyFish.radius
                    (EnemyFish.determineSizeRelativeToPlayer
                       sizeRoll draw playerSizeLevel)) = true).
  { apply ltb_spec. rewrite Hrad. lra. }
  split; [exact Hrad|]. split; [exact Hc|].
  unfold collideWithEnemy. rewrite Hc. reflexivity.
Qed.

Lemma enemy_one_level_above_is_edible_witness :
  let p := Nat.iter 2 (levelUp (fun x => x)) new in
  let e := EnemyFish.determineSizeRelativeToPlayer (7 # 10) 1 3 in
  EnemyFish.sizeLevel e = (sizeLevel p + 1)%Z /\
  EnemyFish.radius e == radius p /\
  canEat p (EnemyFish.radius e) = true /\
  collideWithEnemy p (EnemyFish.radius e) = PlayerEats.
Proof.
  cbn zeta.
  assert (H : EnemyFish.sizeLevel
                (EnemyFish.determineSizeRelativeToPlayer (7 # 10) 1 3)
              = (sizeLevel (Nat.iter 2 (levelUp (fun x => x)) new) + 1)%Z)
    by (vm_compute; reflexivity).
  split; [exact H|].
  exact (enemy_one_level_above_is_edible (fun x => x) 2 (7 # 10) 1 3 H).
Defined.

End Enemies.

(** ** More about the server *)

Section ServerMore.

Import Server ServerWorld.
Open Scope Z_scope.

(** X11.  Reports that name something the server does not know change
    nothing.  A [playerUpdate] or [playerRespawn] from a socket that has
    not joined (a socket id is none of the inherited property names) and
    a [foodEaten] naming an absent food send nothing either.  A
    [playerEaten] naming an id without registry entry sends nothing
    unless the id is one of the property names every object inherits
    ([constructor], [__proto__], [toString], ...): then [playerDied] is
    broadcast for it all the same. *)
Theorem unknown_ids_ignored (s : Server.t)
    (sid eatenPlayerId foodId : string) :
  players (gameState s) !! sid = None ->
  isInherited sid = false ->
  players (gameState s) !! eatenPlayerId = None ->
  foodId ∉ (food_id <$> foods (gameState s)) ->
  (forall d, handle s (PlayerUpdate sid d) = (s, [])) /\
  (forall d, handle s (PlayerRespawn sid d) = (s, [])) /\
  (forall reporter,
     handle s (PlayerEaten reporter eatenPlayerId)
     = (s, if isInherited eatenPlayerId
           then [mkEmit ToAll (MsgPlayerDied eatenPlayerId)]
           else [])) /\
  (eatenPlayerId ∉ inheritedKeys ->
   forall reporter, handle s (PlayerEaten reporter eatenPlayerId) = (s, [])) /\
  (forall reporter, handle s (FoodEaten reporter foodId) = (s, [])).
Proof.
  intros Hp _ He Hf.
  assert (Heaten : forall reporter,
             handle s (PlayerEaten reporter eatenPlayerId)
             = (s, if isInherited eatenPlayerId
                   then [mkEmit ToAll (MsgPlayerDied eatenPlayerId)]
                   else [])).
  { intros reporter. cbn [handle]. unfold onPlayerEaten. cbn zeta.
    rewrite He. destruct (isInherited eatenPlayerId); reflexivity. }
  split; [|split; [|split; [|split]]].
  - intros d. cbn [handle]. unfold onPlayerUpdate. cbn zeta. rewrite Hp.
    reflexivity.
  - intros d. cbn [handle]. unfold onPlayerRespawn. cbn zeta. rewrite Hp.
    reflexivity.
  - exact Heaten.
  - intros Hn reporter. rewrite Heaten. unfold isInherited.
    rewrite bool_decide_eq_false_2 by exact Hn. reflexivity.
  - intros reporter. cbn [handle]. apply foodEaten_absent. exact Hf.
Qed.

Lemma unknown_ids_ignored_witness :
  (forall d, handle sampleLone (PlayerUpdate "zz" d) = (sampleLone, [])) /\
  (forall d, handle sampleLone (PlayerRespawn "zz" d) = (sampleLone, [])) /\
  (forall reporter,
     handle sampleLone (PlayerEaten reporter "constructor")
     = (sampleLone,
        if isInherited "constructor"
        then [mkEmit ToAll (MsgPlayerDied "constructor")]
        else [])) /\
  ("constructor" ∉ inheritedKeys ->
   forall reporter,
     handle sampleLone (PlayerEaten reporter "constructor")
     = (sampleLone, [])) /\
  (forall reporter,
     handle sampleLone (FoodEaten reporter "nope") = (sampleLone, [])).
Proof.
  apply (unknown_ids_ignored sampleLone "zz" "constructor" "nope").
  - vm_compute. reflexivity.
  - vm_compute. reflexivity.
  - vm_compute. reflexivity.
  - apply (bool_decide_unpack _). vm_compute. exact I.
Defined.

(** The two cases of a [playerEaten] for an id without entry, on the
    state with one player joined: an inherited name is announced dead, any
    other name is not. *)
Example playerEaten_inherited_name :
  handle sampleLone (PlayerEaten "a" "__proto__")
  = (sampleLone, [mkEmit ToAll (MsgPlayerDied "__proto__")]) /\
  handle sampleLone (PlayerEaten "a" "zz") = (sampleLone, []).
Proof. split; vm_compute; reflexivity. Qed.

(** How one event changes the registry: a key other than the one the
    event names keeps its entry; the named key gets an entry carrying the
    same [id] as before, or the socket's id on a join. *)
Lemma handle_players s e sid p :
  players (gameState (fst (handle s e))) !! sid = Some p ->
  (exists q, players (gameState s) !! sid = Some q /\ id p = id q) \/
  (exists d, e = PlayerJoin sid d /\ id p = sid).
Proof.
  destruct e as [sid'|sid' d|sid' d|sid' foodId|sid' eaten|sid' d|sid'|h d];
    cbn [handle].
  - destruct (onConnection_state sid' s) as [_ ->]. proj. eauto.
  - unfold onPlayerJoin. cbn zeta.
    destruct (truthy (join_worldWidth d) && truthy (join_worldHeight d));
      proj; destruct (1 <? connectedPlayers (gameState s)); proj;
      (destruct (decide (sid' = sid)) as [->|Hne];
       [rewrite lookup_insert_eq; intros [= <-]; right; eauto
       |rewrite lookup_insert_ne by exact Hne; eauto]).
  - unfold onPlayerUpdate. cbn zeta.
    destruct (players (gameState s) !! sid') as [q|] eqn:Eq; [|eauto].
    destruct (1 <? connectedPlayers (gameState s)); proj;
      (destruct (decide (sid' = sid)) as [->|Hne];
       [rewrite lookup_insert_eq; intros [= <-]; left; eauto
       |rewrite lookup_insert_ne by exact Hne; eauto]).
  - unfold onFoodEaten. cbn zeta. destruct (negb _); proj; eauto.
  - unfold onPlayerEaten. cbn zeta.
    destruct (players (gameState s) !! eaten) as [q|] eqn:Eq;
      [|destruct (isInherited eaten); eauto].
    proj. destruct (decide (eaten = sid)) as [->|Hne];
      [rewrite lookup_insert_eq; intros [= <-]; left; eauto
      |rewrite lookup_insert_ne by exact Hne; eauto].
  - unfold onPlayerRespawn. cbn zeta.
    destruct (players (gameState s) !! sid') as [q|] eqn:Eq; [|eauto].
    destruct (1 <? connectedPlayers (gameState s)); proj;
      (destruct (decide (sid' = sid)) as [->|Hne];
       [rewrite lookup_insert_eq; intros [= <-]; left; eauto
       |rewrite lookup_insert_ne by exact Hne; eauto]).
  - unfold onDisconnect. cbn zeta.
    set (s1 := set_gameState _ _).
    destruct (startFoodSpawning_gameState s1) as [Hg _].
    rewrite Hg. subst s1. proj.
    destruct (players (gameState s) !! sid') as [q|] eqn:Eq.
    + destruct (0 <? _); proj;
        (destruct (decide (sid' = sid)) as [->|Hne];
         [rewrite lookup_delete_eq; discriminate
         |rewrite lookup_delete_ne by exact Hne; eauto]).
    + cbn [fst]. rewrite Hg. proj. eauto.
  - unfold spawnTick.
    destruct (generateFood_frame d (gameState s)) as (G1 & _).
    destruct (generateFood d (gameState s)) as [gs newFood]. proj.
    destruct newFood; [destruct (0 <? connectedPlayers gs)|]; proj;
      rewrite G1; eauto.
Qed.

Lemma registry_id (s : Server.t) (sid : string) (p : Player) :
  reachable s ->
  players (gameState s) !! sid = Some p ->
  id p = sid.
Proof.
  intros Hr. revert sid p.
  induction Hr as [draws|s e Hr IH He]; intros sid p Hp.
  - exfalso. revert Hp. unfold boot.
    destruct (startFoodSpawning_gameState
                {| gameState := seedFood draws gameState0;
                   foodSpawnInterval := None; timers := ∅;
                   nextTimer := O; sockets := ∅ |}) as [-> _].
    proj. destruct (seedFood_state draws) as (_ & -> & _).
    rewrite lookup_empty. discriminate.
  - destruct (handle_players s e sid p Hp) as [(q & Hq & E)|(d & _ & E)];
      [|exact E].
    rewrite E. apply (IH sid q Hq).
Qed.

(** X12.  In every state of the running server each registry entry
    carries the id of the socket it is filed under, and belongs to a live
    connection. *)
Theorem registry_keys_are_ids (s : Server.t) (sid : string) (p : Player) :
  reachable s ->
  players (gameState s) !! sid = Some p ->
  id p = sid /\ sid ∈ sockets s.
Proof.
  intros Hr Hp. split; [exact (registry_id s sid p Hr Hp)|].
  pose proof (reachable_invariant s Hr) as (_ & _ & _ & Hd & _).
  apply Hd. apply elem_of_dom. eauto.
Qed.

Lemma registry_keys_are_ids_witness :
  reachable samplePair /\
  (exists p, players (gameState samplePair) !! "b" = Some p /\
             id p = "b" /\ "b" ∈ sockets samplePair).
Proof.
  split; [exact samplePair_reachable|].
  assert (H : is_Some (players (gameState samplePair) !! "b"))
    by (vm_compute; eauto).
  destruct H as [p Hp]. exists p. split; [exact Hp|].
  exact (registry_keys_are_ids samplePair "b" p samplePair_reachable Hp).
Defined.

Open Scope Q_scope.

Lemma Math_max_ge_l a b : a <= Math_max a b.
Proof. apply Math_max_lower. Qed.

Lemma splice1_sublist index (fs : list Food) :
  splice1 index fs `sublist_of` fs.
Proof.
  unfold splice1. generalize (Z.to_nat index) as n.
  induction fs as [|f fs IH]; intros n.
  - destruct n; cbn; constructor.
  - destruct n as [|n].
    + cbn. rewrite drop_0. apply sublist_cons. reflexivity.
    + cbn [take drop app]. apply sublist_skip. apply IH.
Qed.

(** How one event changes the world's size and the foods: the size never
    shrinks, a food already there stays as it is or is removed, and the
    only food added is the one a timer tick generates. *)
Lemma handle_world s e :
  let gs := gameState s in
  let gs' := gameState (fst (handle s e)) in
  worldWidth gs <= worldWidth gs' /\
  worldHeight gs <= worldHeight gs' /\
  (foods gs' `sublist_of` foods gs \/
   exists h d f, e = SpawnTick h d /\
     foods gs' = foods gs ++ [f] /\
     worldWidth gs' = worldWidth gs /\ worldHeight gs' = worldHeight gs /\
     food_x f = draw_x d * worldWidth gs /\
     food_y f = draw_y d * worldHeight gs).
Proof.
  cbn zeta.
  destruct e as [sid'|sid' d|sid' d|sid' foodId|sid' eaten|sid' d|sid'|h d];
    cbn [handle].
  - destruct (onConnection_state sid' s) as [_ ->]. proj.
    repeat split; try lra. now left.
  - unfold onPlayerJoin. cbn zeta.
    destruct (truthy (join_worldWidth d) && truthy (join_worldHeight d));
      proj; destruct (1 <? connectedPlayers (gameState s))%Z; proj;
      (repeat split; [try apply Math_max_ge_l; lra
                     |try apply Math_max_ge_l; lra
                     |now left]).
  - unfold onPlayerUpdate. cbn zeta.
    destruct (players (gameState s) !! sid');
      [destruct (1 <? connectedPlayers (gameState s))%Z|]; proj;
      (repeat split; [lra|lra|now left]).
  - unfold onFoodEaten. cbn zeta. destruct (negb _); proj;
      (repeat split; [lra|lra|left]); [|reflexivity].
    apply splice1_sublist.
  - unfold onPlayerEaten. cbn zeta.
    destruct (players (gameState s) !! eaten);
      [|destruct (isInherited eaten)]; proj;
      (repeat split; [lra|lra|now left]).
  - unfold onPlayerRespawn. cbn zeta.
    destruct (players (gameState s) !! sid');
      [destruct (1 <? connectedPlayers (gameState s))%Z|]; proj;
      (repeat split; [lra|lra|now left]).
  - unfold onDisconnect. cbn zeta.
    set (s1 := set_gameState _ _).
    destruct (startFoodSpawning_gameState s1) as [Hg _].
    rewrite Hg. subst s1. proj.
    destruct (players (gameState s) !! sid');
      [destruct (0 <? _)%Z|]; proj; try (cbn [fst]; rewrite Hg; proj);
      (repeat split; [lra|lra|now left]).
  - unfold spawnTick, generateFood.
    destruct (Z.of_nat (length (foods (gameState s)))
              >=? maxFoodItems (gameState s))%Z; proj.
    + repeat split; [lra|lra|now left].
    + destruct (0 <? connectedPlayers (gameState s))%Z; proj;
        (repeat split; [lra|lra|right; do 3 eexists; repeat split]).
Qed.

Lemma Forall_sublist {A} (P : A -> Prop) (l k : list A) :
  l `sublist_of` k -> Forall P k -> Forall P l.
Proof.
  induction 1 as [|x l k _ IH|x l k _ IH]; intros H.
  - constructor.
  - apply Forall_cons in H. destruct H as [Hx H].
    constructor; [exact Hx | apply IH, H].
  - apply Forall_cons in H. destruct H as [_ H]. apply IH, H.
Qed.

Lemma foodsInWorld_step s e :
  eventDrawInRange e ->
  0 < worldWidth (gameState s) -> 0 < worldHeight (gameState s) ->
  foodsInWorld (gameState s) ->
  foodsInWorld (gameState (fst (handle s e))).
Proof.
  intros He HW HH Hin.
  destruct (handle_world s e) as (Hw & Hh & Hf). cbn zeta in *.
  unfold foodsInWorld in *.
  assert (Hmono : Forall
            (fun f =>
               (0 <= food_x f /\
                food_x f < worldWidth (gameState (fst (handle s e)))) /\
               (0 <= food_y f /\
                food_y f < worldHeight (gameState (fst (handle s e)))))
            (foods (gameState s))).
  { eapply Forall_impl; [exact Hin|]. cbn beta. intros f Hf'. lra. }
  destruct Hf as [Hsub|(h & d & f & -> & Hfs & Ew & Eh & Ex & Ey)].
  - eapply Forall_sublist; [exact Hsub | exact Hmono].
  - rewrite Hfs. apply Forall_app. split; [exact Hmono|].
    constructor; [|constructor].
    destruct He as ((X0 & X1) & (Y0 & Y1) & _).
    rewrite Ex, Ey, Ew, Eh. repeat split; nra.
Qed.

Lemma seed_in_world draws (l : list nat) gs :
  (forall i, drawInRange (draws i)) ->
  0 < worldWidth gs -> 0 < worldHeight gs ->
  foodsInWorld gs ->
  let gs' := fold_left (fun g i => fst (generateFood (draws i) g)) l gs in
  worldWidth gs' = worldWidth gs /\ worldHeight gs' = worldHeight gs /\
  foodsInWorld gs'.
Proof.
  intros Hd. revert gs. induction l as [|i l IH]; intros gs HW HH Hin;
    cbn zeta; [repeat split; exact Hin|].
  cbn [fold_left].
  assert (Hstep : worldWidth (fst (generateFood (draws i) gs)) = worldWidth gs /\
                  worldHeight (fst (generateFood (draws i) gs)) = worldHeight gs /\
                  foodsInWorld (fst (generateFood (draws i) gs))).
  { unfold generateFood.
    destruct (Z.of_nat (length (foods gs)) >=? maxFoodItems gs)%Z; proj;
      [repeat split; exact Hin|].
    repeat split. unfold foodsInWorld in *. proj.
    apply Forall_app. split; [exact Hin|].
    constructor; [|constructor]. cbn [food_x food_y].
    destruct (Hd i) as ((X0 & X1) & (Y0 & Y1) & _). repeat split; nra. }
  destruct Hstep as (Ew & Eh & Hin').
  destruct (IH (fst (generateFood (draws i) gs))) as (Ew' & Eh' & Hin'');
    [rewrite Ew; exact HW | rewrite Eh; exact HH | exact Hin'|].
  cbn zeta in *. rewrite Ew', Eh', Ew, Eh. repeat split. exact Hin''.
Qed.

(** X13.  The world only grows and the food stays inside it: when every
    [Math.random()] value drawn is in [0, 1), after start-up and any list
    of events the world is at least 3840 by 2160 and every food's
    coordinates lie within the world's current size. *)
Theorem foods_stay_in_world (draws : nat -> FoodDraw) (es : list Event) :
  (forall i, drawInRange (draws i)) ->
  Forall eventDrawInRange es ->
  let gs := gameState (fst (run (boot draws) es)) in
  3840 <= worldWidth gs /\ 2160 <= worldHeight gs /\ foodsInWorld gs.
Proof.
  intros Hd Hes. cbn zeta.
  assert (Hboot : 3840 <= worldWidth (gameState (boot draws)) /\
                  2160 <= worldHeight (gameState (boot draws)) /\
                  foodsInWorld (gameState (boot draws))).
  { unfold boot.
    destruct (startFoodSpawning_gameState
                {| gameState := seedFood draws gameState0;
                   foodSpawnInterval := None; timers := ∅;
                   nextTimer := O; sockets := ∅ |}) as [-> _].
    proj. unfold seedFood.
    destruct (seed_in_world draws (seq 0 50) gameState0 Hd)
      as (Ew & Eh & Hin).
    { cbn. lra. } { cbn. lra. } { constructor. }
    cbn zeta in *. rewrite Ew, Eh. cbn [gameState0 worldWidth worldHeight].
    repeat split; try lra. exact Hin. }
  revert Hboot. generalize (boot draws).
  induction Hes as [|e es He _ IH]; intros s (HW & HH & Hin).
  - cbn. repeat split; assumption.
  - cbn [run].
    destruct (handle s e) as [s1 out1] eqn:E1.
    specialize (IH s1).
    destruct (run s1 es) as [s2 out2] eqn:E2. cbn [fst] in *.
    apply IH.
    destruct (handle_world s e) as (Hw & Hh & _). cbn zeta in *.
    pose proof (foodsInWorld_step s e He ltac:(lra) ltac:(lra) Hin) as Hin'.
    rewrite E1 in Hw, Hh, Hin'. cbn [fst] in *.
    repeat split; try lra. exact Hin'.
Qed.

Lemma foods_stay_in_world_witness :
  let es := [Connection "a"; PlayerJoin "a" (sampleJoin "Ann");
             SpawnTick 0 (sampleDraws 50); FoodEaten "a" "1700000000003k3j9x0q2a"] in
  (forall i, drawInRange (sampleDraws i)) /\
  Forall eventDrawInRange es /\
  let gs := gameState (fst (run (boot sampleDraws) es)) in
  3840 <= worldWidth gs /\ 2160 <= worldHeight gs /\ foodsInWorld gs.
Proof.
  cbn zeta.
  assert (Hd : forall i, drawInRange (sampleDraws i)).
  { intros i. unfold drawInRange. cbn. repeat split; lra. }
  assert (He : Forall eventDrawInRange
                 [Connection "a"; PlayerJoin "a" (sampleJoin "Ann");
                  SpawnTick 0 (sampleDraws 50);
                  FoodEaten "a" "1700000000003k3j9x0q2a"]).
  { repeat constructor; apply Hd. }
  split; [exact Hd|]. split; [exact He|].
  exact (foods_stay_in_world sampleDraws _ Hd He).
Defined.

End ServerMore.

(** ** The client and the server together *)

Section ClientSync.

Import Server.
Open Scope Z_scope.



Lemma orNumber_eq a b : truthy (Some a) = false \/ Client.orNumber a b = a.
Proof.
  unfold Client.orNumber. destruct (truthy (Some a)); [now right|now left].
Qed.















Lemma mirrors_foods fs fs' ps c :
  Client.mirrors fs ps c ->
  Client.mirrors fs' ps
    {| Client.socketId := Client.socketId c;
       Client.players := Client.players c;
       Client.foods := Client.createFoodFromServer <$> fs' |}.
Proof. intros (_ & Hd & Ha). split; [reflexivity|]. split; assumption. Qed.











(** What that client holds at the end of the run above. *)
Example client_mirror_example :
  let c := Client.deliver (Client.connecting "b")
             (snd (run sampleLone
                     [Connection "b"; PlayerJoin "b" (sampleJoin "Bob");
                      SpawnTick 1 (sampleDraws 50);
                      FoodEaten "a" "1700000000003k3j9x0q2a";
                      PlayerEaten "b" "a"])) in
  length (Client.foods c) = 50%nat /\
  Client.isAlive <$> Client.players c !! "a" = Some false /\
  Client.players c !! "b" = None.
Proof. cbn zeta. repeat split; vm_compute; reflexivity. Qed.

End ClientSync.

(** ** The object pool and the food manager *)

Section Pool.

Import ObjectPool.

Lemma pushMade_spec {A} (factory : nat -> A) n (p : ObjectPool.t A) :
  pool (pushMade factory n p)
  = pool p ++ ((fun i => factory (made p + i)%nat) <$> seq 0 n) /\
  made (pushMade factory n p) = (made p + n)%nat.
Proof.
  revert p. induction n as [|n IH]; intros p.
  - cbn. rewrite app_nil_r. split; [reflexivity | lia].
  - cbn [pushMade]. destruct (IH {| pool := pool p ++ [factory (made p)];
                                    made := S (made p) |}) as [-> ->].
    cbn [pool made]. split; [|lia].
    rewrite <- app_assoc. f_equal. cbn [seq fmap list_fmap app].
    replace (made p + 0)%nat with (made p) by lia. f_equal.
    rewrite <- fmap_S_seq, <- list_fmap_compose. apply list_fmap_ext.
    intros _ i _. cbn. f_equal. lia.
Qed.

Lemma pop_snoc {A} (l : list A) (x : A) m :
  pop {| pool := l ++ [x]; made := m |} = (Some x, {| pool := l; made := m |}).
Proof.
  unfold pop. cbn [pool made]. rewrite reverse_snoc, reverse_involutive.
  reflexivity.
Qed.

Lemma get_empty {A} (factory : nat -> A) (p : ObjectPool.t A) :
  pool p = [] ->
  get factory p
  = (Some (factory (made p + 9)%nat),
     {| pool := (fun i => factory (made p + i)%nat) <$> seq 0 9;
        made := (made p + 10)%nat |}).
Proof.
  destruct p as [l m]. cbn [pool made]. intros ->. unfold get.
  cbn [pool length Nat.eqb]. unfold expand.
  change (Z.to_nat (Qceiling 10)) with 10%nat.
  destruct (pushMade_spec factory 10 {| pool := []; made := m |}) as [Hp Hm].
  cbn [pool made app] in Hp, Hm.
  destruct (pushMade factory 10 {| pool := []; made := m |}) as [l' m'].
  cbn [pool made] in Hp, Hm. subst l' m'.
  change (seq 0 10) with (seq 0 9 ++ [9%nat]).
  rewrite fmap_app.
  change ((fun i => factory (m + i)%nat) <$> [9%nat])
    with [factory (m + 9)%nat].
  apply pop_snoc.
Qed.

Lemma get_snoc {A} (factory : nat -> A) (p : ObjectPool.t A) l y :
  pool p = l ++ [y] ->
  get factory p = (Some y, {| pool := l; made := made p |}).
Proof.
  destruct p as [l0 m]. cbn [pool made]. intros ->. unfold get.
  cbn [pool]. rewrite length_app. cbn [length].
  replace (length l + 1 =? 0)%nat with false
    by (symmetry; apply Nat.eqb_neq; lia).
  apply pop_snoc.
Qed.

Lemma get_some {A} (factory : nat -> A) (p : ObjectPool.t A) :
  exists x p',
    get factory p = (Some x, p') /\
    (S (size p') = size p + (if size p =? 0 then 10 else 0))%nat.
Proof.
  destruct (pool p) as [|a l] eqn:E using rev_ind.
  - rewrite (get_empty factory p E). do 2 eexists. split; [reflexivity|].
    unfold size. rewrite E. cbn [pool length Nat.eqb].
    rewrite length_fmap, length_seq. reflexivity.
  - rewrite (get_snoc factory p l a E). do 2 eexists. split; [reflexivity|].
    unfold size. rewrite E. cbn [pool]. rewrite length_app. cbn [length].
    replace (length l + 1 =? 0)%nat with false
      by (symmetry; apply Nat.eqb_neq; lia).
    lia.
Qed.

(** X15.  [get()] always returns an object.  From an empty pool it has
    the factory make ten, hands out the tenth and keeps nine; from any
    other pool it makes none and hands out the object pushed last. *)
Theorem pool_get_spec {A} (factory : nat -> A) (p : ObjectPool.t A) :
  exists x p',
    get factory p = (Some x, p') /\
    (pool p = [] ->
     x = factory (made p + 9)%nat /\ size p' = 9%nat /\
     made p' = (made p + 10)%nat) /\
    (forall l y, pool p = l ++ [y] ->
     x = y /\ p' = {| pool := l; made := made p |}).
Proof.
  destruct (pool p) as [|a l] eqn:E using rev_ind.
  - rewrite (get_empty factory p E). do 2 eexists. split; [reflexivity|].
    split.
    + intros _. unfold size. cbn [pool made].
      rewrite length_fmap, length_seq. repeat split.
    + intros l y H. destruct l; discriminate H.
  - rewrite (get_snoc factory p l a E). do 2 eexists. split; [reflexivity|].
    split.
    + intros H. destruct l; discriminate H.
    + intros l' y H. apply app_inj_tail in H. destruct H as [-> ->].
      split; reflexivity.
Qed.

(** X16.  Releasing an object and then asking for one gives back that
    object, reset, and leaves the pool exactly as it was; the factory is
    not called. *)
Theorem pool_release_get {A} (factory : nat -> A) (reset : A -> A)
    (object : A) (p : ObjectPool.t A) :
  get factory (release reset object p) = (Some (reset object), p) /\
  size (release reset object p) = S (size p).
Proof.
  destruct p as [l m]. unfold get, release, size. cbn [pool made].
  rewrite length_app. cbn [length].
  replace (length l + 1 =? 0)%nat with false
    by (symmetry; apply Nat.eqb_neq; lia).
  rewrite pop_snoc. split; [reflexivity | lia].
Qed.

End Pool.

Section Foods.

Import FoodManager.

Lemma fm_findIndex_spec (fid : string) (fs : list Food.t) :
  (findIndex fid fs = (-1)%Z /\ Forall (fun f => Food.id f <> Some fid) fs) \/
  (exists pre f post,
     fs = pre ++ f :: post /\ Food.id f = Some fid /\
     Forall (fun g => Food.id g <> Some fid) pre /\
     findIndex fid fs = Z.of_nat (length pre)).
Proof.
  induction fs as [|f fs IH].
  - left. split; [reflexivity | constructor].
  - cbn [findIndex]. destruct (bool_decide (Food.id f = Some fid)) eqn:E.
    + apply bool_decide_eq_true in E. right. exists [], f, fs.
      repeat split; [exact E | constructor].
    + apply bool_decide_eq_false in E. destruct IH as [[-> Hall] | IH].
      * left. split; [reflexivity | constructor; assumption].
      * destruct IH as (pre & g & post & -> & Hg & Hpre & ->). right.
        exists (f :: pre), g, post.
        replace (Z.of_nat (length pre) =? -1)%Z with false
          by (symmetry; apply Z.eqb_neq; lia).
        repeat split; [exact Hg | constructor; assumption |].
        cbn [length]. lia.
Qed.

Lemma removeFood_at (d : Food.Draw) (m : t) pre f post :
  foods m = pre ++ f :: post ->
  removeFood d (Z.of_nat (length pre)) m
  = set_foods (pre ++ post)
      (ObjectPool.release (reset d m) f (foodPool m)) m.
Proof.
  intros E. unfold removeFood. rewrite E, length_app. cbn [length].
  replace (0 <=? Z.of_nat (length pre))%Z with true
    by (symmetry; apply Z.leb_le; lia).
  replace (Z.of_nat (length pre) <? Z.of_nat (length pre + S (length post)))%Z
    with true by (symmetry; apply Z.ltb_lt; lia).
  cbn [andb]. rewrite Nat2Z.id.
  rewrite list_lookup_middle by reflexivity.
  rewrite take_app_length.
  replace (drop (S (length pre)) (pre ++ f :: post)) with post; [reflexivity|].
  rewrite drop_app_ge by lia.
  replace (S (length pre) - length pre)%nat with 1%nat by lia. reflexivity.
Qed.

(** X17.  [spawnFood()] returns [null] and changes nothing once the
    active list has reached [maxFood]; below it, it always returns a food
    (never [undefined]), appends that food to the active list, and makes
    ten new objects exactly when the pool was empty.  The active list so
    never grows past [maxFood] by a whole item. *)
Theorem spawnFood_spec (draws : nat -> Food.Draw) (m : t) :
  let len := inject_Z (Z.of_nat (length (foods m))) in
  (maxFood m <= len -> spawnFood draws m = (None, m)) /\
  (len < maxFood m ->
   exists f,
     fst (spawnFood draws m) = Some f /\
     foods (snd (spawnFood draws m)) = foods m ++ [f] /\
     (held (snd (spawnFood draws m))
      = held m + (if ObjectPool.size (foodPool m) =? 0 then 10 else 0))%nat) /\
  (len < maxFood m + 1 ->
   inject_Z (Z.of_nat (length (foods (snd (spawnFood draws m)))))
   < maxFood m + 1).
Proof.
  cbn zeta. unfold spawnFood.
  destruct (geb (inject_Z (Z.of_nat (length (foods m)))) (maxFood m)) eqn:E.
  - apply geb_spec in E. split; [reflexivity|]. split; [intros H; lra|].
    intros H; exact H.
  - assert (Hlt : inject_Z (Z.of_nat (length (foods m))) < maxFood m).
    { apply Qnot_le_lt. intros H. apply geb_spec in H. congruence. }
    destruct (get_some (factory draws m) (foodPool m))
      as (f & p' & Hget & Hsize).
    rewrite Hget. cbn [fst snd set_foods foods]. split; [intros H; lra|]. split.
    + intros _. exists f. split; [reflexivity|]. split; [reflexivity|].
      unfold held. cbn [set_foods foods foodPool]. rewrite length_app. cbn [length].
      destruct (ObjectPool.size (foodPool m) =? 0)%nat; lia.
    + intros _. rewrite length_app. cbn [length].
      rewrite Nat2Z.inj_add, inject_Z_plus.
      change (inject_Z (Z.of_nat 1)) with 1. lra.
Qed.

(** X18.  No food object is dropped: [removeFood] and [clear] move
    objects from the active list to the pool and keep their total.  An
    index outside the active list makes [removeFood] do nothing; one
    inside it removes exactly that item and keeps the order of the
    others.  After [clear] the active list is empty. *)
Theorem food_objects_conserved (d : Food.Draw) (ds : nat -> Food.Draw) (index : Z)
    (m : t) :
  held (removeFood d index m) = held m /\
  held (clear ds m) = held m /\
  foods (clear ds m) = [] /\
  ((index < 0 \/ Z.of_nat (length (foods m)) <= index)%Z ->
   removeFood d index m = m) /\
  ((0 <= index < Z.of_nat (length (foods m)))%Z ->
   foods (removeFood d index m)
   = take (Z.to_nat index) (foods m) ++ drop (S (Z.to_nat index)) (foods m) /\
   S (length (foods (removeFood d index m))) = length (foods m)).
Proof.
  assert (Hin : (0 <= index < Z.of_nat (length (foods m)))%Z ->
                exists food,
                  removeFood d index m
                  = set_foods
                      (take (Z.to_nat index) (foods m)
                       ++ drop (S (Z.to_nat index)) (foods m))
                      (ObjectPool.release (reset d m) food (foodPool m)) m).
  { intros H. unfold removeFood.
    replace (0 <=? index)%Z with true by (symmetry; apply Z.leb_le; lia).
    replace (index <? Z.of_nat (length (foods m)))%Z with true
      by (symmetry; apply Z.ltb_lt; lia).
    cbn [andb].
    destruct (lookup_lt_is_Some_2 (foods m) (Z.to_nat index) ltac:(lia))
      as [food ->].
    exists food. reflexivity. }
  assert (Hout : (index < 0 \/ Z.of_nat (length (foods m)) <= index)%Z ->
                 removeFood d index m = m).
  { intros H. unfold removeFood. destruct H as [H | H].
    - replace (0 <=? index)%Z with false by (symmetry; apply Z.leb_gt; lia).
      reflexivity.
    - replace (index <? Z.of_nat (length (foods m)))%Z with false
        by (symmetry; apply Z.ltb_ge; lia).
      rewrite andb_false_r. reflexivity. }
  assert (Hlen : (0 <= index < Z.of_nat (length (foods m)))%Z ->
                 S (length (take (Z.to_nat index) (foods m)
                            ++ drop (S (Z.to_nat index)) (foods m)))
                 = length (foods m)).
  { intros H. rewrite length_app, length_take, length_drop. lia. }
  split; [|split; [|split; [|split]]].
  - destruct (Z_lt_ge_dec index 0) as [Hneg | Hpos];
      [rewrite Hout by lia; reflexivity|].
    destruct (Z_lt_ge_dec index (Z.of_nat (length (foods m)))) as [Hlt | Hge];
      [|rewrite Hout by lia; reflexivity].
    destruct (Hin ltac:(lia)) as [food ->]. unfold held.
    cbn [set_foods foods foodPool]. unfold ObjectPool.size, ObjectPool.release.
    cbn [ObjectPool.pool]. specialize (Hlen ltac:(lia)).
    rewrite !length_app in *. cbn [length]. lia.
  - unfold held, clear. cbn [set_foods foods foodPool length].
    generalize (foodPool m) as p.
    unfold ObjectPool.size.
    enough (G : forall (fs : list Food.t) (g : nat -> nat) p,
               length (ObjectPool.pool
                 (fold_left
                    (fun p '(i, food) =>
                       ObjectPool.release (reset (ds i) m) food p)
                    (imap (fun i food => (g i, food)) fs) p))
               = (length fs + length (ObjectPool.pool p))%nat).
    { intros p. rewrite (G (foods m) (fun i => i) p). lia. }
    induction fs as [|f fs IH]; intros g p; [reflexivity|].
    cbn [imap fold_left]. 
    rewrite (IH (fun i => g (S i))). unfold ObjectPool.release.
    cbn [ObjectPool.pool length]. rewrite length_app. cbn [length]. lia.
  - reflexivity.
  - exact Hout.
  - intros H. destruct (Hin H) as [food ->]. cbn [set_foods foods].
    split; [reflexivity | exact (Hlen H)].
Qed.

(** X19.  [removeFoodById] answers [true] exactly when an active food
    has the id.  It then removes the first such food, and only it, and
    puts it back in the pool; otherwise it changes nothing. *)
Theorem removeFoodById_spec (d : Food.Draw) (foodId : string) (m : t) :
  (fst (removeFoodById d foodId m) = true <->
   Exists (fun f => Food.id f = Some foodId) (foods m)) /\
  (fst (removeFoodById d foodId m) = false ->
   snd (removeFoodById d foodId m) = m) /\
  (fst (removeFoodById d foodId m) = true ->
   exists pre f post,
     foods m = pre ++ f :: post /\ Food.id f = Some foodId /\
     Forall (fun g => Food.id g <> Some foodId) pre /\
     foods (snd (removeFoodById d foodId m)) = pre ++ post /\
     foodPool (snd (removeFoodById d foodId m))
     = ObjectPool.release (reset d m) f (foodPool m)).
Proof.
  unfold removeFoodById.
  destruct (fm_findIndex_spec foodId (foods m))
    as [[E Hall] | (pre & f & post & Hfs & Hf & Hpre & E)]; rewrite E.
  - cbn [Z.eqb negb fst snd]. split; [|split].
    + split; [discriminate|]. intros Hex. exfalso.
      apply Exists_exists in Hex. destruct Hex as (g & Hg & Hid).
      rewrite Forall_forall in Hall. exact (Hall g Hg Hid).
    + reflexivity.
    + discriminate.
  - replace (Z.of_nat (length pre) =? -1)%Z with false
      by (symmetry; apply Z.eqb_neq; lia).
    cbn [negb fst snd]. rewrite (removeFood_at d m pre f post Hfs).
    cbn [set_foods foods foodPool]. split; [|split].
    + split; [|reflexivity]. intros _. rewrite Hfs.
      apply Exists_app. right. constructor. exact Hf.
    + discriminate.
    + intros _. exists pre, f, post. repeat split; assumption.
Qed.

End Foods.

Section Fresh.

Import FoodManager.

Lemma wellPlaced_intro (d : Food.Draw) (g : Food.t) :
  Food.drawInUnit d -> 0 <= Food.worldWidth g -> 0 <= Food.worldHeight g ->
  Food.radius g = Utils.random (Food.draw_radius d) 3 6 ->
  Food.value g = Food.radius g ->
  Food.x g = Utils.random (Food.draw_x d)
               (Food.worldWidth g * 0.1) (Food.worldWidth g * 0.9) ->
  Food.y g = Utils.random (Food.draw_y d)
               (Food.worldHeight g * 0.1) (Food.worldHeight g * 0.9) ->
  Food.wellPlaced g.
Proof.
  intros ((Hx0 & Hx1) & (Hy0 & Hy1) & (Hr0 & Hr1)) Hw Hh Er Ev Ex Ey.
  unfold Food.wellPlaced. rewrite Ex, Ey.
  split; [|split; [|split]].
  - rewrite Er. exact (random_integer (Food.draw_radius d) 3 6 Hr0 Hr1 ltac:(lia)).
  - exact Ev.
  - apply random_bounds; [exact Hx0 | exact Hx1 | lra].
  - apply random_bounds; [exact Hy0 | exact Hy1 | lra].
Qed.

Lemma orElse_nonneg (a : option Q) (b : Q) :
  Food.notNegative a -> 0 <= b -> 0 <= Food.orElse a b.
Proof.
  intros Ha Hb. unfold Food.orElse. destruct a as [q|]; [|exact Hb].
  destruct (truthy (Some q)); [exact Ha | exact Hb].
Qed.

Lemma orElse_pos (q b : Q) : 0 < q -> Food.orElse (Some q) b = q.
Proof.
  intros Hq. unfold Food.orElse, truthy.
  destruct (Qeq_bool q 0) eqn:E; [|reflexivity].
  apply Qeq_bool_iff in E. lra.
Qed.

(** X20.  With dimensions that are not negative, a food, newly made or
    reset for reuse, has a whole radius from 3 to 6, a value equal to its
    radius, and a position at least a tenth of its world away from the
    left and top edges and less than one unit past nine tenths of it.
    Its world is the one passed when that is positive, and otherwise the
    canvas for a new food and the food's previous world for a reset one.
    A reset food has an id, a newly made one has none. *)
Theorem food_well_placed (d : Food.Draw) (canvasWidth canvasHeight : Q)
    (w h : option Q) (f : Food.t) :
  Food.drawInUnit d ->
  0 <= canvasWidth -> 0 <= canvasHeight ->
  0 <= Food.worldWidth f -> 0 <= Food.worldHeight f ->
  Food.notNegative w -> Food.notNegative h ->
  Food.wellPlaced (Food.new d canvasWidth canvasHeight w h) /\
  Food.wellPlaced (Food.reset d w h f) /\
  (forall q, w = Some q -> 0 < q ->
     Food.worldWidth (Food.new d canvasWidth canvasHeight w h) = q /\
     Food.worldWidth (Food.reset d w h f) = q) /\
  ((w = None \/ w = Some 0) ->
     Food.worldWidth (Food.new d canvasWidth canvasHeight w h) = canvasWidth /\
     Food.worldWidth (Food.reset d w h f) = Food.worldWidth f) /\
  (forall q, h = Some q -> 0 < q ->
     Food.worldHeight (Food.new d canvasWidth canvasHeight w h) = q /\
     Food.worldHeight (Food.reset d w h f) = q) /\
  ((h = None \/ h = Some 0) ->
     Food.worldHeight (Food.new d canvasWidth canvasHeight w h) = canvasHeight /\
     Food.worldHeight (Food.reset d w h f) = Food.worldHeight f) /\
  Food.id (Food.new d canvasWidth canvasHeight w h) = None /\
  Food.id (Food.reset d w h f) <> None.
Proof.
  intros Hd Hcw Hch Hfw Hfh Hw Hh.
  split; [|split; [|split; [|split; [|split; [|split; [|split]]]]]].
  - apply (wellPlaced_intro d); try reflexivity; try exact Hd;
      cbn [Food.new Food.worldWidth Food.worldHeight];
      apply orElse_nonneg; assumption.
  - apply (wellPlaced_intro d); try reflexivity; try exact Hd;
      cbn [Food.reset Food.worldWidth Food.worldHeight];
      apply orElse_nonneg; assumption.
  - intros q -> Hq. cbn [Food.new Food.reset Food.worldWidth].
    rewrite !orElse_pos by exact Hq. split; reflexivity.
  - intros [-> | ->]; split; reflexivity.
  - intros q -> Hq. cbn [Food.new Food.reset Food.worldHeight].
    rewrite !orElse_pos by exact Hq. split; reflexivity.
  - intros [-> | ->]; split; reflexivity.
  - reflexivity.
  - discriminate.
Qed.

Lemma food_well_placed_witness :
  let d := {| Food.draw_x := 1 # 2; Food.draw_y := 1 # 4;
              Food.draw_radius := 2 # 3;
              Food.draw_now := 1700000000000;
              Food.draw_suffix := "k3f9a01zq" |} in
  let f := Food.new d 800 600 None None in
  let w := Some 2000 in
  let h := Some 1500 in
  Food.wellPlaced (Food.new d 800 600 w h) /\
  Food.wellPlaced (Food.reset d w h f) /\
  (forall q, w = Some q -> 0 < q ->
     Food.worldWidth (Food.new d 800 600 w h) = q /\
     Food.worldWidth (Food.reset d w h f) = q) /\
  ((w = None \/ w = Some 0) ->
     Food.worldWidth (Food.new d 800 600 w h) = 800 /\
     Food.worldWidth (Food.reset d w h f) = Food.worldWidth f) /\
  (forall q, h = Some q -> 0 < q ->
     Food.worldHeight (Food.new d 800 600 w h) = q /\
     Food.worldHeight (Food.reset d w h f) = q) /\
  ((h = None \/ h = Some 0) ->
     Food.worldHeight (Food.new d 800 600 w h) = 600 /\
     Food.worldHeight (Food.reset d w h f) = Food.worldHeight f) /\
  Food.id (Food.new d 800 600 w h) = None /\
  Food.id (Food.reset d w h f) <> None.
Proof.
  cbn zeta. apply food_well_placed.
  - unfold Food.drawInUnit. cbn. repeat split; (discriminate || reflexivity).
  - discriminate.
  - discriminate.
  - vm_compute. discriminate.
  - vm_compute. discriminate.
  - cbn. discriminate.
  - cbn. discriminate.
Defined.

Lemma noIds_spawn (draws : nat -> Food.Draw) (m : t) :
  noIds m -> noIds (snd (spawnFood draws m)).
Proof.
  intros [Hf Hp]. unfold spawnFood.
  destruct (geb _ _); [split; assumption|].
  destruct (ObjectPool.pool (foodPool m)) as [|a l] eqn:E using rev_ind.
  - rewrite (get_empty (factory draws m) (foodPool m) E). cbn [snd].
    split; cbn [set_foods foods foodPool ObjectPool.pool].
    + apply Forall_app. split; [exact Hf|]. constructor; [reflexivity|].
      constructor.
    + apply Forall_fmap. apply Forall_forall. intros i _. reflexivity.
  - rewrite (get_snoc (factory draws m) (foodPool m) l a E). cbn [snd].
    apply Forall_app in Hp. destruct Hp as [Hl Ha].
    split; cbn [set_foods foods foodPool ObjectPool.pool].
    + apply Forall_app. split; assumption.
    + exact Hl.
Qed.

Lemma noIds_new (draws : nat -> Food.Draw) (cw ch w h maxFood : Q) :
  noIds (new draws cw ch w h maxFood).
Proof.
  split; cbn [new foods foodPool]; [constructor|].
  unfold ObjectPool.new, ObjectPool.expand.
  destruct (pushMade_spec
              (fun n => Food.new (draws n) cw ch (Some w) (Some h))
              (Z.to_nat (Qceiling (maxFood / 2)))
              {| ObjectPool.pool := []; ObjectPool.made := 0 |}) as [-> _].
  cbn [ObjectPool.pool app].
  apply Forall_fmap. apply Forall_forall. intros i _. reflexivity.
Qed.

(** X21.  The foods of a fresh manager have no id: after any number of
    [spawnFood()] calls on a newly constructed manager every active food
    is without id, whatever the size of the pool, so [removeFoodById]
    answers [false] for every id and removes nothing. *)
Theorem fresh_foods_have_no_id (draws : nat -> Food.Draw)
    (cw ch w h maxFood : Q) (n : nat) (d : Food.Draw) (foodId : string) :
  let m := spawnMany draws n (new draws cw ch w h maxFood) in
  Forall (fun f => Food.id f = None) (foods m) /\
  removeFoodById d foodId m = (false, m).
Proof.
  cbn zeta.
  assert (H : noIds (spawnMany draws n (new draws cw ch w h maxFood))).
  { unfold spawnMany. induction n as [|n IH]; [apply noIds_new|].
    rewrite Nat.iter_succ. apply noIds_spawn. exact IH. }
  destruct H as [Hf _]. split; [exact Hf|].
  unfold removeFoodById.
  destruct (fm_findIndex_spec foodId
              (foods (spawnMany draws n (new draws cw ch w h maxFood))))
    as [[E _] | (pre & f & post & Hfs & Hid & _ & _)].
  - rewrite E. reflexivity.
  - exfalso. rewrite Hfs in Hf. apply Forall_app in Hf. destruct Hf as [_ Hf].
    apply Forall_cons in Hf. destruct Hf as [Hn _]. congruence.
Qed.

End Fresh.

(** ** The leaderboard *)

Section Board.

Import Leaderboard.

Lemma lb_findIndex_spec (p : Ref) (l : list Ref) :
  (findIndex p l = (-1)%Z /\ (p ∉ l)) \/
  (exists pre post,
     l = pre ++ p :: post /\ (p ∉ pre) /\
     findIndex p l = Z.of_nat (length pre)).
Proof.
  induction l as [|a l IH].
  - left. split; [reflexivity | apply not_elem_of_nil].
  - cbn [findIndex]. destruct (Nat.eqb_spec a p) as [-> | Hne].
    + right. exists [], l. repeat split. apply not_elem_of_nil.
    + destruct IH as [[-> Hn] | (pre & post & -> & Hpre & ->)].
      * left. split; [reflexivity|]. rewrite not_elem_of_cons. split; congruence.
      * right. exists (a :: pre), post.
        replace (Z.of_nat (length pre) =? -1)%Z with false
          by (symmetry; apply Z.eqb_neq; lia).
        repeat split.
        -- rewrite not_elem_of_cons. split; congruence.
        -- cbn [length]. lia.
Qed.

Lemma includes_spec (p : Ref) (l : list Ref) :
  includes p l = true <-> p ∈ l.
Proof.
  unfold includes. rewrite existsb_exists. split.
  - intros (x & Hx & E). apply Nat.eqb_eq in E. subst x.
    apply list_elem_of_In. exact Hx.
  - intros H. exists p. split; [apply list_elem_of_In; exact H|].
    apply Nat.eqb_refl.
Qed.

Lemma sortInsert_perm {A} (score : A -> Q) a l :
  sortInsert score a l ≡ₚ a :: l.
Proof.
  induction l as [|b l IH]; [reflexivity|].
  cbn [sortInsert]. destruct (ltb (score a) (score b)); [|reflexivity].
  rewrite IH. apply Permutation_swap.
Qed.

Lemma sort_perm {A} (score : A -> Q) l : sort score l ≡ₚ l.
Proof.
  induction l as [|a l IH]; [reflexivity|].
  unfold sort. cbn [foldr]. fold (sort score l).
  rewrite sortInsert_perm, IH. reflexivity.
Qed.

Lemma sortInsert_sorted {A} (score : A -> Q) a l :
  descending score l -> descending score (sortInsert score a l).
Proof.
  unfold descending. induction l as [|b l IH]; intros Hs.
  - cbn. repeat constructor.
  - cbn [sortInsert]. apply StronglySorted_inv in Hs. destruct Hs as [Hl Hb].
    destruct (ltb (score a) (score b)) eqn:E.
    + apply ltb_spec in E. constructor; [apply IH; exact Hl|].
      rewrite sortInsert_perm. constructor; [lra | exact Hb].
    + apply ltb_false in E. constructor; [constructor; assumption|].
      constructor; [exact E|].
      eapply Forall_impl; [exact Hb|]. cbn. intros x Hx. lra.
Qed.

Lemma sort_sorted {A} (score : A -> Q) l : descending score (sort score l).
Proof.
  induction l as [|a l IH]; [constructor|].
  unfold sort. cbn [foldr]. apply sortInsert_sorted. exact IH.
Qed.

Lemma sortInsert_stable {A} (score : A -> Q) (k : Q) a l :
  List.filter (fun x => Qeq_bool (score x) k) (sortInsert score a l)
  = List.filter (fun x => Qeq_bool (score x) k) (a :: l).
Proof.
  induction l as [|b l IH]; [reflexivity|].
  cbn [sortInsert]. destruct (ltb (score a) (score b)) eqn:E; [|reflexivity].
  apply ltb_spec in E. cbn [List.filter] in *. rewrite IH.
  destruct (Qeq_bool (score a) k) eqn:Ea, (Qeq_bool (score b) k) eqn:Eb;
    try reflexivity.
  apply Qeq_bool_iff in Ea, Eb. lra.
Qed.

Lemma sortInsert_head {A} (score : A -> Q) a l :
  Forall (fun y => score y <= score a) l -> sortInsert score a l = a :: l.
Proof.
  intros H. destruct l as [|b l]; [reflexivity|]. cbn [sortInsert].
  apply Forall_cons in H. destruct H as [Hb _].
  apply ltb_false in Hb. rewrite Hb. reflexivity.
Qed.

(** Sorting a descending list with one more element at its end puts the
    element after the entries that score as much or more. *)
Lemma sort_snoc {A} (score : A -> Q) (e : A) (l : list A) :
  descending score l ->
  exists pre post,
    l = pre ++ post /\
    sort score (l ++ [e]) = pre ++ e :: post /\
    Forall (fun y => score e <= score y) pre /\
    Forall (fun y => score y < score e) post.
Proof.
  unfold descending. induction l as [|h t IH]; intros Hs.
  - exists [], []. repeat split; constructor.
  - apply StronglySorted_inv in Hs. destruct Hs as [Ht Hh].
    destruct (IH Ht) as (pre & post & Et & Es & Hpre & Hpost).
    unfold sort in *. cbn [app foldr]. rewrite Es.
    destruct pre as [|y pre].
    + cbn [app] in *. subst t. cbn [sortInsert].
      destruct (ltb (score h) (score e)) eqn:E.
      * apply ltb_spec in E. exists [], (h :: post).
        rewrite (sortInsert_head score h post Hh).
        repeat split; constructor; assumption.
      * apply ltb_false in E. exists [h], post.
        repeat split; [|exact Hpost]. constructor; [exact E | constructor].
    + subst t. cbn [app sortInsert].
      apply Forall_cons in Hh. destruct Hh as [Hy Hh].
      pose proof Hpre as Hpre'.
      apply Forall_cons in Hpre'. destruct Hpre' as [Hey _].
      pose proof Hy as Hy'. apply ltb_false in Hy'. rewrite Hy'.
      exists (h :: y :: pre), post.
      repeat split; [|exact Hpost]. constructor; [lra | exact Hpre].
Qed.

Lemma descending_last {A} (score : A -> Q) (l : list A) lo :
  descending score l -> last l = Some lo ->
  Forall (fun z => score lo <= score z) l.
Proof.
  intros Hs Hl. apply last_Some in Hl. destruct Hl as [l' ->].
  apply Forall_app. split; [|constructor; [lra | constructor]].
  apply Forall_forall. intros z Hz.
  apply (StronglySorted_app_1_elem_of _ l' [lo] z lo Hs Hz).
  apply list_elem_of_singleton. reflexivity.
Qed.

Lemma slice0_maxEntries {A} (l : list A) : slice0 maxEntries l = take 10 l.
Proof. reflexivity. Qed.

(** X22.  [sort((a, b) => b.score - a.score)], as [update()] and
    [saveHighScore] use it, rearranges the array by descending score: the
    result has the same elements, no element is followed by one with a
    higher score, and elements of equal score keep their order. *)
Theorem sort_descending_stable {A} (score : A -> Q) (l : list A) :
  sort score l ≡ₚ l /\
  descending score (sort score l) /\
  forall k : Q,
    List.filter (fun x => Qeq_bool (score x) k) (sort score l)
    = List.filter (fun x => Qeq_bool (score x) k) l.
Proof.
  split; [apply sort_perm|]. split; [apply sort_sorted|].
  intros k. induction l as [|a l IH]; [reflexivity|].
  unfold sort. cbn [foldr]. fold (sort score l).
  rewrite sortInsert_stable. cbn [List.filter]. rewrite IH. reflexivity.
Qed.

Lemma call_NoDup (c : Call) (lb : t) :
  NoDup (players lb) -> NoDup (players (call c lb)).
Proof.
  intros H. destruct c as [p | p | score]; cbn [call].
  - unfold addPlayer. destruct (includes p (players lb)) eqn:E;
      cbn [negb]; [exact H|].
    cbn [players]. apply NoDup_app. split; [exact H|]. split.
    + intros x Hx Hx'. apply list_elem_of_singleton in Hx'. subst x.
      apply includes_spec in Hx. congruence.
    + apply NoDup_singleton.
  - unfold removePlayer.
    destruct (lb_findIndex_spec p (players lb))
      as [[-> _] | (pre & post & E & _ & ->)]; [exact H|].
    replace (Z.of_nat (length pre) =? -1)%Z with false
      by (symmetry; apply Z.eqb_neq; lia).
    cbn [negb players]. rewrite E in *. rewrite Nat2Z.id, take_app_length.
    replace (drop (S (length pre)) (pre ++ p :: post)) with post.
    + apply NoDup_app in H. destruct H as (H1 & H2 & H3).
      apply NoDup_cons in H3. destruct H3 as [_ H3].
      apply NoDup_app. split; [exact H1|]. split; [|exact H3].
      intros x Hx Hx'. apply (H2 x Hx). right. exact Hx'.
    + rewrite drop_app_ge by lia.
      replace (S (length pre) - length pre)%nat with 1%nat by lia. reflexivity.
  - cbn [update players]. rewrite sort_perm. exact H.
Qed.

Lemma calls_NoDup (cs : list Call) (lb : t) :
  NoDup (players lb) -> NoDup (players (calls cs lb)).
Proof.
  unfold calls. revert lb. induction cs as [|c cs IH]; intros lb H; [exact H|].
  cbn [fold_left]. apply IH. apply call_NoDup. exact H.
Qed.

(** X23.  Whatever calls of [addPlayer], [removePlayer] and [update]
    went before, the board tracks no player twice.  Adding a tracked
    player changes nothing; a player who was removed has rank 0, one who
    was added has a rank of 1 or more, and in general the rank is 0
    exactly for the players that are not tracked. *)
Theorem players_tracked_once (cs : list Call) (p : Ref) :
  let lb := calls cs new in
  NoDup (players lb) /\
  getPlayerRank p (removePlayer p lb) = 0%Z /\
  (0 < getPlayerRank p (addPlayer p lb))%Z /\
  addPlayer p (addPlayer p lb) = addPlayer p lb /\
  (getPlayerRank p lb = 0%Z <-> (p ∉ players lb)).
Proof.
  cbn zeta.
  assert (H : NoDup (players (calls cs new)))
    by (apply calls_NoDup; constructor).
  set (lb := calls cs new) in *.
  assert (Hrank : forall l, (0 <= findIndex p l + 1)%Z /\
                            ((findIndex p l + 1)%Z = 0%Z <-> (p ∉ l))).
  { intros l. destruct (lb_findIndex_spec p l)
      as [[E Hn] | (pre & post & E & Hpre & Ei)].
    - rewrite E. split; [lia|]. split; [intros _; exact Hn | reflexivity].
    - rewrite Ei. split; [lia|]. split; [lia|]. intros Hn. exfalso.
      apply Hn. rewrite E. apply elem_of_app. right. left. }
  assert (Hadd : p ∈ players (addPlayer p lb)).
  { unfold addPlayer. destruct (includes p (players lb)) eqn:E; cbn [negb].
    - apply includes_spec. exact E.
    - cbn [players]. apply elem_of_app. right. left. }
  split; [exact H|]. split; [|split; [|split]].
  - unfold getPlayerRank. apply Hrank.
    pose proof (call_NoDup (RemovePlayer p) lb H) as Hnd. cbn [call] in Hnd.
    unfold removePlayer in *.
    destruct (lb_findIndex_spec p (players lb))
      as [[E Hn] | (pre & post & E & Hpre & Ei)].
    + rewrite E. exact Hn.
    + rewrite Ei in *.
      replace (Z.of_nat (length pre) =? -1)%Z with false in *
        by (symmetry; apply Z.eqb_neq; lia).
      cbn [negb players] in *. rewrite E in *.
      rewrite Nat2Z.id, take_app_length in *.
      replace (drop (S (length pre)) (pre ++ p :: post)) with post in *.
      * apply NoDup_app in H. destruct H as (_ & _ & H3).
        apply NoDup_cons in H3. destruct H3 as [Hp _].
        rewrite elem_of_app. intros [Hx | Hx]; [exact (Hpre Hx) | exact (Hp Hx)].
      * rewrite drop_app_ge by lia.
        replace (S (length pre) - length pre)%nat with 1%nat by lia.
        reflexivity.
  - unfold getPlayerRank.
    destruct (Hrank (players (addPlayer p lb))) as [H0 Hz].
    destruct (Z.eq_dec (findIndex p (players (addPlayer p lb)) + 1)%Z 0%Z) as [E|E];
      [|lia].
    exfalso. apply Hz in E. exact (E Hadd).
  - apply includes_spec in Hadd. unfold addPlayer at 1. rewrite Hadd.
    reflexivity.
  - unfold getPlayerRank. apply Hrank.
Qed.

(** X24.  After [update()] a tracked player with a higher score has a
    better rank than a tracked player with a lower one. *)
Theorem higher_score_ranks_first (score : Ref -> Q) (lb : t) (p q : Ref) :
  (p ∈ players lb) -> (q ∈ players lb) -> score q < score p ->
  (0 < getPlayerRank p (update score lb)
     < getPlayerRank q (update score lb))%Z.
Proof.
  intros Hp Hq Hlt. unfold getPlayerRank, update. cbn [players].
  pose proof (sort_perm score (players lb)) as Hperm.
  pose proof (sort_sorted score (players lb)) as Hs.
  set (l := sort score (players lb)) in *.
  assert (Hp' : p ∈ l) by (rewrite Hperm; exact Hp).
  assert (Hq' : q ∈ l) by (rewrite Hperm; exact Hq).
  destruct (lb_findIndex_spec p l) as [[_ Hn] | (pre & post & E & Hpre & ->)];
    [exfalso; exact (Hn Hp')|].
  destruct (lb_findIndex_spec q l)
    as [[_ Hn] | (pre' & post' & E' & Hpre' & ->)];
    [exfalso; exact (Hn Hq')|].
  split; [lia|].
  destruct (Nat.lt_trichotomy (length pre) (length pre')) as [H | [H | H]];
    [lia | exfalso | exfalso].
  - assert (L1 : l !! length pre = Some p)
      by (rewrite E; apply list_lookup_middle; reflexivity).
    assert (L2 : l !! length pre' = Some q)
      by (rewrite E'; apply list_lookup_middle; reflexivity).
    rewrite H in L1. rewrite L1 in L2. injection L2 as ->. lra.
  - assert (L2 : l !! length pre' = Some q)
      by (rewrite E'; apply list_lookup_middle; reflexivity).
    rewrite E in L2. rewrite lookup_app_l in L2 by exact H.
    apply list_elem_of_lookup_2 in L2.
    unfold descending in Hs. rewrite E in Hs.
    pose proof (StronglySorted_app_1_elem_of _ pre (p :: post) q p Hs L2
                  ltac:(left)) as Hle.
    cbn in Hle. lra.
Qed.

Lemma higher_score_ranks_first_witness :
  let score := fun r : Ref => inject_Z (Z.of_nat r) * 10 in
  let lb := calls [AddPlayer 1%nat; AddPlayer 3%nat; AddPlayer 2%nat] new in
  (0 < getPlayerRank 3%nat (update score lb)
     < getPlayerRank 1%nat (update score lb))%Z.
Proof.
  cbn zeta.
  apply higher_score_ranks_first.
  - vm_compute. apply list_elem_of_In. cbn. tauto.
  - vm_compute. apply list_elem_of_In. cbn. tauto.
  - vm_compute. reflexivity.
Defined.

(** X25.  For a count that is not negative, [getTopPlayers(count)] after
    [update()] returns the first [count] tracked players, or all of them
    when there are fewer: no tracked player left out has a higher score
    than one returned. *)
Theorem top_players_are_best (score : Ref -> Q) (count : Z) (lb : t) :
  (0 <= count)%Z ->
  let top := getTopPlayers count (update score lb) in
  length top = Nat.min (Z.to_nat count) (length (players lb)) /\
  top `prefix_of` players (update score lb) /\
  descending score top /\
  forall a b,
    (a ∈ top) -> (b ∈ players lb) -> (b ∉ top) -> score b <= score a.
Proof.
  intros Hc. cbn zeta. unfold getTopPlayers, slice0, update. cbn [players].
  replace (count <? 0)%Z with false by (symmetry; apply Z.ltb_ge; lia).
  pose proof (sort_perm score (players lb)) as Hperm.
  pose proof (sort_sorted score (players lb)) as Hs.
  set (l := sort score (players lb)) in *. set (n := Z.to_nat count).
  unfold descending in *. rewrite <- (take_drop n l) in Hs.
  split; [|split; [|split]].
  - rewrite length_take. rewrite <- (Permutation_length Hperm). reflexivity.
  - exists (drop n l). symmetry. apply take_drop.
  - exact (StronglySorted_app_1_l _ _ _ Hs).
  - intros a b Ha Hb Hnb.
    assert (Hb' : b ∈ take n l ++ drop n l)
      by (rewrite take_drop, Hperm; exact Hb).
    apply elem_of_app in Hb'. destruct Hb' as [Hb' | Hb']; [contradiction|].
    exact (StronglySorted_app_1_elem_of _ _ _ a b Hs Ha Hb').
Qed.

Lemma top_players_are_best_witness :
  let score := fun r : Ref => inject_Z (Z.of_nat r) * 10 in
  let lb := calls [AddPlayer 1%nat; AddPlayer 3%nat; AddPlayer 2%nat] new in
  let top := getTopPlayers 2 (update score lb) in
  length top = Nat.min (Z.to_nat 2) (length (players lb)) /\
  top `prefix_of` players (update score lb) /\
  descending score top /\
  forall a b,
    (a ∈ top) -> (b ∈ players lb) -> (b ∉ top) -> score b <= score a.
Proof.
  cbn zeta. apply top_players_are_best. lia.
Defined.

(** X26.  [saveHighScore] on a storage that holds at most ten scores in
    descending order: what it returns is what [loadHighScores] reads
    afterwards, again at most ten scores in descending order.  When
    [isHighScore] is false for the score the stored list stays as it was;
    when it is true the new entry is kept, placed after the entries that
    score as much or more and before those that score less. *)
Theorem saveHighScore_spec (name : string) (score size : Q) (date : string)
    (st : Storage) :
  stored st ->
  let e := {| hs_name := name; hs_score := score; hs_size := size;
              hs_date := date |} in
  let r := saveHighScore name score size date st in
  loadHighScores (snd r) = fst r /\
  stored (snd r) /\
  (isHighScore score st = false -> fst r = loadHighScores st) /\
  (isHighScore score st = true ->
   exists pre post,
     loadHighScores st = pre ++ post /\
     fst r = take 10 (pre ++ e :: post) /\
     fst r !! length pre = Some e /\
     Forall (fun y => score <= hs_score y) pre /\
     Forall (fun y => hs_score y < score) post).
Proof.
  intros [Hlen Hdesc]. cbn zeta. unfold saveHighScore. cbn [fst snd].
  set (hs := loadHighScores st) in *.
  set (e := {| hs_name := name; hs_score := score; hs_size := size;
               hs_date := date |}).
  rewrite slice0_maxEntries.
  destruct (sort_snoc hs_score e hs Hdesc)
    as (pre & post & Ehs & Esort & Hpre & Hpost).
  pose proof (sort_sorted hs_score (hs ++ [e])) as Hs.
  rewrite Esort in *. cbn [hs_score e] in Hpre, Hpost.
  assert (Hhigh : isHighScore score st = true -> (length pre < 10)%nat).
  { unfold isHighScore. fold hs. unfold maxEntries.
    destruct (Z.of_nat (length hs) <? 10)%Z eqn:El.
    - intros _. apply Z.ltb_lt in El. rewrite Ehs, length_app in El. lia.
    - apply Z.ltb_ge in El. destruct (last hs) as [lo|] eqn:Elast;
        [|discriminate].
      intros Hlo. apply ltb_spec in Hlo.
      destruct post as [|z post].
      + exfalso. rewrite app_nil_r in Ehs. subst pre.
        apply last_Some in Elast. destruct Elast as [l' El'].
        rewrite El' in Hpre. apply Forall_app in Hpre.
        destruct Hpre as [_ Hpre]. apply Forall_cons in Hpre.
        destruct Hpre as [Hpre _]. lra.
      + rewrite Ehs, length_app in Hlen. cbn [length] in Hlen. lia. }
  assert (Hlow : isHighScore score st = false ->
                 post = [] /\ length hs = 10%nat).
  { unfold isHighScore. fold hs. unfold maxEntries.
    destruct (Z.of_nat (length hs) <? 10)%Z eqn:El; [discriminate|].
    apply Z.ltb_ge in El. destruct (last hs) as [lo|] eqn:Elast.
    - intros Hlo. apply ltb_false in Hlo. split; [|lia].
      destruct post as [|z post]; [reflexivity|]. exfalso.
      pose proof (descending_last hs_score hs lo Hdesc Elast) as Hall.
      rewrite Ehs in Hall. apply Forall_app in Hall. destruct Hall as [_ Hall].
      apply Forall_cons in Hall. destruct Hall as [Hz _].
      apply Forall_cons in Hpost. destruct Hpost as [Hz' _]. lra.
    - intros _. apply last_None in Elast. rewrite Elast in El. cbn in El. lia. }
  split; [reflexivity|]. split; [|split].
  - unfold stored. cbn [loadHighScores]. split.
    + rewrite length_take. lia.
    + unfold descending in *.
      rewrite <- (take_drop 10 (pre ++ e :: post)) in Hs.
      exact (StronglySorted_app_1_l _ _ _ Hs).
  - intros Hf. destruct (Hlow Hf) as [-> Hl]. rewrite app_nil_r in Ehs.
    subst pre. apply take_app_length'. symmetry. exact Hl.
  - intros Ht. specialize (Hhigh Ht). exists pre, post.
    split; [exact Ehs|]. split; [reflexivity|]. split; [|split; assumption].
    rewrite lookup_take_lt by exact Hhigh.
    apply list_lookup_middle. reflexivity.
Qed.

Lemma saveHighScore_spec_witness :
  let st : Storage :=
    Some [ {| hs_name := "ann"; hs_score := 120; hs_size := 40;
              hs_date := "2024-01-01T00:00:00.000Z" |};
           {| hs_name := "bob"; hs_score := 80; hs_size := 30;
              hs_date := "2024-01-02T00:00:00.000Z" |} ] in
  let e := {| hs_name := "cy"; hs_score := 80; hs_size := 25;
              hs_date := "2024-01-03T00:00:00.000Z" |} in
  let r := saveHighScore "cy" 80 25 "2024-01-03T00:00:00.000Z" st in
  loadHighScores (snd r) = fst r /\
  stored (snd r) /\
  (isHighScore 80 st = false -> fst r = loadHighScores st) /\
  (isHighScore 80 st = true ->
   exists pre post,
     loadHighScores st = pre ++ post /\
     fst r = take 10 (pre ++ e :: post) /\
     fst r !! length pre = Some e /\
     Forall (fun y => 80 <= hs_score y) pre /\
     Forall (fun y => hs_score y < 80) post).
Proof.
  cbn zeta. apply saveHighScore_spec. split.
  - cbn. lia.
  - unfold descending. cbn [loadHighScores].
    repeat (constructor; cbn [hs_score]; try discriminate).
Defined.

End Board.

(** ** The rate of the player's updates *)

Section Updates.

Import Sender.

Lemma run_spaced (evs : list Event) (m : t) :
  updateInterval m = 50%Z ->
  forall (i : nat) (a : Server.UpdateData) b,
    ((lastUpdateTime m, a) :: snd (run evs m)) !! i = Some b ->
    forall c, snd (run evs m) !! i = Some c ->
    (fst b + 50 <= fst c)%Z /\ Server.upd_isAlive (snd c) = true.
Proof.
  revert m. induction evs as [|ev evs IH]; intros m Hm i a b Hb c Hc.
  - cbn in Hc. rewrite lookup_nil in Hc. discriminate.
  - destruct ev as [| | now g]; cbn [run] in *.
    + exact (IH (onConnect m) Hm i a b Hb c Hc).
    + exact (IH (onDisconnect m) Hm i a b Hb c Hc).
    + unfold sendPlayerUpdate in *.
      destruct (player g) as [p|];
        [|destruct (run evs m) as [m2 outs] eqn:Er; cbn [snd] in *;
          apply (IH m Hm i a b); rewrite Er; assumption].
      destruct (negb (connected m) || negb (lp_isAlive p)) eqn:Eg;
        [destruct (run evs m) as [m2 outs] eqn:Er; cbn [snd] in *;
         apply (IH m Hm i a b); rewrite Er; assumption|].
      destruct (now - lastUpdateTime m <? updateInterval m)%Z eqn:Et;
        [destruct (run evs m) as [m2 outs] eqn:Er; cbn [snd] in *;
         apply (IH m Hm i a b); rewrite Er; assumption|].
      apply Z.ltb_ge in Et. rewrite Hm in Et.
      apply orb_false_elim in Eg. destruct Eg as [_ Ea].
      apply negb_false_iff in Ea.
      set (m1 := {| connected := connected m; lastUpdateTime := now;
                    updateInterval := updateInterval m |}) in *.
      destruct (run evs m1) as [m2 outs] eqn:Er. cbn [snd] in *.
      destruct i as [|i].
      * cbn in Hb, Hc. injection Hb as <-. injection Hc as <-.
        cbn [fst snd Server.upd_isAlive lp_isAlive]. split; [lia | exact Ea].
      * cbn in Hb, Hc.
        refine (IH m1 Hm i _ b _ c _); rewrite Er; unfold m1;
          cbn [snd lastUpdateTime]; [exact Hb | exact Hc].
Qed.

(** X27.  However the socket connects and disconnects and whenever the
    game loop calls [sendPlayerUpdate], the updates emitted are at least
    50 ms of [Date.now()] apart, the first at 50 or later; each reports
    the player alive and carries the game's score of that moment. *)
Theorem updates_at_most_every_50ms (evs : list Event) :
  let out := snd (run evs new) in
  (forall i b c,
     out !! i = Some b -> out !! S i = Some c -> (fst b + 50 <= fst c)%Z) /\
  (forall c, (c ∈ out) ->
     (50 <= fst c)%Z /\ Server.upd_isAlive (snd c) = true /\
     exists g, (Frame (fst c) g ∈ evs) /\
               Server.upd_score (snd c) = score g).
Proof.
  cbn zeta. split; [|intros c Hc; split; [|split]].
  - intros i b c Hb Hc.
    exact (proj1 (run_spaced evs new eq_refl (S i) (snd b) b Hb c Hc)).
  - apply list_elem_of_lookup in Hc. destruct Hc as [i Hc]. revert c Hc.
    induction i as [|i IH]; intros c Hc.
    + pose proof (run_spaced evs new eq_refl 0 (snd c) _ eq_refl c Hc) as [H _].
      cbn in H. lia.
    + destruct (lookup_lt_is_Some_2 (snd (run evs new)) i) as [b Hb].
      { apply lookup_lt_Some in Hc. lia. }
      pose proof (run_spaced evs new eq_refl (S i) (snd b) b Hb c Hc) as [H _].
      specialize (IH b Hb). lia.
  - apply list_elem_of_lookup in Hc. destruct Hc as [i Hc].
    destruct i as [|i].
    + exact (proj2 (run_spaced evs new eq_refl 0 (snd c) _ eq_refl c Hc)).
    + destruct (lookup_lt_is_Some_2 (snd (run evs new)) i) as [b Hb].
      { apply lookup_lt_Some in Hc. lia. }
      exact (proj2 (run_spaced evs new eq_refl (S i) (snd b) b Hb c Hc)).
  - generalize dependent new. intros m. revert m.
    induction evs as [|ev evs IH]; intros m Hc.
    + cbn in Hc. apply elem_of_nil in Hc. contradiction.
    + destruct ev as [| | now g]; cbn [run] in Hc.
      * destruct (IH _ Hc) as (g & Hg & E). exists g. split; [right|]; assumption.
      * destruct (IH _ Hc) as (g & Hg & E). exists g. split; [right|]; assumption.
      * destruct (sendPlayerUpdate now g m) as [[m' g'] out] eqn:Es.
        destruct (run evs m') as [m'' outs] eqn:Er. cbn [snd] in Hc.
        assert (Hrest : c ∈ outs ->
                        exists g0, (Frame (fst c) g0 ∈ Frame now g :: evs) /\
                                   Server.upd_score (snd c) = score g0).
        { intros Hin. destruct (IH m') as (g0 & Hg & E);
            [rewrite Er; exact Hin|].
          exists g0. split; [right|]; assumption. }
        destruct out as [u|]; [|exact (Hrest Hc)].
        apply elem_of_cons in Hc. destruct Hc as [-> | Hc]; [|exact (Hrest Hc)].
        exists g. split; [left|]. cbn [fst snd].
        unfold sendPlayerUpdate in Es. destruct (player g) as [p|];
          [|discriminate].
        destruct (negb (connected m) || negb (lp_isAlive p)); [discriminate|].
        destruct (now - lastUpdateTime m <? updateInterval m)%Z;
          [discriminate|].
        injection Es as _ _ <-. reflexivity.
Qed.

End Updates.
